(** * ProcessGroupNCCL: a shallow embedding of torch/lib/c10d/ProcessGroupNCCL.cpp

    The C++ translation unit is modelled function by function.  Pure helpers
    become Rocq functions; methods that touch the process-wide statics, the
    rendezvous store or the CUDA / NCCL runtimes become computations of a
    small state-and-exception monad that also records every external call
    in a chronological log. *)

From Stdlib Require Import ZArith Lia Decimal DecimalString DecimalPos DecimalZ.
From Stdlib Require Import Ascii String Sorted.
From stdpp Require Import base option list gmap strings.

Local Open Scope Z_scope.
Local Open Scope string_scope.

#[local] Arguments String.append !s1 s2 : simpl nomatch.

(** ** Machine integers *)

Module CInt.

(** [int] -> [size_t] (and any arithmetic on [size_t]): reduction modulo
    2^64. *)
Definition to_size_t (z : Z) : Z := z mod 2 ^ 64.

(** [size_t] -> [int]: the low 32 bits, read as a two's complement
    number. *)
Definition to_int (z : Z) : Z := (z + 2 ^ 31) mod 2 ^ 32 - 2 ^ 31.

(** [ssize_t] / [int64_t] arithmetic: the low 64 bits, two's complement. *)
Definition to_ssize_t (z : Z) : Z := (z + 2 ^ 63) mod 2 ^ 64 - 2 ^ 63.

Definition int_range (z : Z) : Prop := - 2 ^ 31 <= z < 2 ^ 31.
Definition ssize_range (z : Z) : Prop := - 2 ^ 63 <= z < 2 ^ 63.

End CInt.

(** ** Decimal text: [std::to_string] and [std::stoull] *)

Module Text.

(** [std::to_string] on a signed integer: an optional minus sign followed
    by the decimal digits, no leading zeros. *)
Definition to_string (z : Z) : string :=
  NilZero.string_of_int (Z.to_int z).

(** Does the character occur in the string? *)
Fixpoint occurs (c : ascii) (s : string) : bool :=
  match s with
  | EmptyString => false
  | String a s' => if Ascii.eqb a c then true else occurs c s'
  end.

Definition is_empty (s : string) : bool :=
  match s with EmptyString => true | _ => false end.

(** [std::stoull] restricted to the inputs this file feeds it: a
    non-empty run of decimal digits.  Anything else has no conversion
    ([None], [std::invalid_argument] in C++), and a value that does not
    fit 64 bits is out of range. *)
Definition stoull (s : string) : option Z :=
  match NilZero.uint_of_string s with
  | Some d => let v := Z.of_uint d in
              if Z.ltb v (2 ^ 64) then Some v else None
  | None => None
  end.

(** The characters [to_string] can produce. *)
Definition numeric_char (c : ascii) : bool :=
  existsb (Ascii.eqb c)
    ["-"; "0"; "1"; "2"; "3"; "4"; "5"; "6"; "7"; "8"; "9"]%char.

End Text.

(** ** The data the translation unit works on *)

Module c10d.

Import CInt Text.

(** *** Enumerations and the two lookup tables *)

Inductive ReduceOp := MIN | MAX | SUM | PRODUCT.
Inductive ncclRedOp_t := ncclSum | ncclProd | ncclMax | ncclMin.

(** [ncclOp]: every [ReduceOp] has an entry, so [operator[]] never
    default-inserts. *)
Definition ncclOp (op : ReduceOp) : ncclRedOp_t :=
  match op with
  | MIN => ncclMin
  | MAX => ncclMax
  | SUM => ncclSum
  | PRODUCT => ncclProd
  end.

Inductive ScalarType :=
  kByte | kChar | kShort | kInt | kLong | kHalf | kFloat | kDouble.

Inductive ncclDataType_t :=
  ncclInt8 | ncclUint8 | ncclInt32 | ncclInt64 | ncclHalf | ncclFloat | ncclDouble.

#[global] Instance ScalarType_eq_dec : EqDecision ScalarType.
Proof. solve_decision. Defined.

(** [ncclDataType.at(type)]: [None] stands for [std::out_of_range]. *)
Definition ncclDataType (t : ScalarType) : option ncclDataType_t :=
  match t with
  | kChar => Some ncclInt8
  | kByte => Some ncclUint8
  | kFloat => Some ncclFloat
  | kDouble => Some ncclDouble
  | kInt => Some ncclInt32
  | kLong => Some ncclInt64
  | kHalf => Some ncclHalf
  | kShort => None
  end.

(** *** Return codes of the two runtimes *)

Inductive cudaError_t := cudaSuccess | cudaErrorNotReady | cudaErrorOther (code : Z).
Inductive ncclResult_t := ncclSuccess | ncclFailure (code : Z).

Definition is_cudaSuccess (e : cudaError_t) : bool :=
  match e with cudaSuccess => true | _ => false end.
Definition is_cudaErrorNotReady (e : cudaError_t) : bool :=
  match e with cudaErrorNotReady => true | _ => false end.

(** *** Exceptions *)

Inductive exn :=
| runtime_error (what : string)
| invalid_argument (what : string)
| cuda_failure (e : cudaError_t)
| nccl_failure (e : ncclResult_t).

(** *** Handles and buffers *)

(** A stream is either the stream THC currently uses on a device or one
    created by [CUDAStream::create]; created objects are named by the
    position of their creation in the log, which makes them fresh. *)
Inductive cudaStream_t := ThcStream (device : Z) | NcclStream (id : nat).

Record CUDAStream := { getStream : cudaStream_t }.
Record CUDAEvent := { getEvent : nat }.

Definition NCCL_UNIQUE_ID_BYTES : nat := 128.

Record ncclUniqueId := { internal : list Byte.byte }.

Record NCCLComm := {
  comm_id : nat;
  comm_numRanks : Z;
  comm_rank : Z;
  comm_uniqueId : ncclUniqueId
}.

(** The fields of [at::Tensor] this file reads. *)
Record Tensor := {
  data_ptr : Z;
  numel : Z;
  scalarType : ScalarType;
  get_device : Z;
  is_contiguous : bool;
  is_cuda : bool;
  is_sparse : bool
}.

Record AllreduceOptions := { reduceOp : ReduceOp }.
Record BroadcastOptions := { rootRank : Z; rootTensor : Z }.

Record THCState := { numDevices : Z }.

(** *** The log of external calls *)

Inductive Mutex := pgTrackingLock_ | cudaFreeMutex.

Inductive Action :=
| Lock (m : Mutex)
| Unlock (m : Mutex)
| CounterSet (v : Z)
| SeqSet (gid v : Z)
| SeqErase (gid : Z)
| StoreSet (store : nat) (key : string) (val : list Byte.byte)
| StoreGet (store : nat) (key : string)
| LazyInitCUDA
| SetDevice (device : Z)
| StreamCreate
| EventCreate
| EventRecord (ev : nat) (stream : cudaStream_t)
| StreamWaitEvent (stream : cudaStream_t) (ev : nat)
| EventQuery (ev : nat)
| NcclGetUniqueId
| NcclGroupStart
| NcclGroupEnd
| NcclCommCreate (numRanks rank : Z) (id : ncclUniqueId)
| NcclAllReduce (sendbuff recvbuff count : Z) (dtype : ncclDataType_t)
    (op : ncclRedOp_t) (comm : NCCLComm) (stream : cudaStream_t)
| NcclBcast (buff count : Z) (dtype : ncclDataType_t) (root : Z)
    (comm : NCCLComm) (stream : cudaStream_t).

(** *** What the outside world answers

    The answer to an external call may depend on everything that
    happened before, so the oracle reads the log. *)
Record Env := {
  cuda_status : list Action -> Action -> cudaError_t;
  nccl_status : list Action -> Action -> ncclResult_t;
  fresh_unique_id : list Action -> ncclUniqueId;
  visible_devices : list Action -> Z
}.

(** *** Process groups and the process-wide state *)

Record ProcessGroupNCCL := {
  rank_ : Z;
  size_ : Z;
  store_ : nat;
  thcState_ : THCState;
  processGroupID_ : string;
  devNCCLCommMap_ : gmap string (list NCCLComm);
  ncclStreams_ : gmap string (list CUDAStream);
  ncclEvents_ : gmap string (list CUDAEvent)
}.

(** The statics of the class, the rendezvous stores, the live
    [ProcessGroupNCCL] objects by address, and the log. *)
Record Sys := {
  pgUniqueNCCLIDCnt_ : gmap Z Z;
  processGroupCounter_ : Z;
  stores : gmap (nat * string) (list Byte.byte);
  objects : gmap nat ProcessGroupNCCL;
  log : list Action
}.

(** The state the translation unit is loaded with. *)
Definition Sys_init : Sys :=
  {| pgUniqueNCCLIDCnt_ := ∅; processGroupCounter_ := -1;
     stores := ∅; objects := ∅; log := [] |}.

Record WorkNCCL := {
  devices_ : list Z;
  cudaEvents_ : list CUDAEvent
}.

(** *** Outcomes and the monad *)

Inductive outcome (A : Type) :=
| Ok (a : A)
| Throw (e : exn)
| Blocked          (* a store [get] on a key nobody published *)
| Undefined.       (* [operator[]] out of range *)
Arguments Ok {A} a.
Arguments Throw {A} e.
Arguments Blocked {A}.
Arguments Undefined {A}.

Definition M (A : Type) : Type := Sys -> outcome A * Sys.

Definition ret {A} (a : A) : M A := fun s => (Ok a, s).

Definition bind {A B} (m : M A) (k : A -> M B) : M B :=
  fun s =>
    match m s with
    | (Ok a, s') => k a s'
    | (Throw e, s') => (Throw e, s')
    | (Blocked, s') => (Blocked, s')
    | (Undefined, s') => (Undefined, s')
    end.

Definition throw {A} (e : exn) : M A := fun s => (Throw e, s).
Definition undefined {A} : M A := fun s => (Undefined, s).

(** Run [m], then [cleanup], whatever [m] did (a destructor at scope
    exit). *)
Definition finally {A} (m : M A) (cleanup : M unit) : M A :=
  fun s =>
    let '(r, s') := m s in
    match cleanup s' with
    | (Ok _, s'') => (r, s'')
    | (Throw e, s'') => (Throw e, s'')
    | (Blocked, s'') => (Blocked, s'')
    | (Undefined, s'') => (Undefined, s'')
    end.

Declare Scope monad_scope.
Delimit Scope monad_scope with monad.
Bind Scope monad_scope with M.
Notation "'let*' x ':=' m 'in' k" := (bind m (fun x => k))
  (at level 10, x pattern, m at level 100, k at level 200) : monad_scope.
Local Open Scope monad_scope.

(** [v[i]]. *)
Definition idx {A} (v : list A) (i : nat) : M A :=
  match v !! i with
  | Some x => ret x
  | None => undefined
  end.

(** [for (size_t i = 0; i < v.size(); ++i) body(i, v[i])], collecting
    what the bodies return. *)
Fixpoint for_each {A B} (body : nat -> A -> M B) (i : nat) (v : list A)
  : M (list B) :=
  match v with
  | [] => ret []
  | x :: v' =>
      let* y := body i x in
      let* ys := for_each body (S i) v' in
      ret (y :: ys)
  end.

(** [m[k]] on a [std::map] / [std::unordered_map] of vectors: a missing
    key is inserted with an empty vector. *)
Definition subscript {A} (m : gmap string (list A)) (k : string)
  : list A * gmap string (list A) :=
  match m !! k with
  | Some v => (v, m)
  | None => ([], <[k := []]> m)
  end.

(** [m.emplace(k, v)]: no effect when the key is present. *)
Definition emplace {A} (m : gmap string (list A)) (k : string) (v : list A)
  : gmap string (list A) :=
  match m !! k with
  | Some _ => m
  | None => <[k := v]> m
  end.

(** Field updates of [Sys]. *)
Definition with_log (s : Sys) (l : list Action) : Sys :=
  {| pgUniqueNCCLIDCnt_ := pgUniqueNCCLIDCnt_ s;
     processGroupCounter_ := processGroupCounter_ s;
     stores := stores s;
     objects := objects s;
     log := l |}.

Definition with_counter (s : Sys) (v : Z) : Sys :=
  {| pgUniqueNCCLIDCnt_ := pgUniqueNCCLIDCnt_ s;
     processGroupCounter_ := v;
     stores := stores s;
     objects := objects s;
     log := log s |}.

Definition with_seq (s : Sys) (m : gmap Z Z) : Sys :=
  {| pgUniqueNCCLIDCnt_ := m;
     processGroupCounter_ := processGroupCounter_ s;
     stores := stores s;
     objects := objects s;
     log := log s |}.

Definition with_stores (s : Sys) (m : gmap (nat * string) (list Byte.byte)) : Sys :=
  {| pgUniqueNCCLIDCnt_ := pgUniqueNCCLIDCnt_ s;
     processGroupCounter_ := processGroupCounter_ s;
     stores := m;
     objects := objects s;
     log := log s |}.

Definition with_objects (s : Sys) (m : gmap nat ProcessGroupNCCL) : Sys :=
  {| pgUniqueNCCLIDCnt_ := pgUniqueNCCLIDCnt_ s;
     processGroupCounter_ := processGroupCounter_ s;
     stores := stores s;
     objects := m;
     log := log s |}.

(** [*this]; using an object that is not alive is undefined. *)
Definition deref (this : nat) : M ProcessGroupNCCL :=
  fun s =>
    match objects s !! this with
    | Some o => (Ok o, s)
    | None => (Undefined, s)
    end.

Definition assign (this : nat) (o : ProcessGroupNCCL) : M unit :=
  fun s => (Ok tt, with_objects s (<[this := o]> (objects s))).

Definition release (this : nat) : M unit :=
  fun s => (Ok tt, with_objects s (delete this (objects s))).

Definition emit (a : Action) : M unit :=
  fun s => (Ok tt, with_log s (log s ++ [a])%list).

Definition get_sys : M Sys := fun s => (Ok s, s).

Definition lift {A} (o : outcome A) : M A := fun s => (o, s).

Definition lock (m : Mutex) : M unit := emit (Lock m).
Definition unlock (m : Mutex) : M unit := emit (Unlock m).

(** [processGroupCounter_ = v]. *)
Definition set_processGroupCounter (v : Z) : M unit :=
  fun s => (Ok tt, with_log (with_counter s v) (log s ++ [CounterSet v])%list).

(** [pgUniqueNCCLIDCnt_[gid] = v]. *)
Definition set_pgUniqueNCCLIDCnt (gid v : Z) : M unit :=
  fun s =>
    (Ok tt, with_log (with_seq s (<[gid := v]> (pgUniqueNCCLIDCnt_ s)))
              (log s ++ [SeqSet gid v])%list).

(** [pgUniqueNCCLIDCnt_.erase(gid)]. *)
Definition erase_pgUniqueNCCLIDCnt (gid : Z) : M unit :=
  fun s =>
    (Ok tt, with_log (with_seq s (delete gid (pgUniqueNCCLIDCnt_ s)))
              (log s ++ [SeqErase gid])%list).

(** Modelled from the spec: the rendezvous store (Store.hpp is not part
    of the sources).  [set(key, value)] publishes; [get(key)] blocks
    until the key is published, so on a key nobody published it never
    returns. *)
Definition store_set (st : nat) (key : string) (val : list Byte.byte) : M unit :=
  fun s =>
    (Ok tt, with_log (with_stores s (<[(st, key) := val]> (stores s)))
              (log s ++ [StoreSet st key val])%list).

Definition store_get (st : nat) (key : string) : M (list Byte.byte) :=
  fun s =>
    match stores s !! (st, key) with
    | Some v => (Ok v, with_log s (log s ++ [StoreGet st key])%list)
    | None => (Blocked, with_log s (log s ++ [StoreGet st key])%list)
    end.

(** The 128 bytes of an [ncclUniqueId] object. *)
Definition id_bytes (id : ncclUniqueId) : list Byte.byte :=
  take NCCL_UNIQUE_ID_BYTES (internal id ++ repeat Byte.x00 NCCL_UNIQUE_ID_BYTES)%list.

(** The messages of the exceptions this file throws. *)
Definition msg_unsupported_type : string :=
  "Unsupported data type for NCCL process group".
Definition msg_exception_unsupported : string :=
  "exception() is not supported by NCCL process group's work, since isSuccess() will always return true, and isCompleted() and wait() will either succeed or throw".
Definition msg_bad_id_length : string :=
  "Unexpected NCCL unique ID length received from the store".
Definition msg_no_devices : string :=
  "Not able to create/get the NCCL Communicator since the GPU devices are not known".
Definition msg_length_mismatch : string :=
  "Input tensor sequence should have the same number of tensors as the output tensor sequence".
Definition msg_zero_inputs : string :=
  "The number of input tensors should not be zero".
Definition msg_too_many : string :=
  "The number of input tensors is larger than the number of available GPUs".
Definition msg_not_cuda_dense : string :=
  "Only CUDA dense tensor is supported for NCCL collective operations".
Definition msg_type_mismatch : string :=
  "Expecting all GPU tensors to have identical type".
Definition msg_numel_mismatch : string :=
  "Expecting all input tensors to have identical number of elements".
Definition msg_output_numel : string :=
  "The number of elements of output tensor does not match the number of elements of the input tensor".
Definition msg_not_contiguous : string :=
  "Expecting all GPU tensors to be contiguous".
Definition msg_duplicate_device : string :=
  "Expecting inputs on different GPU devices".
Definition msg_device_mismatch : string :=
  "Expecting input and output tensors to be on the same device".

(** *** Pure helpers of the anonymous namespace *)

Definition getNcclDataType (type : ScalarType) : M ncclDataType_t :=
  match ncclDataType type with
  | Some t => ret t
  | None => throw (runtime_error msg_unsupported_type)
  end.

Definition getKeyFromDevices (devices : list Z) : string :=
  fold_left
    (fun deviceList device =>
       if is_empty deviceList then to_string device
       else deviceList +:+ ("," +:+ to_string device))
    devices "".

Definition getDevicesOfTensors (tensors : list Tensor) : list Z :=
  fold_left (fun res tensor => (res ++ [get_device tensor])%list) tensors [].

(** ** The functions of the translation unit *)

Section Code.

Variable env : Env.

(** *** Calls into the CUDA and NCCL runtimes *)

Definition cuda_call (a : Action) : M cudaError_t :=
  fun s => (Ok (cuda_status env (log s) a), with_log s (log s ++ [a])%list).

Definition nccl_call (a : Action) : M ncclResult_t :=
  fun s => (Ok (nccl_status env (log s) a), with_log s (log s ++ [a])%list).

(** Modelled from the spec: the checking macros live in
    private/CUDAUtils.hpp, which is not part of the sources.  A
    runtime call that does not report success is raised as an error
    carrying the underlying code. *)
Definition C10D_CUDA_CHECK (rc : cudaError_t) : M unit :=
  if is_cudaSuccess rc then ret tt else throw (cuda_failure rc).

Definition C10D_NCCL_CHECK (rc : ncclResult_t) : M unit :=
  match rc with
  | ncclSuccess => ret tt
  | ncclFailure _ => throw (nccl_failure rc)
  end.

(** Modelled from the spec: [CUDADevice], [CUDAStream], [CUDAEvent] and
    [NCCLComm] are declared in private/CUDAUtils.hpp and NCCLUtils.hpp,
    which are not part of the sources.  Each wraps one runtime call and
    raises its failure; the guard's destructor is not modelled. *)
Definition setDevice (device : Z) : M unit :=
  let* rc := cuda_call (SetDevice device) in C10D_CUDA_CHECK rc.

Definition CUDAStream_create : M CUDAStream :=
  let* s := get_sys in
  let* rc := cuda_call StreamCreate in
  let* _ := C10D_CUDA_CHECK rc in
  ret {| getStream := NcclStream (length (log s)) |}.

Definition CUDAEvent_create : M CUDAEvent :=
  let* s := get_sys in
  let* rc := cuda_call EventCreate in
  let* _ := C10D_CUDA_CHECK rc in
  ret {| getEvent := length (log s) |}.

Definition NCCLComm_create (numRanks rank : Z) (ncclID : ncclUniqueId)
  : M NCCLComm :=
  let* s := get_sys in
  let* rc := nccl_call (NcclCommCreate numRanks rank ncclID) in
  let* _ := C10D_NCCL_CHECK rc in
  ret {| comm_id := length (log s); comm_numRanks := numRanks;
         comm_rank := rank; comm_uniqueId := ncclID |}.

Definition ncclGetUniqueId : M (ncclResult_t * ncclUniqueId) :=
  let* s := get_sys in
  let* rc := nccl_call NcclGetUniqueId in
  ret (rc, fresh_unique_id env (log s)).

Definition lazyInitCUDA : M THCState :=
  let* s := get_sys in
  let* _ := emit LazyInitCUDA in
  ret {| numDevices := visible_devices env (log s) |}.

(** *** [syncStreams] *)

Definition syncStreams (thcState : THCState) (devices : list Z)
    (ncclEvents : list CUDAEvent) (ncclStreams : list CUDAStream) : M unit :=
  let* _ :=
    for_each
      (fun i device =>
         let* _ := setDevice device in
         let currentThcStream := ThcStream device in
         let* ncclStream := idx ncclStreams i in
         let* ncclEvent := idx ncclEvents i in
         let* rc1 := cuda_call (EventRecord (getEvent ncclEvent) currentThcStream) in
         let* _ := C10D_CUDA_CHECK rc1 in
         let* rc2 := cuda_call (StreamWaitEvent (getStream ncclStream) (getEvent ncclEvent)) in
         C10D_CUDA_CHECK rc2)
      0%nat devices in
  ret tt.

(** *** [WorkNCCL] *)

Definition WorkNCCL_ctor (devices : list Z) : M WorkNCCL :=
  let* events :=
    for_each
      (fun _ device =>
         let* _ := setDevice device in
         CUDAEvent_create)
      0%nat devices in
  ret {| devices_ := devices; cudaEvents_ := events |}.

Definition isCompleted (this : WorkNCCL) : M bool := ret true.

Fixpoint finishedGPUExecution_loop (this : WorkNCCL) (i : nat) (rest : list Z)
  : M bool :=
  match rest with
  | [] => ret true
  | device :: rest' =>
      let* _ := setDevice device in
      let* cudaEvent := idx (cudaEvents_ this) i in
      let* r := cuda_call (EventQuery (getEvent cudaEvent)) in
      let* _ :=
        if negb (is_cudaSuccess r) && negb (is_cudaErrorNotReady r)
        then C10D_CUDA_CHECK r else ret tt in
      if is_cudaErrorNotReady r then ret false
      else finishedGPUExecution_loop this (S i) rest'
  end.

Definition finishedGPUExecution (this : WorkNCCL) : M bool :=
  finishedGPUExecution_loop this 0%nat (devices_ this).

Definition synchronize (this : WorkNCCL) : M unit :=
  let* thcState := lazyInitCUDA in
  let* _ :=
    for_each
      (fun i device =>
         let* _ := setDevice device in
         let thcStream := ThcStream device in
         let* cudaEvent := idx (cudaEvents_ this) i in
         let* rc := cuda_call (StreamWaitEvent thcStream (getEvent cudaEvent)) in
         C10D_CUDA_CHECK rc)
      0%nat (devices_ this) in
  ret tt.

Definition wait (this : WorkNCCL) : M bool :=
  let* _ := synchronize this in
  ret true.

Definition isSuccess (this : WorkNCCL) : M bool := ret true.

Definition exception (this : WorkNCCL) : M exn :=
  throw (runtime_error msg_exception_unsupported).

(** *** [ProcessGroupNCCL]: construction, destruction, rendezvous *)

(** The constructor returns the address of the new object. *)
Definition ProcessGroupNCCL_ctor (store : nat) (rank size : Z) : M nat :=
  let* s0 := get_sys in
  let this := length (log s0) in
  let* thcState := lazyInitCUDA in
  let* _ := lock pgTrackingLock_ in
  let* s := get_sys in
  let counter := to_ssize_t (processGroupCounter_ s + 1) in
  let* _ := set_processGroupCounter counter in
  let* _ := set_pgUniqueNCCLIDCnt counter (-1) in
  let* _ :=
    assign this
      {| rank_ := rank; size_ := size; store_ := store;
         thcState_ := thcState;
         processGroupID_ := to_string counter;
         devNCCLCommMap_ := ∅; ncclStreams_ := ∅; ncclEvents_ := ∅ |} in
  let* _ := unlock pgTrackingLock_ in
  ret this.

Definition ProcessGroupNCCL_dtor (this : nat) : M unit :=
  let* self := deref this in
  let* _ := lock pgTrackingLock_ in
  let* _ :=
    finally
      (match stoull (processGroupID_ self) with
       | Some k => erase_pgUniqueNCCLIDCnt (to_ssize_t k)
       | None => throw (invalid_argument "stoull")
       end)
      (unlock pgTrackingLock_) in
  release this.

(** The [ncclUniqueId*] argument is an in/out parameter; the model
    returns what it points to afterwards. *)
Definition broadcastUniqueNCCLID (this : nat) (ncclID : ncclUniqueId)
  : M ncclUniqueId :=
  let* self := deref this in
  let* _ := lock pgTrackingLock_ in
  match stoull (processGroupID_ self) with
  | None =>
      let* _ := unlock pgTrackingLock_ in
      throw (invalid_argument "stoull")
  | Some k =>
      let processGroupIDKey := to_ssize_t k in
      let* s := get_sys in
      let uniqueNCCLIDCnt :=
        to_ssize_t (default 0 (pgUniqueNCCLIDCnt_ s !! processGroupIDKey) + 1) in
      let* _ := set_pgUniqueNCCLIDCnt processGroupIDKey uniqueNCCLIDCnt in
      let* _ := unlock pgTrackingLock_ in
      let storeKey := processGroupID_ self +:+ ("_" +:+ to_string uniqueNCCLIDCnt) in
      if Z.eqb (rank_ self) 0 then
        let ncclIDVal := id_bytes ncclID in
        let* _ := store_set (store_ self) storeKey ncclIDVal in
        ret ncclID
      else
        let* ncclIDVal := store_get (store_ self) storeKey in
        if negb (Nat.eqb (length ncclIDVal) NCCL_UNIQUE_ID_BYTES) then
          throw (runtime_error msg_bad_id_length)
        else
          ret {| internal := ncclIDVal |}
  end.

(** *** The communicator cache *)

Definition with_caches (this : ProcessGroupNCCL)
    (comms : gmap string (list NCCLComm))
    (streams : gmap string (list CUDAStream))
    (events : gmap string (list CUDAEvent)) : ProcessGroupNCCL :=
  {| rank_ := rank_ this; size_ := size_ this; store_ := store_ this;
     thcState_ := thcState_ this; processGroupID_ := processGroupID_ this;
     devNCCLCommMap_ := comms; ncclStreams_ := streams; ncclEvents_ := events |}.

(** The method returns a reference into the cache; the model returns the
    vector it refers to. *)
Definition getNCCLComm (this : nat) (devicesKey : string) (devices : list Z)
  : M (list NCCLComm) :=
  let* self := deref this in
  if is_empty devicesKey then throw (runtime_error msg_no_devices)
  else
    match devNCCLCommMap_ self !! devicesKey with
    | Some ncclComms => ret ncclComms
    | None =>
        let size := Z.of_nat (length devices) in
        let uninitialised := {| internal := [] |} in
        let* ncclID0 :=
          if Z.eqb (rank_ self) 0 then
            let* (rc, id) := ncclGetUniqueId in
            let* _ := C10D_NCCL_CHECK rc in
            ret id
          else ret uninitialised in
        let* ncclID := broadcastUniqueNCCLID this ncclID0 in
        let* rc := nccl_call NcclGroupStart in
        let* _ := C10D_NCCL_CHECK rc in
        let* created :=
          for_each
            (fun i device =>
               let numRanks := to_int (to_size_t (to_size_t (size_ self) * size)) in
               let rank :=
                 to_int (to_size_t (to_size_t (to_size_t (rank_ self) * size)
                                    + Z.of_nat i)) in
               let* _ := setDevice device in
               let* comm := NCCLComm_create numRanks rank ncclID in
               let* stream := CUDAStream_create in
               let* event := CUDAEvent_create in
               ret (comm, stream, event))
            0%nat devices in
        let* rc := nccl_call NcclGroupEnd in
        let* _ := C10D_NCCL_CHECK rc in
        let ncclComms := map (fun t => fst (fst t)) created in
        let streamVal := map (fun t => snd (fst t)) created in
        let eventVal := map snd created in
        let comms := emplace (devNCCLCommMap_ self) devicesKey ncclComms in
        let streams := emplace (ncclStreams_ self) devicesKey streamVal in
        let events := emplace (ncclEvents_ self) devicesKey eventVal in
        let '(cached, comms') := subscript comms devicesKey in
        let* _ := assign this (with_caches self comms' streams events) in
        ret cached
    end.

(** *** Buffer validation *)

(** The body of the [for] loop, from tensor [i] on; [rest] is
    [input[i..]] and [usedDevices] holds the devices of [input[0..i-1]]. *)
Fixpoint tensorCheckHelper_loop (output : list Tensor) (outputOverInput : Z)
    (inputNumElement : Z) (elementType : ScalarType)
    (usedDevices : gset Z) (i : nat) (rest : list Tensor) : outcome unit :=
  match rest with
  | [] => Ok tt
  | input_i :: rest' =>
      match output !! i with
      | None => Undefined
      | Some output_i =>
          if negb (is_cuda input_i && negb (is_sparse input_i) &&
                   is_cuda output_i && negb (is_sparse output_i))
          then Throw (runtime_error msg_not_cuda_dense)
          else if negb (bool_decide (scalarType input_i = elementType)) ||
                  negb (bool_decide (scalarType output_i = elementType))
          then Throw (runtime_error msg_type_mismatch)
          else if negb (Z.eqb (numel input_i) inputNumElement)
          then Throw (runtime_error msg_numel_mismatch)
          else if negb (Z.eqb (numel output_i)
                          (to_ssize_t (inputNumElement * outputOverInput)))
          then Throw (runtime_error msg_output_numel)
          else if negb (is_contiguous input_i) || negb (is_contiguous output_i)
          then Throw (runtime_error msg_not_contiguous)
          else
            let inserted := negb (bool_decide (get_device input_i ∈ usedDevices)) in
            let usedDevices' := {[ get_device input_i ]} ∪ usedDevices in
            if negb inserted
            then Throw (runtime_error msg_duplicate_device)
            else if negb (Z.eqb (get_device input_i) (get_device output_i))
            then Throw (runtime_error msg_device_mismatch)
            else tensorCheckHelper_loop output outputOverInput inputNumElement
                   elementType usedDevices' (S i) rest'
      end
  end.

Definition tensorCheckHelper (this : ProcessGroupNCCL)
    (input output : list Tensor) (outputOverInput : Z) : outcome unit :=
  if negb (Nat.eqb (length input) (length output))
  then Throw (runtime_error msg_length_mismatch)
  else if Nat.eqb (length input) 0
  then Throw (runtime_error msg_zero_inputs)
  else if Z.ltb (to_size_t (numDevices (thcState_ this))) (Z.of_nat (length input))
  then Throw (runtime_error msg_too_many)
  else
    match input !! 0%nat with
    | None => Undefined
    | Some input_0 =>
        let inputNumElement := numel input_0 in
        let elementType := scalarType input_0 in
        tensorCheckHelper_loop output outputOverInput inputNumElement
          elementType ∅ 0%nat input
    end.

(** Modelled from the spec: the default argument of [outputOverInput] is
    declared in ProcessGroupNCCL.hpp, which is not part of the sources;
    the ratio is 1 for all-reduce and broadcast. *)
Definition default_outputOverInput : Z := 1.

(** *** The collectives *)

Definition allreduce (this : nat) (tensors : list Tensor)
    (opts : AllreduceOptions) : M WorkNCCL :=
  let* self := deref this in
  let* _ := lift (tensorCheckHelper self tensors tensors default_outputOverInput) in
  let devices := getDevicesOfTensors tensors in
  let key := getKeyFromDevices devices in
  let* ncclComms := getNCCLComm this key devices in
  let* self1 := deref this in
  let '(events, eventMap) := subscript (ncclEvents_ self1) key in
  let '(streams, streamMap) := subscript (ncclStreams_ self1) key in
  let* _ := assign this (with_caches self1 (devNCCLCommMap_ self1) streamMap eventMap) in
  let* _ := syncStreams (thcState_ self1) devices events streams in
  let* work := WorkNCCL_ctor devices in
  let* _ := lock cudaFreeMutex in
  finally
    (let* rc := nccl_call NcclGroupStart in
     let* _ := C10D_NCCL_CHECK rc in
     let* _ :=
       for_each
         (fun i tensor =>
            let* device := idx devices i in
            let* _ := setDevice device in
            let* ncclStream := idx streams i in
            let* dtype := getNcclDataType (scalarType tensor) in
            let* comm := idx ncclComms i in
            let* rc :=
              nccl_call
                (NcclAllReduce (data_ptr tensor) (data_ptr tensor)
                   (to_size_t (numel tensor)) dtype (ncclOp (reduceOp opts))
                   comm (getStream ncclStream)) in
            C10D_NCCL_CHECK rc)
         0%nat tensors in
     let* rc := nccl_call NcclGroupEnd in
     let* _ := C10D_NCCL_CHECK rc in
     let* _ :=
       for_each
         (fun i _ =>
            let* ncclStream := idx streams i in
            let* cudaEvent := idx (cudaEvents_ work) i in
            let* rc :=
              cuda_call (EventRecord (getEvent cudaEvent) (getStream ncclStream)) in
            C10D_CUDA_CHECK rc)
         0%nat tensors in
     ret work)
    (unlock cudaFreeMutex).

Definition broadcast (this : nat) (tensors : list Tensor)
    (opts : BroadcastOptions) : M WorkNCCL :=
  let* self := deref this in
  let* _ := lift (tensorCheckHelper self tensors tensors default_outputOverInput) in
  let devices := getDevicesOfTensors tensors in
  let key := getKeyFromDevices devices in
  let* ncclComms := getNCCLComm this key devices in
  let* self1 := deref this in
  let '(events, eventMap) := subscript (ncclEvents_ self1) key in
  let '(streams, streamMap) := subscript (ncclStreams_ self1) key in
  let* _ := assign this (with_caches self1 (devNCCLCommMap_ self1) streamMap eventMap) in
  let* _ := syncStreams (thcState_ self1) devices events streams in
  let* work := WorkNCCL_ctor devices in
  let* _ := lock cudaFreeMutex in
  finally
    (let* rc := nccl_call NcclGroupStart in
     let* _ := C10D_NCCL_CHECK rc in
     let* _ :=
       for_each
         (fun i tensor =>
            let* device := idx devices i in
            let* _ := setDevice device in
            let* ncclStream := idx streams i in
            let root :=
              to_int (to_size_t (to_size_t (to_size_t (rootRank opts)
                                            * Z.of_nat (length tensors))
                                 + to_size_t (rootTensor opts))) in
            let* dtype := getNcclDataType (scalarType tensor) in
            let* comm := idx ncclComms i in
            let* rc :=
              nccl_call
                (NcclBcast (data_ptr tensor) (to_size_t (numel tensor)) dtype
                   root comm (getStream ncclStream)) in
            C10D_NCCL_CHECK rc)
         0%nat tensors in
     let* rc := nccl_call NcclGroupEnd in
     let* _ := C10D_NCCL_CHECK rc in
     let* _ :=
       for_each
         (fun i _ =>
            let* ncclStream := idx streams i in
            let* cudaEvent := idx (cudaEvents_ work) i in
            let* rc :=
              cuda_call (EventRecord (getEvent cudaEvent) (getStream ncclStream)) in
            C10D_CUDA_CHECK rc)
         0%nat tensors in
     ret work)
    (unlock cudaFreeMutex).

(** *** A process using the class

    What a client can do: construct a group, destroy one, issue a
    collective. *)

Inductive Op :=
| Construct (store : nat) (rank size : Z)
| Destroy (this : nat)
| Allreduce (this : nat) (tensors : list Tensor) (opts : AllreduceOptions)
| Broadcast (this : nat) (tensors : list Tensor) (opts : BroadcastOptions).

Definition forget {A} (m : M A) : M unit :=
  let* _ := m in ret tt.

Definition step (op : Op) : M unit :=
  match op with
  | Construct store rank size => forget (ProcessGroupNCCL_ctor store rank size)
  | Destroy this => ProcessGroupNCCL_dtor this
  | Allreduce this tensors opts => forget (allreduce this tensors opts)
  | Broadcast this tensors opts => forget (broadcast this tensors opts)
  end.

(** The rendezvous stores are shared with the other processes of the job,
    which run this same code: between two calls of this process a peer
    may publish a value ([store_->set] of its rank-0 branch). *)
Inductive Event :=
| Call (op : Op)
| PeerSet (store : nat) (key : string) (val : list Byte.byte).

Definition peer_set (st : nat) (key : string) (val : list Byte.byte) : M unit :=
  fun s => (Ok tt, with_stores s (<[(st, key) := val]> (stores s))).

Definition occur (ev : Event) : M unit :=
  match ev with
  | Call op => step op
  | PeerSet st key val => peer_set st key val
  end.

(** A history of the process, calls being atomic.  An exception leaves
    the process running (the caller may catch it).  A call that blocks
    stays in [store_->get], holding no lock, with what it did so far, and
    the history goes on with the calls of the other threads and with the
    peers; a [get] that is answered is the history in which the peer
    published before the call.  Undefined behaviour ends the history. *)
Fixpoint run (evs : list Event) (s : Sys) : Sys :=
  match evs with
  | [] => s
  | ev :: evs' =>
      match occur ev s with
      | (Ok _, s') => run evs' s'
      | (Throw _, s') => run evs' s'
      | (Blocked, s') => run evs' s'
      | (Undefined, s') => s'
      end
  end.

End Code.

Arguments isCompleted this _ /.
Arguments isSuccess this _ /.
Arguments exception this _ /.

(** ** Sample inputs *)

(** A runtime in which every call succeeds and every event is ready. *)
Definition env_ready : Env :=
  {| cuda_status := fun _ _ => cudaSuccess;
     nccl_status := fun _ _ => ncclSuccess;
     fresh_unique_id := fun _ => {| internal := [Byte.x2a] |};
     visible_devices := fun _ => 8 |}.

(** The same runtime, except that every event is still pending. *)
Definition env_pending : Env :=
  {| cuda_status := fun _ a =>
       match a with EventQuery _ => cudaErrorNotReady | _ => cudaSuccess end;
     nccl_status := fun _ _ => ncclSuccess;
     fresh_unique_id := fun _ => {| internal := [Byte.x2a] |};
     visible_devices := fun _ => 8 |}.

(** A dense, contiguous float buffer of four elements on [device]. *)
Definition sample_tensor (device : Z) : Tensor :=
  {| data_ptr := 4096 * (device + 1); numel := 4; scalarType := kFloat;
     get_device := device; is_contiguous := true; is_cuda := true;
     is_sparse := false |}.

Definition sample_work : WorkNCCL :=
  {| devices_ := [0]; cudaEvents_ := [ {| getEvent := 0 |} ] |}.

Definition sample_group : ProcessGroupNCCL :=
  {| rank_ := 1; size_ := 2; store_ := 0; thcState_ := {| numDevices := 8 |};
     processGroupID_ := "0";
     devNCCLCommMap_ := ∅; ncclStreams_ := ∅; ncclEvents_ := ∅ |}.

(** ** Buffer validation, as a search for the first violation

    The sequence-level checks come first.  Then the pairs are visited in
    order and, for each pair, the per-pair checks in the order of the loop
    body; [seen] lists the devices of the inputs visited before. *)

Definition dense_on_device (t : Tensor) : bool := is_cuda t && negb (is_sparse t).

Definition pair_violation (inputNumElement outputOverInput : Z)
    (elementType : ScalarType) (seen : list Z) (i o : Tensor) : option string :=
  if negb (dense_on_device i) || negb (dense_on_device o)
  then Some msg_not_cuda_dense
  else if negb (bool_decide (scalarType i = elementType /\ scalarType o = elementType))
  then Some msg_type_mismatch
  else if negb (Z.eqb (numel i) inputNumElement)
  then Some msg_numel_mismatch
  else if negb (Z.eqb (numel o) (to_ssize_t (inputNumElement * outputOverInput)))
  then Some msg_output_numel
  else if negb (is_contiguous i && is_contiguous o)
  then Some msg_not_contiguous
  else if bool_decide (get_device i ∈ seen)
  then Some msg_duplicate_device
  else if negb (Z.eqb (get_device i) (get_device o))
  then Some msg_device_mismatch
  else None.

Fixpoint first_pair_violation (inputNumElement outputOverInput : Z)
    (elementType : ScalarType) (seen : list Z) (pairs : list (Tensor * Tensor))
  : option string :=
  match pairs with
  | [] => None
  | (i, o) :: pairs' =>
      match pair_violation inputNumElement outputOverInput elementType seen i o with
      | Some m => Some m
      | None =>
          first_pair_violation inputNumElement outputOverInput elementType
            (seen ++ [get_device i])%list pairs'
      end
  end.

Definition first_violation (visible : Z) (input output : list Tensor)
    (outputOverInput : Z) : option string :=
  if negb (Nat.eqb (length input) (length output)) then Some msg_length_mismatch
  else
    match input with
    | [] => Some msg_zero_inputs
    | input_0 :: _ =>
        if Z.ltb visible (Z.of_nat (length input)) then Some msg_too_many
        else first_pair_violation (numel input_0) outputOverInput
               (scalarType input_0) [] (combine input output)
    end.

Definition raised (v : option string) : outcome unit :=
  match v with
  | Some m => Throw (runtime_error m)
  | None => Ok tt
  end.

(** The ten messages of [tensorCheckHelper], in the order of its checks. *)
Definition validation_messages : list string :=
  [ msg_length_mismatch; msg_zero_inputs; msg_too_many; msg_not_cuda_dense;
    msg_type_mismatch; msg_numel_mismatch; msg_output_numel;
    msg_not_contiguous; msg_duplicate_device; msg_device_mismatch ].

(** The reading in which each check ranges over the whole sequences
    before the next one starts: the first check of the list that some
    buffer violates decides. *)
Definition listed_order_violation (visible : Z) (input output : list Tensor)
    (outputOverInput : Z) : option string :=
  if negb (Nat.eqb (length input) (length output)) then Some msg_length_mismatch
  else
    match input with
    | [] => Some msg_zero_inputs
    | input_0 :: _ =>
        if Z.ltb visible (Z.of_nat (length input)) then Some msg_too_many
        else if negb (forallb dense_on_device (input ++ output)%list)
        then Some msg_not_cuda_dense
        else if negb (forallb (fun t => bool_decide (scalarType t = scalarType input_0))
                        (input ++ output)%list)
        then Some msg_type_mismatch
        else if negb (forallb (fun t => Z.eqb (numel t) (numel input_0)) input)
        then Some msg_numel_mismatch
        else if negb (forallb (fun t => Z.eqb (numel t)
                                          (to_ssize_t (numel input_0 * outputOverInput)))
                        output)
        then Some msg_output_numel
        else if negb (forallb is_contiguous (input ++ output)%list)
        then Some msg_not_contiguous
        else if negb (bool_decide (NoDup (map get_device input)))
        then Some msg_duplicate_device
        else if negb (forallb (fun p => Z.eqb (get_device (fst p)) (get_device (snd p)))
                        (combine input output))
        then Some msg_device_mismatch
        else None
    end.

(** Every check of [tensorCheckHelper] other than the duplicate-device
    one is satisfied. *)
Definition other_checks_pass (this : ProcessGroupNCCL)
    (input output : list Tensor) (outputOverInput : Z) : Prop :=
  length input = length output /\
  Z.of_nat (length input) <= to_size_t (numDevices (thcState_ this)) /\
  exists input_0,
    input !! 0%nat = Some input_0 /\
    Forall
      (fun p => pair_violation (numel input_0) outputOverInput
                  (scalarType input_0) [] (fst p) (snd p) = None)
      (combine input output).

(** ** Classes of logged actions *)

(** The collective primitive calls. *)
Definition collective (a : Action) : bool :=
  match a with
  | NcclAllReduce _ _ _ _ _ _ _ | NcclBcast _ _ _ _ _ _ => true
  | _ => false
  end.

(** Writes to the statics, operations on the lock that protects them, and
    accesses to the rendezvous store. *)
Definition bookkeeping (a : Action) : bool :=
  match a with
  | CounterSet _ | SeqSet _ _ | SeqErase _ | StoreSet _ _ _ | StoreGet _ _
  | Lock pgTrackingLock_ | Unlock pgTrackingLock_ => true
  | _ => false
  end.

(** Everything else: the allocator lock, device, stream and event
    management, communicator set-up. *)
Definition plain (a : Action) : bool := negb (collective a) && negb (bookkeeping a).

(** The group ids handed out, in the order of the log. *)
Definition assigned_ids (l : list Action) : list Z :=
  omap (fun a => match a with CounterSet v => Some v | _ => None end) l.

(** The store keys used, in the order of the log. *)
Definition store_keys (l : list Action) : list string :=
  omap (fun a => match a with
                 | StoreSet _ key _ | StoreGet _ key => Some key
                 | _ => None
                 end) l.

(** Every write to the statics happens while [pgTrackingLock_] is held;
    [held] tells whether it is held at the start of the log. *)
Fixpoint guarded (held : bool) (l : list Action) : bool :=
  match l with
  | [] => true
  | Lock pgTrackingLock_ :: l' => negb held && guarded true l'
  | Unlock pgTrackingLock_ :: l' => held && guarded false l'
  | (CounterSet _ | SeqSet _ _ | SeqErase _) :: l' => held && guarded held l'
  | _ :: l' => guarded held l'
  end.

(** Is the lock held at the end of the log? *)
Definition held_after (held : bool) (l : list Action) : bool :=
  fold_left
    (fun h a => match a with
                | Lock pgTrackingLock_ => true
                | Unlock pgTrackingLock_ => false
                | _ => h
                end) l held.

(** The buffers and count of an all-reduce call. *)
Definition allreduce_call (a : Action) : option (Z * Z * Z) :=
  match a with
  | NcclAllReduce sendbuff recvbuff count _ _ _ _ => Some (sendbuff, recvbuff, count)
  | _ => None
  end.

(** The root of a broadcast call. *)
Definition bcast_root (a : Action) : option Z :=
  match a with
  | NcclBcast _ _ _ root _ _ => Some root
  | _ => None
  end.

(** [calls view c s s']: the log grew from [s] to [s'], and the calls that
    [view] selects in the new part are [c], in this order. *)
Definition calls {X} (view : Action -> option X) (c : list X) (s s' : Sys) : Prop :=
  exists l, log s' = (log s ++ l)%list /\ omap view l = c.

(** A logged action is not a broadcast, and if it is an all-reduce, it
    reads and writes the buffer of one of the [tensors]. *)
Definition in_place (tensors : list Tensor) (a : Action) : Prop :=
  match a with
  | NcclAllReduce sendbuff recvbuff _ _ _ _ _ =>
      sendbuff = recvbuff /\ exists t, t ∈ tensors /\ sendbuff = data_ptr t
  | NcclBcast _ _ _ _ _ _ => False
  | _ => True
  end.

(** A logged action is not an all-reduce, and if it is a broadcast, its
    root is [root]. *)
Definition rooted_at (root : Z) (a : Action) : Prop :=
  match a with
  | NcclBcast _ _ _ r _ _ => r = root
  | NcclAllReduce _ _ _ _ _ _ _ => False
  | _ => True
  end.

(** A process group of rank 0 as the constructor leaves it, and the state
    after constructing it first. *)
Definition sample_root_group : ProcessGroupNCCL :=
  {| rank_ := 0; size_ := 2; store_ := 0; thcState_ := {| numDevices := 8 |};
     processGroupID_ := "0";
     devNCCLCommMap_ := ∅; ncclStreams_ := ∅; ncclEvents_ := ∅ |}.

Definition sample_sys : Sys :=
  snd (ProcessGroupNCCL_ctor env_ready 0 0 2 Sys_init).

(** ** The process as a transition system

    The atomic state changes the functions of this file are made of.  A
    collective, a construction or a destruction is a sequence of them. *)

(** The fields of a process group that never change after construction. *)
Definition ident (o : ProcessGroupNCCL) : Z * Z * nat * THCState * string :=
  (rank_ o, size_ o, store_ o, thcState_ o, processGroupID_ o).

Inductive Step : Sys -> Sys -> Prop :=
| step_log s a :
    bookkeeping a = false ->
    Step s (with_log s (log s ++ [a]))
| step_cache s this o comms streams events :
    objects s !! this = Some o ->
    comms !! "" = None ->
    Step s (with_objects s
              (<[this := with_caches o comms streams events]> (objects s)))
| step_construct s this o :
    let c := to_ssize_t (processGroupCounter_ s + 1) in
    processGroupID_ o = to_string c ->
    devNCCLCommMap_ o = ∅ ->
    Step s {| pgUniqueNCCLIDCnt_ := <[c := -1]> (pgUniqueNCCLIDCnt_ s);
              processGroupCounter_ := c;
              stores := stores s;
              objects := <[this := o]> (objects s);
              log := log s ++ [Lock pgTrackingLock_; CounterSet c; SeqSet c (-1);
                               Unlock pgTrackingLock_] |}
| step_destroy s this o k :
    objects s !! this = Some o ->
    stoull (processGroupID_ o) = Some k ->
    Step s {| pgUniqueNCCLIDCnt_ := delete (to_ssize_t k) (pgUniqueNCCLIDCnt_ s);
              processGroupCounter_ := processGroupCounter_ s;
              stores := stores s;
              objects := delete this (objects s);
              log := log s ++ [Lock pgTrackingLock_; SeqErase (to_ssize_t k);
                               Unlock pgTrackingLock_] |}
| step_lock_only s :
    Step s (with_log s (log s ++ [Lock pgTrackingLock_; Unlock pgTrackingLock_]))
| step_rendezvous s this o k (publish : option (list Byte.byte)) :
    objects s !! this = Some o ->
    stoull (processGroupID_ o) = Some k ->
    let g := to_ssize_t k in
    let v := to_ssize_t (default 0 (pgUniqueNCCLIDCnt_ s !! g) + 1) in
    let key := processGroupID_ o +:+ ("_" +:+ to_string v) in
    Step s {| pgUniqueNCCLIDCnt_ := <[g := v]> (pgUniqueNCCLIDCnt_ s);
              processGroupCounter_ := processGroupCounter_ s;
              stores := match publish with
                        | Some bytes => <[(store_ o, key) := bytes]> (stores s)
                        | None => stores s
                        end;
              objects := objects s;
              log := log s ++ [Lock pgTrackingLock_; SeqSet g v; Unlock pgTrackingLock_;
                               match publish with
                               | Some bytes => StoreSet (store_ o) key bytes
                               | None => StoreGet (store_ o) key
                               end] |}
| step_peer s st key val :
    Step s (with_stores s (<[(st, key) := val]> (stores s))).

(** No live process group caches anything under the empty key. *)
Definition cache_ok (s : Sys) : Prop :=
  forall this o, objects s !! this = Some o -> devNCCLCommMap_ o !! "" = None.

(** [*this] is alive, with the given constant fields and a cache without
    the empty key. *)
Definition alive (this : nat) (fields : Z * Z * nat * THCState * string)
    (s : Sys) : Prop :=
  exists o, objects s !! this = Some o /\ ident o = fields /\
            devNCCLCommMap_ o !! "" = None.

(** A process of rank 1: it constructs its group, the rank-0 process
    publishes the token of the first rendezvous, and the all-reduce over
    devices 0 and 1 retrieves it. *)
Definition sample_token : list Byte.byte := repeat Byte.x2a NCCL_UNIQUE_ID_BYTES.

Definition sample_peer_history : list Event :=
  [ Call (Construct 0 1 2);
    PeerSet 0 "0_0" sample_token;
    Call (Allreduce 0 [sample_tensor 0; sample_tensor 1] {| reduceOp := SUM |}) ].

(** What [broadcastUniqueNCCLID] does, in closed form. *)
Definition rendezvous_key (o : ProcessGroupNCCL) (s : Sys) (k : Z) : string :=
  processGroupID_ o
  +:+ ("_" +:+ to_string (to_ssize_t (default 0 (pgUniqueNCCLIDCnt_ s !! to_ssize_t k) + 1))).

Definition after_rendezvous (o : ProcessGroupNCCL) (s : Sys) (k : Z)
    (publish : option (list Byte.byte)) : Sys :=
  let g := to_ssize_t k in
  let v := to_ssize_t (default 0 (pgUniqueNCCLIDCnt_ s !! g) + 1) in
  {| pgUniqueNCCLIDCnt_ := <[g := v]> (pgUniqueNCCLIDCnt_ s);
     processGroupCounter_ := processGroupCounter_ s;
     stores := match publish with
               | Some bytes => <[(store_ o, rendezvous_key o s k) := bytes]> (stores s)
               | None => stores s
               end;
     objects := objects s;
     log := log s ++ [Lock pgTrackingLock_; SeqSet g v; Unlock pgTrackingLock_;
                      match publish with
                      | Some bytes => StoreSet (store_ o) (rendezvous_key o s k) bytes
                      | None => StoreGet (store_ o) (rendezvous_key o s k)
                      end] |}.

(** ** Invariants of the transition system *)

Definition store_key (g v : Z) : string := to_string g +:+ ("_" +:+ to_string v).

Definition no_overflow (s : Sys) : Prop := Z.of_nat (length (log s)) < 2 ^ 63.

Definition counter_bounded (s : Sys) : Prop :=
  -1 <= processGroupCounter_ s < Z.of_nat (length (log s)).

Definition live_tracked (s : Sys) : Prop :=
  forall this o,
    objects s !! this = Some o ->
    exists g,
      0 <= g <= processGroupCounter_ s /\
      processGroupID_ o = to_string g /\
      exists v, pgUniqueNCCLIDCnt_ s !! g = Some v /\
                -1 <= v < Z.of_nat (length (log s)).

Definition ids_unique (s : Sys) : Prop :=
  forall t1 t2 o1 o2,
    objects s !! t1 = Some o1 -> objects s !! t2 = Some o2 ->
    processGroupID_ o1 = processGroupID_ o2 -> t1 = t2.

Definition keys_tracked (s : Sys) : Prop :=
  forall key,
    key ∈ store_keys (log s) ->
    exists g v,
      key = store_key g v /\
      0 <= g <= processGroupCounter_ s /\
      forall v', pgUniqueNCCLIDCnt_ s !! g = Some v' -> v <= v'.

Definition ids_increasing (s : Sys) : Prop :=
  StronglySorted Z.lt (assigned_ids (log s)) /\
  Forall (fun g => 0 <= g <= processGroupCounter_ s) (assigned_ids (log s)).

Definition writes_guarded (s : Sys) : Prop :=
  guarded false (log s) = true /\ held_after false (log s) = false.

Record Inv (s : Sys) : Prop := {
  inv_counter : counter_bounded s;
  inv_live : live_tracked s;
  inv_unique : ids_unique s;
  inv_keys : keys_tracked s;
  inv_fresh : NoDup (store_keys (log s));
  inv_ids : ids_increasing s;
  inv_guard : writes_guarded s
}.

(** A process of rank 1 that constructs a group, issues an all-reduce that
    stays blocked in the rendezvous (nobody published), constructs a second
    group, destroys the first and constructs a third. *)
Definition sample_lifecycle : list Event :=
  [ Call (Construct 0 1 2);
    Call (Allreduce 0 [sample_tensor 0; sample_tensor 1] {| reduceOp := SUM |});
    Call (Construct 0 1 2); Call (Destroy 0); Call (Construct 1 1 2) ].

(** What a poll over a snapshot of event states answers: decided by the
    first event that is not ready. *)
Fixpoint poll (states : list cudaError_t) : outcome bool :=
  match states with
  | [] => Ok true
  | cudaSuccess :: states' => poll states'
  | cudaErrorNotReady :: _ => Ok false
  | cudaErrorOther code :: _ => Throw (cuda_failure (cudaErrorOther code))
  end.

(** The state of an event in a snapshot of the device. *)
Definition event_state (state : Action -> cudaError_t) (e : CUDAEvent) : cudaError_t :=
  state (EventQuery (getEvent e)).

(** What the runtime answers to a poll issued when the log is [l]: for
    each device and its event, in order, the answer to selecting the
    device and the answer to the query of the event that follows it. *)
Fixpoint poll_answers (env : Env) (l : list Action) (devices : list Z)
    (events : list CUDAEvent) : list (cudaError_t * cudaError_t) :=
  match devices, events with
  | d :: devices', e :: events' =>
      (cuda_status env l (SetDevice d),
       cuda_status env (l ++ [SetDevice d]) (EventQuery (getEvent e)))
      :: poll_answers env (l ++ [SetDevice d; EventQuery (getEvent e)]) devices' events'
  | _, _ => []
  end.

(** What a poll answers, given the answers of the runtime: it is decided by
    the first call that did not succeed.  A device that cannot be selected
    and a query that failed raise the code; a pending event gives false. *)
Fixpoint poll_selected (answers : list (cudaError_t * cudaError_t)) : outcome bool :=
  match answers with
  | [] => Ok true
  | (selected, queried) :: answers' =>
      if is_cudaSuccess selected then
        match queried with
        | cudaSuccess => poll_selected answers'
        | cudaErrorNotReady => Ok false
        | cudaErrorOther code => Throw (cuda_failure (cudaErrorOther code))
        end
      else Throw (cuda_failure selected)
  end.

(** What the loop of [getKeyFromDevices] appends after the first device. *)
Fixpoint key_tail (devices : list Z) : string :=
  match devices with
  | [] => ""
  | device :: devices' => "," +:+ (to_string device +:+ key_tail devices')
  end.

(** ** A program logic for the monad

    [triple Pre R m Q]: from a state satisfying [Pre], running [m] ends in
    a state related to the first by [R] that satisfies [Pre] again, and a
    returned value satisfies [Q]. *)

Definition triple (Pre : Sys -> Prop) (R : Sys -> Sys -> Prop) {A}
    (m : M A) (Q : A -> Prop) : Prop :=
  forall s, Pre s ->
    R s (snd (m s)) /\ Pre (snd (m s)) /\ forall a, fst (m s) = Ok a -> Q a.

Definition any {A} : A -> Prop := fun _ => True.

(** A state change that keeps [Pre] and is allowed by [R]. *)
Definition step_ok (Pre : Sys -> Prop) (R : Sys -> Sys -> Prop) (f : Sys -> Sys) : Prop :=
  forall s, Pre s -> R s (f s) /\ Pre (f s).

Definition logs_ok (Pre : Sys -> Prop) (R : Sys -> Sys -> Prop) (a : Action) : Prop :=
  step_ok Pre R (fun s => with_log s (log s ++ [a])).

(** [grows P s s']: the log of [s'] extends the log of [s] by actions
    that all satisfy [P]. *)
Definition grows (P : Action -> Prop) (s s' : Sys) : Prop :=
  exists l, log s' = (log s ++ l)%list /\ Forall P l.

(** ** Valid buffer sequences

    What [tensorCheckHelper] demands of a pair of buffers, relative to the
    first input buffer, and of the two sequences as a whole. *)

Definition pair_valid (input_0 : Tensor) (outputOverInput : Z) (i o : Tensor) : Prop :=
  is_cuda i = true /\ is_sparse i = false /\
  is_cuda o = true /\ is_sparse o = false /\
  scalarType i = scalarType input_0 /\ scalarType o = scalarType input_0 /\
  numel i = numel input_0 /\
  numel o = to_ssize_t (numel input_0 * outputOverInput) /\
  is_contiguous i = true /\ is_contiguous o = true /\
  get_device i = get_device o.

Definition valid_buffers (visible : Z) (input output : list Tensor)
    (outputOverInput : Z) : Prop :=
  exists input_0,
    input !! 0%nat = Some input_0 /\
    Z.of_nat (length input) <= visible /\
    Forall2 (pair_valid input_0 outputOverInput) input output /\
    NoDup (map get_device input).

(** ** Views of the log used by the further properties *)

(** The stream and event of a stream-wait call. *)
Definition stream_wait (a : Action) : option (cudaStream_t * nat) :=
  match a with
  | StreamWaitEvent stream ev => Some (stream, ev)
  | _ => None
  end.

(** What [synchronize] may log: initialisation, device selection, and
    waits enqueued on a THC stream. *)
Definition enqueue_only (a : Action) : Prop :=
  match a with
  | LazyInitCUDA | SetDevice _ | StreamWaitEvent (ThcStream _) _ => True
  | _ => False
  end.

(** The process of a peer of rank 1: one group, and a store that holds what
    the rank-0 process of [sample_sys] published for its first rendezvous. *)
Definition sample_peer_sys : Sys :=
  with_stores (snd (ProcessGroupNCCL_ctor env_ready 0 1 2 Sys_init))
    (stores (snd (broadcastUniqueNCCLID 0 {| internal := [Byte.x2a] |} sample_sys))).

(** A runtime in which closing the batching bracket fails. *)
Definition env_failing_group_end : Env :=
  {| cuda_status := fun _ _ => cudaSuccess;
     nccl_status := fun _ a =>
       match a with NcclGroupEnd => ncclFailure 1 | _ => ncclSuccess end;
     fresh_unique_id := fun _ => {| internal := [Byte.x2a] |};
     visible_devices := fun _ => 8 |}.

(** ** The object heap across a call *)

(** The three caches of a group hold the same keys, and under the key of
    a device list they hold vectors of that list's length. *)
Definition aligned (o : ProcessGroupNCCL) : Prop :=
  forall key,
    match devNCCLCommMap_ o !! key, ncclStreams_ o !! key, ncclEvents_ o !! key with
    | Some comms, Some streams, Some events =>
        forall devices, key = getKeyFromDevices devices ->
          length comms = length devices /\
          length streams = length devices /\
          length events = length devices
    | None, None, None => True
    | _, _, _ => False
    end.

Definition all_aligned (h : gmap nat ProcessGroupNCCL) : Prop :=
  forall this o, h !! this = Some o -> aligned o.

(** [o'] is [o] with possibly more cache entries: the fields set by the
    constructor are the same and no cache entry was dropped or replaced. *)
Definition extends (o o' : ProcessGroupNCCL) : Prop :=
  rank_ o' = rank_ o /\ size_ o' = size_ o /\ store_ o' = store_ o /\
  thcState_ o' = thcState_ o /\ processGroupID_ o' = processGroupID_ o /\
  devNCCLCommMap_ o ⊆ devNCCLCommMap_ o' /\
  ncclStreams_ o ⊆ ncclStreams_ o' /\
  ncclEvents_ o ⊆ ncclEvents_ o'.

(** [benign H Ex m Q]: from a state whose objects satisfy [H], the
    computation [m] leaves the objects alone, has no undefined behaviour,
    throws only exceptions in [Ex] and returns only values in [Q]. *)
Definition benign (H : gmap nat ProcessGroupNCCL -> Prop) (Ex : exn -> Prop)
    {A} (m : M A) (Q : A -> Prop) : Prop :=
  forall s, H (objects s) ->
    objects (snd (m s)) = objects s /\
    match fst (m s) with
    | Ok a => Q a
    | Throw e => Ex e
    | Blocked => True
    | Undefined => False
    end.

(** [hoare h0 Ex m Q I]: from the objects [h0], the computation [m] has no
    undefined behaviour; it returns values and objects in [Q], throws only
    exceptions in [Ex], and leaves objects in [I] when it does not
    return. *)
Definition hoare (h0 : gmap nat ProcessGroupNCCL) (Ex : exn -> Prop)
    {A} (m : M A) (Q : A -> gmap nat ProcessGroupNCCL -> Prop)
    (I : gmap nat ProcessGroupNCCL -> Prop) : Prop :=
  forall s, objects s = h0 ->
    match fst (m s) with
    | Ok a => Q a (objects (snd (m s)))
    | Throw e => Ex e /\ I (objects (snd (m s)))
    | Blocked => I (objects (snd (m s)))
    | Undefined => False
    end.

(** The exceptions a collective can raise: a validation message, an
    unsupported element type, a malformed token or group id, or a runtime
    call that did not succeed. *)
Definition collective_error (e : exn) : Prop :=
  match e with
  | runtime_error m =>
      m ∈ validation_messages \/ m = msg_unsupported_type \/ m = msg_bad_id_length
  | invalid_argument m => m = "stoull"
  | cuda_failure rc => is_cudaSuccess rc = false
  | nccl_failure rc => rc <> ncclSuccess
  end.

(** The group an operation is applied to. *)
Definition target (op : Op) : option nat :=
  match op with
  | Construct _ _ _ => None
  | Destroy this | Allreduce this _ _ | Broadcast this _ _ => Some this
  end.

(** The operation is applied to a group that is not alive. *)
Definition dangling (op : Op) (s : Sys) : Prop :=
  exists this, target op = Some this /\ objects s !! this = None.

(** ** The order of runtime calls

    Where a call stands with respect to the allocator's mutex and to the
    NCCL batching bracket. *)
Record Phase := { mutex_held : bool; group_open : bool }.

Definition idle : Phase := {| mutex_held := false; group_open := false |}.

(** The phase after an action, when the action is allowed in the phase: the
    mutex is not taken twice nor released when free, brackets do not nest,
    communicators are created inside a bracket, a collective is issued
    inside a bracket with the mutex held, and an event is recorded on an
    NCCL stream only outside a bracket. *)
Definition phase_step (p : Phase) (a : Action) : option Phase :=
  match a with
  | Lock cudaFreeMutex =>
      if mutex_held p then None
      else Some {| mutex_held := true; group_open := group_open p |}
  | Unlock cudaFreeMutex =>
      if mutex_held p
      then Some {| mutex_held := false; group_open := group_open p |}
      else None
  | NcclGroupStart =>
      if group_open p then None
      else Some {| mutex_held := mutex_held p; group_open := true |}
  | NcclGroupEnd =>
      if group_open p
      then Some {| mutex_held := mutex_held p; group_open := false |}
      else None
  | NcclCommCreate _ _ _ => if group_open p then Some p else None
  | NcclAllReduce _ _ _ _ _ _ _ | NcclBcast _ _ _ _ _ _ =>
      if mutex_held p && group_open p then Some p else None
  | EventRecord _ (NcclStream _) => if group_open p then None else Some p
  | _ => Some p
  end.

(** [accepts delta p l]: the state an automaton over actions reaches on
    [l] from [p], when it accepts every action of [l]. *)
Fixpoint accepts {St} (delta : St -> Action -> option St) (p : St)
    (l : list Action) : option St :=
  match l with
  | [] => Some p
  | a :: l' =>
      match delta p a with
      | Some q => accepts delta q l'
      | None => None
      end
  end.

(** [traced delta F p m q]: read from state [p], the automaton accepts what
    [m] logs; it ends in [q] when [m] returns; when [m] throws [e] it ends
    in a state of [F (Some e)], and in a state of [F None] when [m] blocks
    or is undefined. *)
Definition traced {St} (delta : St -> Action -> option St)
    (F : option exn -> St -> Prop)
    (p : St) {A} (m : M A) (q : St) : Prop :=
  forall s,
    exists l,
      log (snd (m s)) = (log s ++ l)%list /\
      match fst (m s) with
      | Ok _ => accepts delta p l = Some q
      | Throw e => exists r, accepts delta p l = Some r /\ F (Some e) r
      | Blocked | Undefined => exists r, accepts delta p l = Some r /\ F None r
      end.

(** Where the bracket stands when a call ends with a given exception: the
    unsupported-type error is raised inside a bracket, the token-length
    and group-id errors outside. *)
Definition bracket_at_exit (o : option exn) (p : Phase) : Prop :=
  match o with
  | Some (runtime_error m) =>
      if String.eqb m msg_unsupported_type then group_open p = true
      else if String.eqb m msg_bad_id_length then group_open p = false
      else True
  | Some (invalid_argument _) => group_open p = false
  | _ => True
  end.

(** The phase in which an operation may end without returning, and the
    phase in which the batch of a collective may. *)
Definition exit_phase (o : option exn) (p : Phase) : Prop :=
  mutex_held p = false /\ bracket_at_exit o p.

Definition batch_phase (o : option exn) (p : Phase) : Prop :=
  mutex_held p = true /\ bracket_at_exit o p.

(** The automaton with one state that accepts the actions in [ok]. *)
Definition only (ok : Action -> bool) (p : unit) (a : Action) : option unit :=
  if ok a then Some p else None.

(** What a collective logs once its communicators exist: device selection,
    event and stream synchronisation, the allocator's mutex, the batching
    bracket and the collective calls.  Not: store accesses, writes to the
    statics, or the creation of identifiers, communicators and streams. *)
Definition launch (a : Action) : bool :=
  match a with
  | SetDevice _ | EventCreate | EventRecord _ _ | StreamWaitEvent _ _
  | Lock cudaFreeMutex | Unlock cudaFreeMutex
  | NcclGroupStart | NcclGroupEnd
  | NcclAllReduce _ _ _ _ _ _ _ | NcclBcast _ _ _ _ _ _ => true
  | _ => false
  end.

(** ** Operations on streams *)

Inductive StreamOp :=
| Records (ev : nat) (stream : cudaStream_t)   (* the event is recorded on the stream *)
| Waits (stream : cudaStream_t) (ev : nat)     (* the stream waits for the event *)
| Runs (stream : cudaStream_t).                (* a collective is enqueued on the stream *)

Definition stream_op (a : Action) : option StreamOp :=
  match a with
  | EventRecord ev stream => Some (Records ev stream)
  | StreamWaitEvent stream ev => Some (Waits stream ev)
  | NcclAllReduce _ _ _ _ _ _ stream | NcclBcast _ _ _ _ _ stream => Some (Runs stream)
  | _ => None
  end.

Definition stream_free (a : Action) : bool :=
  match stream_op a with
  | None => true
  | Some _ => false
  end.

(** What [syncStreams] does to the streams: per device, the cached event is
    recorded on the device's THC stream and the NCCL stream waits for it. *)
Definition sync_ops (devices : list Z) (events : list CUDAEvent)
    (streams : list CUDAStream) : list StreamOp :=
  concat
    (zip_with
       (fun d p => [ Records (getEvent (fst p)) (ThcStream d);
                     Waits (getStream (snd p)) (getEvent (fst p)) ])
       devices (zip events streams)).

(** A collective of the sample process, and the work it returned. *)
Definition sample_tensors : list Tensor := [sample_tensor 0; sample_tensor 1].

Definition sample_collective : outcome WorkNCCL * Sys :=
  allreduce env_ready 0 sample_tensors {| reduceOp := SUM |} sample_sys.

Definition sample_work_of (r : outcome WorkNCCL * Sys) : WorkNCCL :=
  match fst r with
  | Ok work => work
  | _ => {| devices_ := []; cudaEvents_ := [] |}
  end.

(** What the sample process does next: an all-reduce over devices 0 and 1;
    and later the construction of a second group, the same all-reduce and
    a broadcast over device 1. *)
Definition sample_first_history : list Event :=
  [ Call (Allreduce 0 sample_tensors {| reduceOp := SUM |}) ].

Definition sample_later_history : list Event :=
  [ Call (Construct 0 0 2);
    Call (Allreduce 0 sample_tensors {| reduceOp := SUM |});
    Call (Broadcast 0 [sample_tensor 1] {| rootRank := 0; rootTensor := 0 |}) ].

(** [undisturbed this id s s']: from [s] to [s'], nothing changed but what
    belongs to the group at [this], whose id is [id]: the group counter is
    the same, and so are the other objects, the sequence numbers of the
    other groups, and the store under every key that is not of the form
    [id_n]. *)
Definition undisturbed (this : nat) (id : string) (s s' : Sys) : Prop :=
  processGroupCounter_ s' = processGroupCounter_ s /\
  (forall t, t <> this -> objects s' !! t = objects s !! t) /\
  (forall g, (forall k, stoull id = Some k -> g <> to_ssize_t k) ->
             pgUniqueNCCLIDCnt_ s' !! g = pgUniqueNCCLIDCnt_ s !! g) /\
  (forall st key, (forall v, key <> id +:+ ("_" +:+ to_string v)) ->
                  stores s' !! (st, key) = stores s !! (st, key)).

(** ** Polling *)

(** The event of a query. *)
Definition event_query (a : Action) : option nat :=
  match a with
  | EventQuery ev => Some ev
  | _ => None
  end.

(** What [finishedGPUExecution] may log: device selection and queries. *)
Definition poll_only (a : Action) : Prop :=
  match a with
  | SetDevice _ | EventQuery _ => True
  | _ => False
  end.

(** ** The sequence registry and the live groups *)

(** Every entry of the registry belongs to a live group. *)
Definition registry_live (s : Sys) : Prop :=
  forall g,
    is_Some (pgUniqueNCCLIDCnt_ s !! g) ->
    exists this o, objects s !! this = Some o /\ processGroupID_ o = to_string g.

(** Addresses are log positions of the past. *)
Definition addresses_bounded (s : Sys) : Prop :=
  forall this o, objects s !! this = Some o -> (this < length (log s))%nat.

(** From [s] to [s'] no group was replaced: a group that is alive in [s']
    at an address of the past of [s] was alive in [s], and differs from
    what it was only by added cache entries. *)
Definition persists (s s' : Sys) : Prop :=
  (length (log s) <= length (log s'))%nat /\
  forall this o',
    (this < length (log s))%nat -> objects s' !! this = Some o' ->
    exists o, objects s !! this = Some o /\ extends o o'.

(** ** Computations that return *)

(** [sure H m Q]: from a state whose objects satisfy [H], the computation
    [m] returns a value in [Q] and leaves the objects alone. *)
Definition sure (H : gmap nat ProcessGroupNCCL -> Prop) {A} (m : M A)
    (Q : A -> Prop) : Prop :=
  forall s, H (objects s) ->
    exists a, fst (m s) = Ok a /\ Q a /\ objects (snd (m s)) = objects s.

(** A runtime in which every call succeeds. *)
Definition cooperative (env : Env) : Prop :=
  (forall l a, cuda_status env l a = cudaSuccess) /\
  (forall l a, nccl_status env l a = ncclSuccess).

Definition nobody (e : exn) : Prop := False.
Definition nowhere (h : gmap nat ProcessGroupNCCL) : Prop := False.

(** A buffer that passes validation but has an element type NCCL does not
    support. *)
Definition sample_short_tensor : Tensor :=
  {| data_ptr := 4096; numel := 4; scalarType := kShort;
     get_device := 0; is_contiguous := true; is_cuda := true;
     is_sparse := false |}.

End c10d.

(** * Properties *)

Module CIntFacts.

Import CInt.

Lemma to_int_id z : int_range z -> to_int z = z.
Proof.
  unfold int_range, to_int. intros H.
  rewrite Z.mod_small by lia. lia.
Qed.

Lemma to_ssize_t_id z : ssize_range z -> to_ssize_t z = z.
Proof.
  unfold ssize_range, to_ssize_t. intros H.
  rewrite Z.mod_small by lia. lia.
Qed.

Lemma to_int_to_size_t z : to_int (to_size_t z) = to_int z.
Proof.
  unfold to_int, to_size_t.
  f_equal.
  rewrite (Z.add_mod (z mod 2 ^ 64)) by lia.
  change (2 ^ 64) with (2 ^ 32 * 2 ^ 32).
  rewrite Z.rem_mul_r by lia.
  rewrite Z.mul_comm, Z.mod_add by lia.
  rewrite Z.mod_mod by lia.
  rewrite <- Z.add_mod by lia. reflexivity.
Qed.

Lemma to_size_t_mul_l a b : to_size_t (to_size_t a * b) = to_size_t (a * b).
Proof. unfold to_size_t. now rewrite Z.mul_mod_idemp_l by lia. Qed.

Lemma to_size_t_add_l a b : to_size_t (to_size_t a + b) = to_size_t (a + b).
Proof. unfold to_size_t. now rewrite Z.add_mod_idemp_l by lia. Qed.

Lemma to_size_t_add_r a b : to_size_t (a + to_size_t b) = to_size_t (a + b).
Proof. unfold to_size_t. now rewrite Z.add_mod_idemp_r by lia. Qed.

(** [int] arithmetic carried out in [size_t] and converted back to [int]
    agrees with the same arithmetic on the low 32 bits. *)
Lemma participant_count_wrap s n :
  to_int (to_size_t (to_size_t s * n)) = to_int (s * n).
Proof. now rewrite to_size_t_mul_l, to_int_to_size_t. Qed.

Lemma participant_rank_wrap r n i :
  to_int (to_size_t (to_size_t (to_size_t r * n) + i)) = to_int (r * n + i).
Proof.
  now rewrite to_size_t_add_l, to_int_to_size_t, <- to_int_to_size_t,
    <- to_size_t_add_l, to_size_t_mul_l, to_size_t_add_l, to_int_to_size_t.
Qed.

Lemma root_wrap r n t :
  to_int (to_size_t (to_size_t (to_size_t r * n) + to_size_t t)) = to_int (r * n + t).
Proof.
  rewrite to_size_t_add_r. apply participant_rank_wrap.
Qed.

End CIntFacts.

Module TextFacts.

Import Text.

Lemma uint_chars c d :
  numeric_char c = false -> occurs c (NilEmpty.string_of_uint d) = false.
Proof.
  intros Hc.
  induction d; cbn [occurs NilEmpty.string_of_uint]; trivial;
    (match goal with
     | |- context [Ascii.eqb ?a c] =>
         destruct (Ascii.eqb_spec a c) as [<- | _]; [ discriminate Hc | exact IHd ]
     end).
Qed.

Lemma to_string_chars c z :
  numeric_char c = false -> occurs c (to_string z) = false.
Proof.
  intros Hc. unfold to_string.
  assert (U : forall d, occurs c (NilZero.string_of_uint d) = false).
  { intros d. destruct d; try apply (uint_chars c _ Hc).
    cbn [occurs NilZero.string_of_uint]. destruct (Ascii.eqb_spec "0"%char c) as [<- | _];
      [ discriminate Hc | reflexivity ]. }
  destruct (Z.to_int z) as [d | d];
    cbn [occurs NilZero.string_of_int]; [ apply U | ].
  destruct (Ascii.eqb_spec "-"%char c) as [<- | _];
    [ discriminate Hc | apply U ].
Qed.

Lemma to_string_inj a b : to_string a = to_string b -> a = b.
Proof.
  unfold to_string. intros H.
  apply DecimalZ.to_int_inj.
  assert (N : forall z, Z.to_int z <> Pos Nil /\ Z.to_int z <> Neg Nil).
  { intros [ | p | p ]; simpl; split; try discriminate;
      intros [= E]; revert E; apply DecimalPos.Unsigned.to_uint_nonnil. }
  pose proof (NilZero.isi (Z.to_int a) (proj1 (N a)) (proj2 (N a))) as Ha.
  pose proof (NilZero.isi (Z.to_int b) (proj1 (N b)) (proj2 (N b))) as Hb.
  rewrite H in Ha. congruence.
Qed.

Lemma to_string_nonempty z : is_empty (to_string z) = false.
Proof.
  unfold to_string.
  destruct (Z.to_int z) as [d | d]; simpl; trivial.
  destruct d; reflexivity.
Qed.

(** Cutting at the first occurrence of a separator is unambiguous. *)
Lemma split_at_sep c s1 s2 r1 r2 :
  occurs c s1 = false -> occurs c s2 = false ->
  s1 +:+ String c r1 = s2 +:+ String c r2 -> s1 = s2 /\ r1 = r2.
Proof.
  revert s2. induction s1 as [ | a s1 IH ]; intros [ | b s2 ]; simpl.
  - intros _ _ [= ->]. split; reflexivity.
  - destruct (Ascii.eqb_spec b c) as [-> | N]; [ discriminate | ].
    intros _ _ [= E _]. congruence.
  - destruct (Ascii.eqb_spec a c) as [-> | N]; [ discriminate | ].
    intros _ _ [= E _]. congruence.
  - destruct (Ascii.eqb_spec a c) as [-> | Na]; [ discriminate | ].
    destruct (Ascii.eqb_spec b c) as [-> | Nb]; [ discriminate | ].
    intros H1 H2 [= -> E].
    destruct (IH _ H1 H2 E) as [-> ->]. split; reflexivity.
Qed.

Lemma occurs_app c s t :
  occurs c (s +:+ t) = occurs c s || occurs c t.
Proof.
  induction s as [ | a s IH ]; simpl; trivial.
  destruct (Ascii.eqb a c); simpl; auto.
Qed.

Lemma is_empty_app s t : is_empty (s +:+ t) = is_empty s && is_empty t.
Proof. destruct s; reflexivity. Qed.

Lemma append_nil_r s : s +:+ "" = s.
Proof. induction s; simpl; congruence. Qed.

Lemma append_assoc s t u : (s +:+ t) +:+ u = s +:+ (t +:+ u).
Proof. induction s; simpl; congruence. Qed.

(** [stoull] reads back what [to_string] printed, for every value of the
    unsigned 64-bit range. *)
Lemma stoull_to_string z :
  0 <= z < 2 ^ 64 -> stoull (to_string z) = Some z.
Proof.
  intros Hz. unfold stoull, to_string.
  destruct z as [ | p | p ]; [ reflexivity | | lia ].
  simpl Z.to_int. simpl NilZero.string_of_int.
  rewrite NilZero.usu by apply DecimalPos.Unsigned.to_uint_nonnil.
  unfold Z.of_uint. rewrite DecimalPos.Unsigned.of_to.
  change (Z.of_N (N.pos p)) with (Z.pos p).
  destruct (Z.ltb_spec (Z.pos p) (2 ^ 64)); [ reflexivity | lia ].
Qed.

End TextFacts.

Module c10d_properties.

Import CInt Text c10d CIntFacts TextFacts.
Local Open Scope monad_scope.


(** *** The device-set key *)

Lemma key_fold_nonempty devices acc :
  is_empty acc = false ->
  fold_left
    (fun deviceList device =>
       if is_empty deviceList then to_string device
       else deviceList +:+ ("," +:+ to_string device))
    devices acc = acc +:+ key_tail devices.
Proof.
  revert acc. induction devices as [ | d ds IH ]; intros acc Hacc; simpl.
  - now rewrite append_nil_r.
  - rewrite Hacc. rewrite IH.
    + now rewrite !append_assoc.
    + rewrite is_empty_app, Hacc. reflexivity.
Qed.

Lemma getKeyFromDevices_cons d ds :
  getKeyFromDevices (d :: ds) = to_string d +:+ key_tail ds.
Proof.
  unfold getKeyFromDevices. simpl.
  apply key_fold_nonempty, to_string_nonempty.
Qed.

Lemma getKeyFromDevices_nonempty d ds :
  is_empty (getKeyFromDevices (d :: ds)) = false.
Proof.
  rewrite getKeyFromDevices_cons, is_empty_app, to_string_nonempty.
  reflexivity.
Qed.

Lemma getKeyFromDevices_inj l1 l2 :
  getKeyFromDevices l1 = getKeyFromDevices l2 -> l1 = l2.
Proof.
  assert (comma : forall z, occurs "," (to_string z) = false)
    by (intros z; now apply to_string_chars).
  destruct l1 as [ | a l1 ], l2 as [ | b l2 ]; trivial.
  - intros H. pose proof (getKeyFromDevices_nonempty b l2) as N.
    rewrite <- H in N. discriminate N.
  - intros H. pose proof (getKeyFromDevices_nonempty a l1) as N.
    rewrite H in N. discriminate N.
  - rewrite !getKeyFromDevices_cons.
    revert a b l2.
    induction l1 as [ | x l1 IH ]; intros a b [ | y l2 ]; simpl key_tail.
    + rewrite !append_nil_r. intros H%to_string_inj. now subst.
    + rewrite append_nil_r. intros H.
      pose proof (comma a) as N. rewrite H, occurs_app in N.
      simpl in N. rewrite orb_true_r in N. discriminate N.
    + rewrite append_nil_r. intros H.
      pose proof (comma b) as N. rewrite <- H, occurs_app in N.
      simpl in N. rewrite orb_true_r in N. discriminate N.
    + intros H.
      apply split_at_sep in H as [Hab Hrest]; [ | apply comma | apply comma ].
      apply to_string_inj in Hab. apply IH in Hrest.
      congruence.
Qed.

(** C5: the key is a function of the ordered device list, and two
    different ordered device lists (a different order, a different set,
    indices of one or several digits) never get the same key. *)
Theorem getKeyFromDevices_distinct (l1 l2 : list Z) :
  l1 <> l2 -> getKeyFromDevices l1 <> getKeyFromDevices l2.
Proof.
  intros Hne Heq. apply Hne. now apply getKeyFromDevices_inj.
Qed.

Lemma getKeyFromDevices_distinct_witness :
  getKeyFromDevices [1; 12] <> getKeyFromDevices [11; 2].
Proof.
  apply (getKeyFromDevices_distinct [1; 12] [11; 2]).
  discriminate.
Defined.

(** *** The Work handle *)

Lemma finishedGPUExecution_loop_poll env this rest :
  forall i s,
    (i + length rest <= length (cudaEvents_ this))%nat ->
    fst (finishedGPUExecution_loop env this i rest s)
    = poll_selected (poll_answers env (log s) rest (drop i (cudaEvents_ this))).
Proof.
  induction rest as [ | d rest IH ]; intros i s Hlen; simpl in *.
  - reflexivity.
  - destruct (lookup_lt_is_Some_2 (cudaEvents_ this) i) as [e He]; [ lia | ].
    rewrite (drop_S _ _ _ He). simpl.
    unfold bind at 1. unfold setDevice, bind, cuda_call, C10D_CUDA_CHECK.
    destruct (is_cudaSuccess (cuda_status env (log s) (SetDevice d))); simpl;
      [ | reflexivity ].
    unfold idx. rewrite He. simpl.
    destruct (cuda_status env (log s ++ [SetDevice d]) (EventQuery (getEvent e)));
      simpl; try reflexivity.
    rewrite IH by lia. simpl. now rewrite <- app_assoc.
Qed.

Lemma poll_selected_snapshot env (state : Action -> cudaError_t) devices :
  (forall l a, cuda_status env l a = state a) ->
  (forall d, state (SetDevice d) = cudaSuccess) ->
  forall l events,
    (length devices <= length events)%nat ->
    poll_selected (poll_answers env l devices events)
    = poll (map (event_state state) (take (length devices) events)).
Proof.
  intros snapshot selectable.
  induction devices as [ | d devices IH ]; intros l events Hlen; simpl.
  - reflexivity.
  - destruct events as [ | e events ]; simpl in *; [ lia | ].
    rewrite !snapshot, selectable. simpl. unfold event_state at 1.
    destruct (state (EventQuery (getEvent e))); try reflexivity.
    apply IH. lia.
Qed.

(** C1 (as amended): [isCompleted] answers true for every Work, without
    querying any event and without raising.  The poll of the owned
    completion events is [finishedGPUExecution]: for each device in order
    it selects the device and queries the device's event, whatever the
    runtime answers and whatever its answers depend on, and it is decided
    by the first of these calls that does not succeed: a device that
    cannot be selected and a query that failed are raised as errors
    carrying the code, a pending event gives false, and all events ready
    gives true.  In particular, when the runtime answers from one snapshot
    in which every device can be selected, the poll is decided by the
    first event of the snapshot that is not ready. *)
Theorem isCompleted_always_true_poll_is_finishedGPUExecution
    (env : Env) (this : WorkNCCL) (s : Sys) :
  (length (devices_ this) <= length (cudaEvents_ this))%nat ->
  isCompleted this s = (Ok true, s) /\
  fst (finishedGPUExecution env this s)
  = poll_selected (poll_answers env (log s) (devices_ this) (cudaEvents_ this)) /\
  (forall state : Action -> cudaError_t,
      (forall l a, cuda_status env l a = state a) ->
      (forall d, state (SetDevice d) = cudaSuccess) ->
      fst (finishedGPUExecution env this s)
      = poll (map (event_state state)
                (take (length (devices_ this)) (cudaEvents_ this)))).
Proof.
  intros Hlen. split; [ reflexivity | ].
  assert (E : fst (finishedGPUExecution env this s)
              = poll_selected
                  (poll_answers env (log s) (devices_ this) (cudaEvents_ this))).
  { unfold finishedGPUExecution.
    rewrite finishedGPUExecution_loop_poll by (simpl; lia).
    now rewrite drop_0. }
  split; [ exact E | ].
  intros state snapshot selectable. rewrite E.
  now apply poll_selected_snapshot.
Qed.

Lemma isCompleted_always_true_poll_is_finishedGPUExecution_witness :
  isCompleted sample_work Sys_init = (Ok true, Sys_init) /\
  fst (finishedGPUExecution env_pending sample_work Sys_init) = Ok false.
Proof.
  destruct (isCompleted_always_true_poll_is_finishedGPUExecution env_pending
              sample_work Sys_init) as (H1 & H2 & _).
  - simpl. lia.
  - split; [ exact H1 | ]. rewrite H2. reflexivity.
Defined.

(** C1, refuted as stated: the only event of [sample_work] is pending (the
    poll answers false), and [isCompleted] still answers true. *)
Lemma isCompleted_true_while_pending :
  cuda_status env_pending (log Sys_init) (EventQuery 0) = cudaErrorNotReady /\
  fst (finishedGPUExecution env_pending sample_work Sys_init) = Ok false /\
  fst (isCompleted sample_work Sys_init) = Ok true /\
  fst (isCompleted sample_work Sys_init) <> Ok false.
Proof.
  repeat split; try reflexivity. discriminate.
Qed.

(** [wait] returns whenever the runtime accepts the stream waits. *)
Lemma wait_returns_true env this s :
  (forall l a, cuda_status env l a = cudaSuccess) ->
  (length (devices_ this) <= length (cudaEvents_ this))%nat ->
  fst (wait env this s) = Ok true.
Proof.
  intros Hok Hlen.
  unfold wait, synchronize, lazyInitCUDA.
  unfold bind at 1 2 3 4 5. simpl.
  match goal with
  | |- context [for_each ?body 0%nat (devices_ this) ?s1] =>
      assert (G : forall rest i s0,
                 (i + length rest <= length (cudaEvents_ this))%nat ->
                 exists l s', for_each body i rest s0 = (Ok l, s'));
      [ | destruct (G (devices_ this) 0%nat s1 Hlen) as (l & s' & E);
          rewrite E; reflexivity ]
  end.
  induction rest as [ | d rest IH ]; intros i s0 Hi; simpl in *.
  - eexists _, _; reflexivity.
  - destruct (lookup_lt_is_Some_2 (cudaEvents_ this) i) as [e He]; [ lia | ].
    unfold bind at 1 2. unfold setDevice, bind, cuda_call, idx.
    rewrite !Hok, He. simpl. rewrite Hok. simpl.
    edestruct (IH (S i)) as (l & s' & E); [ lia | ].
    unfold bind in E. rewrite E. eexists _, _; reflexivity.
Qed.

(** C8: [wait] runs [synchronize] and, when that returns, answers true (it
    never answers false); the success accessor answers true; the
    exception accessor raises its "not supported" error. *)
Theorem wait_isSuccess_exception (env : Env) (this : WorkNCCL) (s : Sys) :
  wait env this s
  = (match fst (synchronize env this s) with
     | Ok _ => Ok true
     | Throw e => Throw e
     | Blocked => Blocked
     | Undefined => Undefined
     end, snd (synchronize env this s)) /\
  fst (wait env this s) <> Ok false /\
  fst (wait env_ready sample_work s) = Ok true /\
  isSuccess this s = (Ok true, s) /\
  exception this s = (Throw (runtime_error msg_exception_unsupported), s) /\
  exists rest,
    msg_exception_unsupported = "exception() is not supported" +:+ rest.
Proof.
  assert (W : wait env this s
              = (match fst (synchronize env this s) with
                 | Ok _ => Ok true
                 | Throw e => Throw e
                 | Blocked => Blocked
                 | Undefined => Undefined
                 end, snd (synchronize env this s))).
  { unfold wait, bind at 1.
    destruct (synchronize env this s) as [[ [] | e | | ] s']; reflexivity. }
  split; [ exact W | ].
  split.
  { rewrite W. simpl.
    destruct (fst (synchronize env this s)); discriminate. }
  split.
  { apply wait_returns_true; [ reflexivity | simpl; lia ]. }
  split; [ reflexivity | ].
  split; [ reflexivity | ].
  eexists. unfold msg_exception_unsupported. reflexivity.
Qed.

(** *** Buffer validation *)

Lemma tensorCheckHelper_loop_refines output ratio n ty rest :
  forall i seen,
    length rest = length (drop i output) ->
    tensorCheckHelper_loop output ratio n ty (list_to_set seen) i rest
    = raised (first_pair_violation n ratio ty seen (combine rest (drop i output))).
Proof.
  induction rest as [ | x rest IH ]; intros i seen Hlen; simpl in *.
  - reflexivity.
  - destruct (output !! i) as [y | ] eqn:Hy.
    2:{ apply lookup_ge_None_1 in Hy. rewrite drop_ge in Hlen by lia.
        discriminate Hlen. }
    rewrite (drop_S _ _ _ Hy) in *. simpl in *.
    unfold pair_violation, dense_on_device.
    destruct (is_cuda x), (is_sparse x), (is_cuda y), (is_sparse y);
      simpl; try reflexivity.
    destruct (decide (scalarType x = ty)) as [Hx | Hx];
      destruct (decide (scalarType y = ty)) as [Hy' | Hy'];
      rewrite ?(bool_decide_eq_true_2 _ Hx), ?(bool_decide_eq_false_2 _ Hx),
        ?(bool_decide_eq_true_2 _ Hy'), ?(bool_decide_eq_false_2 _ Hy'); simpl;
      try (rewrite (bool_decide_eq_false_2 (scalarType x = ty /\ scalarType y = ty))
             by tauto; reflexivity).
    rewrite (bool_decide_eq_true_2 (scalarType x = ty /\ scalarType y = ty)) by tauto.
    simpl.
    destruct (Z.eqb (numel x) n); simpl; try reflexivity.
    destruct (Z.eqb (numel y) (to_ssize_t (n * ratio))); simpl; try reflexivity.
    destruct (is_contiguous x), (is_contiguous y); simpl; try reflexivity.
    destruct (decide (get_device x ∈ seen)) as [Hin | Hin].
    + rewrite (bool_decide_eq_true_2 (get_device x ∈ seen) Hin).
      rewrite (bool_decide_eq_true_2 (get_device x ∈ (list_to_set seen : gset Z)))
        by (now apply elem_of_list_to_set).
      reflexivity.
    + rewrite (bool_decide_eq_false_2 (get_device x ∈ seen) Hin).
      rewrite (bool_decide_eq_false_2 (get_device x ∈ (list_to_set seen : gset Z)))
        by (now rewrite elem_of_list_to_set).
      simpl.
      destruct (Z.eqb (get_device x) (get_device y)); simpl; try reflexivity.
      replace ({[get_device x]} ∪ list_to_set seen : gset Z)
        with (list_to_set (seen ++ [get_device x]) : gset Z).
      * apply IH. lia.
      * rewrite list_to_set_app_L. simpl.
        rewrite (right_id_L ∅ (∪)). apply (comm_L (∪)).
Qed.

Lemma tensorCheckHelper_refines this input output ratio :
  tensorCheckHelper this input output ratio
  = raised (first_violation (to_size_t (numDevices (thcState_ this)))
              input output ratio).
Proof.
  unfold tensorCheckHelper, first_violation.
  destruct (Nat.eqb_spec (length input) (length output)) as [Hlen | Hlen];
    cbn [negb]; [ | reflexivity ].
  destruct input as [ | x input ]; [ reflexivity | ].
  change (Nat.eqb (length (x :: input)) 0) with false.
  change ((x :: input) !! 0%nat) with (Some x).
  cbv iota.
  destruct (Z.ltb _ _); [ reflexivity | ].
  change (∅ : gset Z) with (list_to_set (@nil Z) : gset Z).
  rewrite (tensorCheckHelper_loop_refines output ratio (numel x) (scalarType x)
             (x :: input) 0%nat []) by (rewrite drop_0; exact Hlen).
  rewrite drop_0. reflexivity.
Qed.

(** C3 (as amended): the three sequence-level checks come first, in the
    listed order; the seven per-buffer checks are then run pair by pair,
    in the listed order within each pair, so the error raised is that of
    the first violated check of the first offending pair.  The ten errors
    are distinct. *)
Theorem tensorCheckHelper_first_violation
    (this : ProcessGroupNCCL) (input output : list Tensor) (ratio : Z) :
  tensorCheckHelper this input output ratio
  = raised (first_violation (to_size_t (numDevices (thcState_ this)))
              input output ratio) /\
  NoDup validation_messages.
Proof.
  split; [ apply tensorCheckHelper_refines | ].
  unfold validation_messages.
  repeat (apply NoDup_cons; split;
          [ rewrite ?elem_of_cons, elem_of_nil; intuition discriminate | ]).
  apply NoDup_nil_2.
Qed.

(** C3, refuted as stated: the first buffer is not contiguous, the second
    has another element type.  Type agreement is listed before
    contiguity, yet the error raised is the contiguity one. *)
Lemma tensorCheckHelper_not_in_listed_order :
  let a := {| data_ptr := 0; numel := 4; scalarType := kFloat; get_device := 0;
              is_contiguous := false; is_cuda := true; is_sparse := false |} in
  let b := {| data_ptr := 64; numel := 4; scalarType := kInt; get_device := 1;
              is_contiguous := true; is_cuda := true; is_sparse := false |} in
  tensorCheckHelper sample_group [a; b] [a; b] 1
  = Throw (runtime_error msg_not_contiguous) /\
  listed_order_violation 8 [a; b] [a; b] 1 = Some msg_type_mismatch /\
  tensorCheckHelper sample_group [a; b] [a; b] 1
  <> raised (listed_order_violation 8 [a; b] [a; b] 1).
Proof.
  vm_compute. repeat split; discriminate.
Qed.

Lemma pair_violation_seen n r ty seen x y :
  pair_violation n r ty [] x y = None ->
  pair_violation n r ty seen x y
  = if bool_decide (get_device x ∈ seen) then Some msg_duplicate_device else None.
Proof.
  unfold pair_violation.
  repeat (match goal with
          | |- context [if ?c then Some _ else _] =>
              lazymatch c with
              | bool_decide (_ ∈ seen) => fail
              | _ => destruct c eqn:?; try discriminate
              end
          end).
  all: destruct (bool_decide (get_device x ∈ seen)); try discriminate;
    intros _; reflexivity.
Qed.

Lemma pair_violation_fresh n r ty seen x y :
  pair_violation n r ty seen x y = None -> get_device x ∉ seen.
Proof.
  unfold pair_violation.
  repeat (match goal with
          | |- context [if ?c then Some _ else _] =>
              lazymatch c with
              | bool_decide (_ ∈ seen) => fail
              | _ => destruct c eqn:?; try discriminate
              end
          end).
  all: destruct (bool_decide (get_device x ∈ seen)) eqn:E; try discriminate.
  all: intros _; now apply bool_decide_eq_false_1 in E.
Qed.

Lemma first_pair_violation_NoDup n r ty pairs :
  forall seen,
    NoDup seen ->
    first_pair_violation n r ty seen pairs = None ->
    NoDup (seen ++ map (fun p => get_device (fst p)) pairs).
Proof.
  induction pairs as [ | [x y] pairs IH ]; intros seen Hseen; simpl.
  - intros _. now rewrite app_nil_r.
  - destruct (pair_violation n r ty seen x y) eqn:E; [ discriminate | ].
    intros H. apply pair_violation_fresh in E.
    replace (seen ++ get_device x :: map (fun p => get_device (fst p)) pairs)%list
      with ((seen ++ [get_device x]) ++ map (fun p => get_device (fst p)) pairs)%list
      by (now rewrite <- app_assoc).
    apply IH; [ | exact H ].
    apply NoDup_app. repeat split; trivial.
    + intros z Hz Hz'. apply list_elem_of_singleton in Hz'. now subst.
    + apply NoDup_singleton.
Qed.

Lemma first_pair_violation_duplicate n r ty pairs :
  forall seen,
    NoDup seen ->
    Forall (fun p => pair_violation n r ty [] (fst p) (snd p) = None) pairs ->
    ~ NoDup (seen ++ map (fun p => get_device (fst p)) pairs) ->
    first_pair_violation n r ty seen pairs = Some msg_duplicate_device.
Proof.
  induction pairs as [ | [x y] pairs IH ]; intros seen Hseen Hall Hdup; simpl in *.
  - rewrite app_nil_r in Hdup. contradiction.
  - apply Forall_cons in Hall as [Hxy Hall]. simpl in Hxy.
    rewrite (pair_violation_seen _ _ _ seen _ _ Hxy).
    destruct (decide (get_device x ∈ seen)) as [Hin | Hin].
    + now rewrite bool_decide_eq_true_2.
    + rewrite bool_decide_eq_false_2 by exact Hin.
      apply IH; trivial.
      * apply NoDup_app. repeat split; trivial.
        -- intros z Hz Hz'. apply list_elem_of_singleton in Hz'. now subst.
        -- apply NoDup_singleton.
      * now rewrite <- app_assoc.
Qed.

Lemma devices_of_pairs (input output : list Tensor) :
  length input = length output ->
  map (fun p => get_device (fst p)) (combine input output) = map get_device input.
Proof.
  revert output. induction input as [ | x input IH ]; intros [ | y output ];
    simpl; try discriminate; trivial.
  intros [= H]. now rewrite IH.
Qed.

Lemma shared_device_not_NoDup (input : list Tensor) i j a b :
  (i < j)%nat -> input !! i = Some a -> input !! j = Some b ->
  get_device a = get_device b -> ~ NoDup (map get_device input).
Proof.
  intros Hij Ha Hb Hab Hnd.
  rewrite NoDup_alt in Hnd.
  specialize (Hnd i j (get_device a)).
  rewrite !list_lookup_fmap, Ha, Hb in Hnd. simpl in Hnd.
  rewrite Hab in Hnd. specialize (Hnd eq_refl eq_refl). lia.
Qed.

(** C4 (as amended): when two input buffers sit on the same device,
    validation never succeeds: it raises an error.  The error is the
    duplicate-device one provided every other check is satisfied;
    otherwise it can be the error of a check that comes earlier. *)
Theorem duplicate_device_rejected
    (this : ProcessGroupNCCL) (input output : list Tensor) (ratio : Z)
    (i j : nat) (a b : Tensor) :
  (i < j)%nat -> input !! i = Some a -> input !! j = Some b ->
  get_device a = get_device b ->
  (exists m, tensorCheckHelper this input output ratio = Throw (runtime_error m)) /\
  (other_checks_pass this input output ratio ->
   tensorCheckHelper this input output ratio
   = Throw (runtime_error msg_duplicate_device)).
Proof.
  intros Hij Ha Hb Hab.
  pose proof (shared_device_not_NoDup input i j a b Hij Ha Hb Hab) as Hdup.
  rewrite tensorCheckHelper_refines. unfold first_violation.
  split.
  - destruct (Nat.eqb_spec (length input) (length output)) as [Hlen | Hlen];
      cbn [negb]; [ | eexists; reflexivity ].
    destruct input as [ | x input ]; [ eexists; reflexivity | ].
    destruct (Z.ltb _ _); [ eexists; reflexivity | ].
    destruct (first_pair_violation _ _ _ _ _) as [m | ] eqn:E;
      [ eexists; reflexivity | ].
    apply first_pair_violation_NoDup in E; [ | apply NoDup_nil_2 ].
    rewrite devices_of_pairs in E by exact Hlen. contradiction.
  - intros (Hlen & Hvis & t0 & Ht0 & Hall).
    rewrite Hlen, Nat.eqb_refl. cbn [negb].
    destruct input as [ | x input ]; [ discriminate Ht0 | ].
    injection Ht0 as ->.
    destruct (Z.ltb_spec (to_size_t (numDevices (thcState_ this)))
                (Z.of_nat (length output))) as [Hlt | _]; [ lia | ].
    rewrite (first_pair_violation_duplicate _ _ _ _ [] NoDup_nil_2 Hall);
      [ reflexivity | ].
    rewrite app_nil_l, devices_of_pairs by exact Hlen. exact Hdup.
Qed.

Lemma duplicate_device_rejected_witness :
  tensorCheckHelper sample_group [sample_tensor 0; sample_tensor 0]
    [sample_tensor 0; sample_tensor 0] 1
  = Throw (runtime_error msg_duplicate_device).
Proof.
  apply (duplicate_device_rejected sample_group
           [sample_tensor 0; sample_tensor 0] [sample_tensor 0; sample_tensor 0] 1
           0%nat 1%nat (sample_tensor 0) (sample_tensor 0));
    [ lia | reflexivity | reflexivity | reflexivity | ].
  split; [ reflexivity | ].
  split; [ vm_compute; discriminate | ].
  exists (sample_tensor 0). split; [ reflexivity | ].
  repeat constructor.
Defined.

(** C4, refuted as stated: both inputs are on device 0, but the first is
    not contiguous, and that is the error raised. *)
Lemma duplicate_device_masked_by_contiguity :
  let a := {| data_ptr := 0; numel := 4; scalarType := kFloat; get_device := 0;
              is_contiguous := false; is_cuda := true; is_sparse := false |} in
  get_device a = get_device (sample_tensor 0) /\
  tensorCheckHelper sample_group [a; sample_tensor 0] [a; sample_tensor 0] 1
  = Throw (runtime_error msg_not_contiguous) /\
  tensorCheckHelper sample_group [a; sample_tensor 0] [a; sample_tensor 0] 1
  <> Throw (runtime_error msg_duplicate_device).
Proof.
  vm_compute. repeat split; discriminate.
Qed.

(** *** The rules of the program logic *)

Section Triple.

Variable Pre : Sys -> Prop.
Variable R : Sys -> Sys -> Prop.
Hypothesis R_refl : forall s, R s s.
Hypothesis R_trans : forall s1 s2 s3, R s1 s2 -> R s2 s3 -> R s1 s3.

Local Abbreviation triple := (triple Pre R).
Local Abbreviation step_ok := (step_ok Pre R).
Local Abbreviation logs_ok := (logs_ok Pre R).

Lemma triple_ret {A} (a : A) (Q : A -> Prop) : Q a -> triple (ret a) Q.
Proof. intros HQ s Hs. simpl. repeat split; auto. now intros ? [= <-]. Qed.

Lemma triple_throw {A} e (Q : A -> Prop) : triple (throw e) Q.
Proof. intros s Hs. simpl. repeat split; auto. discriminate. Qed.

Lemma triple_undefined {A} (Q : A -> Prop) : triple undefined Q.
Proof. intros s Hs. simpl. repeat split; auto. discriminate. Qed.

Lemma triple_lift {A} (o : outcome A) : triple (lift o) (fun a => o = Ok a).
Proof. intros s Hs. simpl. repeat split; auto. Qed.

Lemma triple_get_sys : triple get_sys Pre.
Proof. intros s Hs. simpl. repeat split; auto. now intros ? [= <-]. Qed.

Lemma triple_idx {A} (v : list A) i : triple (idx v i) (fun x => v !! i = Some x).
Proof.
  unfold idx. destruct (v !! i).
  - now apply triple_ret.
  - apply triple_undefined.
Qed.

Lemma triple_deref this :
  triple (deref this) (fun o => exists s, Pre s /\ objects s !! this = Some o).
Proof.
  intros s Hs. unfold deref.
  destruct (objects s !! this) as [o | ] eqn:E; simpl; repeat split; auto.
  - intros ? [= <-]. eauto.
  - discriminate.
Qed.

Lemma triple_weaken {A} (m : M A) (Q Q' : A -> Prop) :
  triple m Q -> (forall a, Q a -> Q' a) -> triple m Q'.
Proof.
  intros Hm HQ s Hs. destruct (Hm s Hs) as (H1 & H2 & H3).
  repeat split; auto.
Qed.

Lemma triple_bind {A B} (m : M A) (k : A -> M B) (Q : A -> Prop) (Q' : B -> Prop) :
  triple m Q -> (forall a, Q a -> triple (k a) Q') -> triple (bind m k) Q'.
Proof.
  intros Hm Hk s Hs. destruct (Hm s Hs) as (H1 & H2 & H3).
  unfold bind. destruct (m s) as [[a | e | | ] s1]; simpl in *;
    try (repeat split; auto; discriminate).
  destruct (Hk a (H3 a eq_refl) s1 H2) as (K1 & K2 & K3).
  repeat split; eauto.
Qed.

Lemma triple_finally {A} (m : M A) (cleanup : M unit) (Q : A -> Prop) :
  triple m Q -> triple cleanup any -> triple (finally m cleanup) Q.
Proof.
  intros Hm Hc s Hs. destruct (Hm s Hs) as (H1 & H2 & H3).
  unfold finally. destruct (m s) as [r s1]; simpl in *.
  destruct (Hc s1 H2) as (K1 & K2 & _).
  destruct (cleanup s1) as [[[] | e | | ] s2]; simpl in *;
    repeat split; eauto; discriminate.
Qed.

Lemma triple_for_each {A B} (body : nat -> A -> M B) (v : list A) :
  (forall i x, x ∈ v -> triple (body i x) any) ->
  forall i, triple (for_each body i v) any.
Proof.
  induction v as [ | x v IH ]; intros Hbody i; simpl.
  - now apply triple_ret.
  - eapply triple_bind; [ apply Hbody; left | intros y _ ].
    eapply triple_bind; [ apply IH; intros; apply Hbody; now right | intros ys _ ].
    now apply triple_ret.
Qed.

Lemma triple_emit a : logs_ok a -> triple (emit a) any.
Proof. intros H s Hs. destruct (H s Hs). simpl. repeat split; auto. Qed.

Lemma triple_cuda_call env a : logs_ok a -> triple (cuda_call env a) any.
Proof. intros H s Hs. destruct (H s Hs). simpl. repeat split; auto. Qed.

Lemma triple_nccl_call env a : logs_ok a -> triple (nccl_call env a) any.
Proof. intros H s Hs. destruct (H s Hs). simpl. repeat split; auto. Qed.

Lemma triple_C10D_CUDA_CHECK rc : triple (C10D_CUDA_CHECK rc) any.
Proof.
  unfold C10D_CUDA_CHECK. destruct (is_cudaSuccess rc).
  - now apply triple_ret.
  - apply triple_throw.
Qed.

Lemma triple_C10D_NCCL_CHECK rc : triple (C10D_NCCL_CHECK rc) any.
Proof.
  unfold C10D_NCCL_CHECK. destruct rc.
  - now apply triple_ret.
  - apply triple_throw.
Qed.

Lemma triple_getNcclDataType t : triple (getNcclDataType t) any.
Proof.
  unfold getNcclDataType. destruct (ncclDataType t).
  - now apply triple_ret.
  - apply triple_throw.
Qed.

Lemma triple_state {A} (x : A) (f : Sys -> Sys) :
  step_ok f -> triple (fun s => (Ok x, f s)) any.
Proof. intros H s Hs. destruct (H s Hs). simpl. repeat split; auto. Qed.

Lemma triple_store_get st key :
  logs_ok (StoreGet st key) -> triple (store_get st key) any.
Proof.
  intros H s Hs. destruct (H s Hs). unfold store_get.
  destruct (stores s !! (st, key)); simpl; repeat split; auto.
Qed.

(** **** The wrappers around the runtimes *)

Section Runtime.

Variable env : Env.
Hypothesis plain_ok : forall a, plain a = true -> logs_ok a.

Ltac primitive :=
  first
    [ apply triple_cuda_call; apply plain_ok; reflexivity
    | apply triple_nccl_call; apply plain_ok; reflexivity
    | apply triple_emit; apply plain_ok; reflexivity
    | apply triple_get_sys
    | apply triple_idx
    | apply triple_C10D_CUDA_CHECK
    | apply triple_C10D_NCCL_CHECK
    | apply triple_getNcclDataType
    | apply triple_throw
    | apply triple_undefined
    | apply triple_ret; exact I ].

Ltac sequence :=
  repeat first [ primitive | eapply triple_bind; [ primitive | intros ? ? ] ].

Lemma triple_lock : triple (lock cudaFreeMutex) any.
Proof. unfold lock. sequence. Qed.

Lemma triple_unlock : triple (unlock cudaFreeMutex) any.
Proof. unfold unlock. sequence. Qed.

Lemma triple_setDevice d : triple (setDevice env d) any.
Proof. unfold setDevice. sequence. Qed.

Lemma triple_CUDAStream_create : triple (CUDAStream_create env) any.
Proof. unfold CUDAStream_create. sequence. Qed.

Lemma triple_CUDAEvent_create : triple (CUDAEvent_create env) any.
Proof. unfold CUDAEvent_create. sequence. Qed.

Lemma triple_NCCLComm_create n r id : triple (NCCLComm_create env n r id) any.
Proof. unfold NCCLComm_create. sequence. Qed.

Lemma triple_ncclGetUniqueId : triple (ncclGetUniqueId env) any.
Proof. unfold ncclGetUniqueId. sequence. Qed.

Lemma triple_lazyInitCUDA : triple (lazyInitCUDA env) any.
Proof. unfold lazyInitCUDA. sequence. Qed.

Lemma triple_syncStreams thc devices events streams :
  triple (syncStreams env thc devices events streams) any.
Proof.
  unfold syncStreams.
  eapply triple_bind; [ | intros; now apply triple_ret ].
  apply triple_for_each. intros i d _.
  eapply triple_bind; [ apply triple_setDevice | intros ? ? ].
  sequence.
Qed.

Lemma triple_WorkNCCL_ctor devices : triple (WorkNCCL_ctor env devices) any.
Proof.
  unfold WorkNCCL_ctor.
  eapply triple_bind; [ | intros; now apply triple_ret ].
  apply triple_for_each. intros i d _.
  eapply triple_bind; [ apply triple_setDevice | intros ? ? ].
  apply triple_CUDAEvent_create.
Qed.

(** What both collectives do once the communicators are at hand, for any
    primitive call [act] per tensor. *)
Lemma triple_launch thc devices events streams (ncclComms : list NCCLComm)
    (tensors : list Tensor)
    (act : Tensor -> ncclDataType_t -> NCCLComm -> CUDAStream -> Action) :
  (forall t dtype comm stream, t ∈ tensors -> logs_ok (act t dtype comm stream)) ->
  triple
    (let* _ := syncStreams env thc devices events streams in
     let* work := WorkNCCL_ctor env devices in
     let* _ := lock cudaFreeMutex in
     finally
       (let* rc := nccl_call env NcclGroupStart in
        let* _ := C10D_NCCL_CHECK rc in
        let* _ :=
          for_each
            (fun i tensor =>
               let* device := idx devices i in
               let* _ := setDevice env device in
               let* ncclStream := idx streams i in
               let* dtype := getNcclDataType (scalarType tensor) in
               let* comm := idx ncclComms i in
               let* rc := nccl_call env (act tensor dtype comm ncclStream) in
               C10D_NCCL_CHECK rc)
            0%nat tensors in
        let* rc := nccl_call env NcclGroupEnd in
        let* _ := C10D_NCCL_CHECK rc in
        let* _ :=
          for_each
            (fun i _ =>
               let* ncclStream := idx streams i in
               let* cudaEvent := idx (cudaEvents_ work) i in
               let* rc :=
                 cuda_call env (EventRecord (getEvent cudaEvent) (getStream ncclStream)) in
               C10D_CUDA_CHECK rc)
            0%nat tensors in
        ret work)
       (unlock cudaFreeMutex))
    any.
Proof.
  intros Hact.
  eapply triple_bind; [ apply triple_syncStreams | intros ? ? ].
  eapply triple_bind; [ apply triple_WorkNCCL_ctor | intros work _ ].
  eapply triple_bind; [ apply triple_lock | intros ? ? ].
  apply triple_finally; [ | apply triple_unlock ].
  eapply triple_bind; [ primitive | intros ? ? ].
  eapply triple_bind; [ primitive | intros ? ? ].
  eapply triple_bind.
  { apply triple_for_each. intros i t Ht.
    eapply triple_bind; [ primitive | intros ? ? ].
    eapply triple_bind; [ apply triple_setDevice | intros ? ? ].
    eapply triple_bind; [ primitive | intros ? ? ].
    eapply triple_bind; [ primitive | intros ? ? ].
    eapply triple_bind; [ primitive | intros ? ? ].
    eapply triple_bind; [ | intros ? ?; apply triple_C10D_NCCL_CHECK ].
    apply triple_nccl_call, Hact, Ht. }
  intros ? ?.
  eapply triple_bind; [ primitive | intros ? ? ].
  eapply triple_bind; [ primitive | intros ? ? ].
  eapply triple_bind.
  { apply triple_for_each. intros i t _. sequence. }
  intros ? ?. now apply triple_ret.
Qed.

(** **** The methods of one process group *)

Section Group.

Variable this : nat.

(** What is known about [*this] whenever it is read, and about its
    communicator cache. *)
Variable Self : ProcessGroupNCCL -> Prop.
Variable Cache : gmap string (list NCCLComm) -> Prop.
Hypothesis deref_ok : triple (deref this) Self.
Hypothesis Self_cache : forall self, Self self -> Cache (devNCCLCommMap_ self).
Hypothesis Cache_emplace :
  forall m key v,
    is_empty key = false -> Cache m -> Cache (snd (subscript (emplace m key v) key)).
Hypothesis assign_ok :
  forall self comms streams events,
    Self self -> Cache comms ->
    triple (assign this (with_caches self comms streams events)) any.
Hypothesis rendezvous_ok :
  forall ncclID, triple (broadcastUniqueNCCLID this ncclID) any.

(** The collective calls that may be logged. *)
Variable Coll : Action -> Prop.
Hypothesis coll_ok : forall a, Coll a -> logs_ok a.

Lemma triple_getNCCLComm key devices :
  triple (getNCCLComm env this key devices) any.
Proof.
  unfold getNCCLComm.
  eapply triple_bind; [ apply deref_ok | intros self Hself ].
  destruct (is_empty key) eqn:Hkey; [ apply triple_throw | ].
  destruct (devNCCLCommMap_ self !! key) eqn:Hhit; [ now apply triple_ret | ].
  eapply triple_bind.
  { destruct (Z.eqb (rank_ self) 0).
    - eapply triple_bind; [ apply triple_ncclGetUniqueId | intros [rc id] _ ].
      eapply triple_bind; [ apply triple_C10D_NCCL_CHECK | intros ? ? ].
      apply (triple_ret id any I).
    - apply (triple_ret _ any I). }
  intros ncclID0 _.
  eapply triple_bind; [ apply rendezvous_ok | intros ncclID _ ].
  eapply triple_bind; [ primitive | intros ? ? ].
  eapply triple_bind; [ primitive | intros ? ? ].
  eapply triple_bind.
  { apply triple_for_each. intros i d _.
    eapply triple_bind; [ apply triple_setDevice | intros ? ? ].
    eapply triple_bind; [ apply triple_NCCLComm_create | intros ? ? ].
    eapply triple_bind; [ apply triple_CUDAStream_create | intros ? ? ].
    eapply triple_bind; [ apply triple_CUDAEvent_create | intros ? ? ].
    now apply triple_ret. }
  intros created _.
  eapply triple_bind; [ primitive | intros ? ? ].
  eapply triple_bind; [ primitive | intros ? ? ].
  pose proof (Cache_emplace (devNCCLCommMap_ self) key
                (map (fun t => fst (fst t)) created) Hkey (Self_cache _ Hself)) as Hnone.
  destruct (subscript _ key) as [cached comms'].
  eapply triple_bind; [ apply assign_ok; assumption | intros ? ? ].
  now apply triple_ret.
Qed.

Lemma triple_record_events (streams : list CUDAStream) (work : WorkNCCL)
    (tensors : list Tensor) :
  triple
    (for_each
       (fun i _ =>
          let* ncclStream := idx streams i in
          let* cudaEvent := idx (cudaEvents_ work) i in
          let* rc :=
            cuda_call env (EventRecord (getEvent cudaEvent) (getStream ncclStream)) in
          C10D_CUDA_CHECK rc)
       0%nat tensors) any.
Proof. apply triple_for_each. intros i t _. sequence. Qed.

Lemma triple_allreduce tensors opts :
  (forall t dtype comm stream,
      t ∈ tensors ->
      Coll (NcclAllReduce (data_ptr t) (data_ptr t) (to_size_t (numel t)) dtype
              (ncclOp (reduceOp opts)) comm stream)) ->
  triple (allreduce env this tensors opts) any.
Proof.
  intros Hcoll. unfold allreduce.
  eapply triple_bind; [ apply deref_ok | intros self Hself ].
  eapply triple_bind; [ apply triple_lift | intros ? ? ].
  eapply triple_bind; [ apply triple_getNCCLComm | intros ncclComms _ ].
  eapply triple_bind; [ apply deref_ok | intros self1 Hself1 ].
  destruct (subscript (ncclEvents_ self1) _) as [events eventMap].
  destruct (subscript (ncclStreams_ self1) _) as [streams streamMap].
  eapply triple_bind;
    [ apply assign_ok; [ assumption | now apply Self_cache ] | intros ? ? ].
  eapply triple_bind; [ apply triple_syncStreams | intros ? ? ].
  eapply triple_bind; [ apply triple_WorkNCCL_ctor | intros work _ ].
  eapply triple_bind; [ apply triple_lock | intros ? ? ].
  apply triple_finally; [ | apply triple_unlock ].
  eapply triple_bind; [ primitive | intros ? ? ].
  eapply triple_bind; [ primitive | intros ? ? ].
  eapply triple_bind.
  { apply triple_for_each. intros i t Ht.
    eapply triple_bind; [ primitive | intros ? ? ].
    eapply triple_bind; [ apply triple_setDevice | intros ? ? ].
    eapply triple_bind; [ primitive | intros ? ? ].
    eapply triple_bind; [ primitive | intros ? ? ].
    eapply triple_bind; [ primitive | intros ? ? ].
    eapply triple_bind; [ | intros ? ?; apply triple_C10D_NCCL_CHECK ].
    apply triple_nccl_call, coll_ok, Hcoll, Ht. }
  intros ? ?.
  eapply triple_bind; [ primitive | intros ? ? ].
  eapply triple_bind; [ primitive | intros ? ? ].
  eapply triple_bind; [ apply triple_record_events | intros ? ? ].
  now apply triple_ret.
Qed.

Lemma triple_broadcast tensors opts :
  (forall t dtype comm stream,
      t ∈ tensors ->
      Coll (NcclBcast (data_ptr t) (to_size_t (numel t)) dtype
              (to_int (to_size_t (to_size_t (to_size_t (rootRank opts)
                                             * Z.of_nat (length tensors))
                                  + to_size_t (rootTensor opts))))
              comm stream)) ->
  triple (broadcast env this tensors opts) any.
Proof.
  intros Hcoll. unfold broadcast.
  eapply triple_bind; [ apply deref_ok | intros self Hself ].
  eapply triple_bind; [ apply triple_lift | intros ? ? ].
  eapply triple_bind; [ apply triple_getNCCLComm | intros ncclComms _ ].
  eapply triple_bind; [ apply deref_ok | intros self1 Hself1 ].
  destruct (subscript (ncclEvents_ self1) _) as [events eventMap].
  destruct (subscript (ncclStreams_ self1) _) as [streams streamMap].
  eapply triple_bind;
    [ apply assign_ok; [ assumption | now apply Self_cache ] | intros ? ? ].
  eapply triple_bind; [ apply triple_syncStreams | intros ? ? ].
  eapply triple_bind; [ apply triple_WorkNCCL_ctor | intros work _ ].
  eapply triple_bind; [ apply triple_lock | intros ? ? ].
  apply triple_finally; [ | apply triple_unlock ].
  eapply triple_bind; [ primitive | intros ? ? ].
  eapply triple_bind; [ primitive | intros ? ? ].
  eapply triple_bind.
  { apply triple_for_each. intros i t Ht.
    eapply triple_bind; [ primitive | intros ? ? ].
    eapply triple_bind; [ apply triple_setDevice | intros ? ? ].
    eapply triple_bind; [ primitive | intros ? ? ].
    eapply triple_bind; [ primitive | intros ? ? ].
    eapply triple_bind; [ primitive | intros ? ? ].
    eapply triple_bind; [ | intros ? ?; apply triple_C10D_NCCL_CHECK ].
    apply triple_nccl_call, coll_ok, Hcoll, Ht. }
  intros ? ?.
  eapply triple_bind; [ primitive | intros ? ? ].
  eapply triple_bind; [ primitive | intros ? ? ].
  eapply triple_bind; [ apply triple_record_events | intros ? ? ].
  now apply triple_ret.
Qed.

End Group.

End Runtime.

End Triple.

(** *** What gets logged *)

Lemma grows_refl P s : grows P s s.
Proof. exists []. split; [ now rewrite app_nil_r | constructor ]. Qed.

Lemma grows_trans P s1 s2 s3 : grows P s1 s2 -> grows P s2 s3 -> grows P s1 s3.
Proof.
  intros (l1 & E1 & F1) (l2 & E2 & F2). exists (l1 ++ l2)%list. split.
  - now rewrite E2, E1, app_assoc.
  - now apply Forall_app.
Qed.

Section Logged.

Variable env : Env.
Variable P : Action -> Prop.
Hypothesis P_other : forall a, collective a = false -> P a.

Let always : Sys -> Prop := fun _ => True.

Lemma grows_append f a :
  P a -> (forall s, log (f s) = (log s ++ [a])%list) -> step_ok always (grows P) f.
Proof.
  intros Ha Hf s _. split; [ | exact I ].
  exists [a]. split; [ apply Hf | now repeat constructor ].
Qed.

Lemma grows_silent f :
  (forall s, log (f s) = log s) -> step_ok always (grows P) f.
Proof.
  intros Hf s _. split; [ | exact I ].
  exists []. split; [ now rewrite Hf, app_nil_r | constructor ].
Qed.

Lemma grows_plain a : plain a = true -> logs_ok always (grows P) a.
Proof.
  intros Ha. apply (grows_append _ a); [ | reflexivity ].
  apply P_other. unfold plain in Ha. now destruct (collective a).
Qed.

Ltac grows_book :=
  apply (triple_state always (grows P) tt);
  eapply grows_append; cycle 1; [ reflexivity | now apply P_other ].

Ltac grows_side :=
  first [ apply (grows_refl P) | apply (grows_trans P) | exact grows_plain ].

Ltac grows_bind lemma :=
  eapply triple_bind;
  [ apply (grows_trans P) | lemma; try grows_side | intros ? ? ].

Lemma grows_rendezvous this ncclID :
  triple always (grows P) (broadcastUniqueNCCLID this ncclID) any.
Proof.
  unfold broadcastUniqueNCCLID.
  grows_bind ltac:(apply triple_deref).
  grows_bind ltac:(grows_book).
  destruct (stoull (processGroupID_ _)) as [k | ].
  2:{ grows_bind ltac:(grows_book). apply triple_throw, grows_refl. }
  grows_bind ltac:(apply triple_get_sys).
  grows_bind ltac:(grows_book).
  grows_bind ltac:(grows_book).
  destruct (Z.eqb (rank_ _) 0).
  - grows_bind ltac:(grows_book).
    apply triple_ret; [ apply grows_refl | exact I ].
  - grows_bind ltac:(apply triple_store_get).
    { eapply grows_append; cycle 1; [ reflexivity | now apply P_other ]. }
    destruct (negb _);
      [ apply triple_throw, grows_refl | apply triple_ret; [ apply grows_refl | exact I ] ].
Qed.

Lemma grows_assign this o :
  triple always (grows P) (assign this o) any.
Proof.
  apply (triple_state always (grows P) tt). now apply grows_silent.
Qed.

Lemma grows_deref this :
  triple always (grows P) (deref this) (fun _ => True).
Proof.
  eapply triple_weaken; [ apply triple_deref, grows_refl | auto ].
Qed.

Lemma getNCCLComm_grows this key devices s :
  grows P s (snd (getNCCLComm env this key devices s)).
Proof.
  refine (proj1 (triple_getNCCLComm always (grows P) (grows_refl P) (grows_trans P)
                   env grows_plain this (fun _ => True) (fun _ => True)
                   (grows_deref this) _ _ _ (grows_rendezvous this)
                   key devices s I)); auto using grows_assign.
Qed.

Lemma allreduce_grows this tensors opts s :
  (forall t dtype comm stream,
      t ∈ tensors ->
      P (NcclAllReduce (data_ptr t) (data_ptr t) (to_size_t (numel t)) dtype
           (ncclOp (reduceOp opts)) comm stream)) ->
  grows P s (snd (allreduce env this tensors opts s)).
Proof.
  intros Hcoll.
  refine (proj1 (triple_allreduce always (grows P) (grows_refl P) (grows_trans P)
                   env grows_plain this (fun _ => True) (fun _ => True)
                   (grows_deref this) _ _ _ (grows_rendezvous this) P _
                   tensors opts Hcoll s I)); auto using grows_assign.
  intros a Ha. now apply (grows_append _ a).
Qed.

Lemma broadcast_grows this tensors opts s :
  (forall t dtype comm stream,
      t ∈ tensors ->
      P (NcclBcast (data_ptr t) (to_size_t (numel t)) dtype
           (to_int (to_size_t (to_size_t (to_size_t (rootRank opts)
                                          * Z.of_nat (length tensors))
                               + to_size_t (rootTensor opts))))
           comm stream)) ->
  grows P s (snd (broadcast env this tensors opts s)).
Proof.
  intros Hcoll.
  refine (proj1 (triple_broadcast always (grows P) (grows_refl P) (grows_trans P)
                   env grows_plain this (fun _ => True) (fun _ => True)
                   (grows_deref this) _ _ _ (grows_rendezvous this) P _
                   tensors opts Hcoll s I)); auto using grows_assign.
  intros a Ha. now apply (grows_append _ a).
Qed.

Lemma syncStreams_grows thc devices events streams s :
  grows P s (snd (syncStreams env thc devices events streams s)).
Proof.
  apply (triple_syncStreams always (grows P) (grows_refl P) (grows_trans P) env
           grows_plain thc devices events streams s I).
Qed.

Lemma WorkNCCL_ctor_grows devices s :
  grows P s (snd (WorkNCCL_ctor env devices s)).
Proof.
  apply (triple_WorkNCCL_ctor always (grows P) (grows_refl P) (grows_trans P) env
           grows_plain devices s I).
Qed.

Lemma record_events_grows streams work (tensors : list Tensor) s :
  grows P s
    (snd (for_each
            (fun i _ =>
               let* ncclStream := idx streams i in
               let* cudaEvent := idx (cudaEvents_ work) i in
               let* rc :=
                 cuda_call env (EventRecord (getEvent cudaEvent) (getStream ncclStream)) in
               C10D_CUDA_CHECK rc)
            0%nat tensors s)).
Proof.
  apply (triple_record_events always (grows P) (grows_refl P) (grows_trans P) env
           grows_plain streams work tensors s I).
Qed.

End Logged.

(** *** Inverting successful runs *)

Lemma bind_Ok {A B} (m : M A) (k : A -> M B) s b s' :
  bind m k s = (Ok b, s') ->
  exists a s1, m s = (Ok a, s1) /\ k a s1 = (Ok b, s').
Proof.
  unfold bind. destruct (m s) as [[a | e | | ] s1]; try discriminate.
  intros H. eauto.
Qed.

Lemma finally_Ok {A} (m : M A) (cleanup : M unit) s b s' :
  finally m cleanup s = (Ok b, s') ->
  exists s1, m s = (Ok b, s1) /\ snd (cleanup s1) = s'.
Proof.
  unfold finally. destruct (m s) as [r s1].
  destruct (cleanup s1) as [[[] | e | | ] s2] eqn:Ec; try discriminate.
  intros [= -> ->]. exists s1. now rewrite Ec.
Qed.

Lemma idx_Ok {A} (v : list A) i s x s' :
  idx v i s = (Ok x, s') -> v !! i = Some x /\ s' = s.
Proof.
  unfold idx. destruct (v !! i); [ | discriminate ].
  now intros [= -> ->].
Qed.

Lemma deref_Ok this s o s' :
  deref this s = (Ok o, s') -> objects s !! this = Some o /\ s' = s.
Proof.
  unfold deref. destruct (objects s !! this); [ | discriminate ].
  now intros [= -> ->].
Qed.

Lemma lift_Ok {A} (o : outcome A) s a s' :
  lift o s = (Ok a, s') -> o = Ok a /\ s' = s.
Proof. now intros [= -> ->]. Qed.

Lemma C10D_CUDA_CHECK_Ok rc s u s' :
  C10D_CUDA_CHECK rc s = (Ok u, s') -> rc = cudaSuccess /\ s' = s.
Proof. destruct rc; try discriminate. now intros [= _ ->]. Qed.

Lemma C10D_NCCL_CHECK_Ok rc s u s' :
  C10D_NCCL_CHECK rc s = (Ok u, s') -> rc = ncclSuccess /\ s' = s.
Proof. destruct rc; try discriminate. now intros [= _ ->]. Qed.

Lemma getNcclDataType_Ok t s d s' :
  getNcclDataType t s = (Ok d, s') -> s' = s.
Proof.
  unfold getNcclDataType. destruct (ncclDataType t); [ | discriminate ].
  now intros [= _ ->].
Qed.

Lemma setDevice_Ok env d s u s' :
  setDevice env d s = (Ok u, s') -> log s' = (log s ++ [SetDevice d])%list.
Proof.
  unfold setDevice. intros (rc & s1 & E1 & E2)%bind_Ok.
  apply C10D_CUDA_CHECK_Ok in E2 as [_ ->].
  injection E1 as _ <-. reflexivity.
Qed.

(** *** allreduce *)

Section Calls.

Context {X : Type}.
Variable view : Action -> option X.
Hypothesis view_collective : forall a, collective a = false -> view a = None.

Lemma calls_trans c1 c2 s1 s2 s3 :
  calls view c1 s1 s2 -> calls view c2 s2 s3 -> calls view (c1 ++ c2) s1 s3.
Proof.
  intros (l1 & E1 & C1) (l2 & E2 & C2). exists (l1 ++ l2)%list. split.
  - now rewrite E2, E1, app_assoc.
  - now rewrite omap_app, C1, C2.
Qed.

Lemma calls_grows s s' :
  grows (fun a => collective a = false) s s' -> calls view [] s s'.
Proof.
  intros (l & E & F). exists l. split; [ exact E | ].
  clear E. induction F as [ | a l Ha _ IH ]; [ reflexivity | ].
  simpl. now rewrite (view_collective a Ha).
Qed.

Lemma calls_run {A} (m : M A) s r s' :
  (forall s, grows (fun a => collective a = false) s (snd (m s))) ->
  m s = (r, s') -> calls view [] s s'.
Proof.
  intros G E. specialize (G s). rewrite E in G. now apply calls_grows.
Qed.

Lemma calls_one a s s' :
  collective a = false -> log s' = (log s ++ [a])%list -> calls view [] s s'.
Proof.
  intros Ha E. exists [a]. split; [ exact E | ].
  simpl. now rewrite (view_collective a Ha).
Qed.

Lemma calls_two a b s s' :
  collective a = false -> collective b = false ->
  log s' = ((log s ++ [a]) ++ [b])%list -> calls view [] s s'.
Proof.
  intros Ha Hb E. exists [a; b]. split; [ now rewrite E, <- app_assoc | ].
  simpl. now rewrite (view_collective a Ha), (view_collective b Hb).
Qed.

End Calls.

Lemma allreduce_call_collective a : collective a = false -> allreduce_call a = None.
Proof. destruct a; try discriminate; reflexivity. Qed.

Lemma bcast_root_collective a : collective a = false -> bcast_root a = None.
Proof. destruct a; try discriminate; reflexivity. Qed.

Lemma allreduce_loop_calls env opts devices streams (ncclComms : list NCCLComm)
    (tensors : list Tensor) :
  forall i s ys s',
    for_each
      (fun i tensor =>
         let* device := idx devices i in
         let* _ := setDevice env device in
         let* ncclStream := idx streams i in
         let* dtype := getNcclDataType (scalarType tensor) in
         let* comm := idx ncclComms i in
         let* rc :=
           nccl_call env
             (NcclAllReduce (data_ptr tensor) (data_ptr tensor)
                (to_size_t (numel tensor)) dtype (ncclOp (reduceOp opts))
                comm (getStream ncclStream)) in
         C10D_NCCL_CHECK rc)
      i tensors s = (Ok ys, s') ->
    calls allreduce_call
      (map (fun t => (data_ptr t, data_ptr t, to_size_t (numel t))) tensors) s s'.
Proof.
  induction tensors as [ | t tensors IH ]; intros i s ys s'; simpl.
  - intros [= _ <-]. exists []. now rewrite app_nil_r.
  - intros (y & s1 & Hbody & Hrest)%bind_Ok.
    apply bind_Ok in Hrest as (ys' & s2 & Hrest & Hret).
    injection Hret as _ <-.
    apply IH in Hrest as (l & El & Cl).
    apply bind_Ok in Hbody as (d & sa & [_ ->]%idx_Ok & Hbody).
    apply bind_Ok in Hbody as (? & sb & Hset%setDevice_Ok & Hbody).
    apply bind_Ok in Hbody as (st & sc & [_ ->]%idx_Ok & Hbody).
    apply bind_Ok in Hbody as (dt & sd & ->%getNcclDataType_Ok & Hbody).
    apply bind_Ok in Hbody as (cm & se & [_ ->]%idx_Ok & Hbody).
    apply bind_Ok in Hbody as (rc & sf & Hcall & [_ ->]%C10D_NCCL_CHECK_Ok).
    injection Hcall as _ <-. simpl in El.
    eexists. split.
    + rewrite El, Hset, <- !app_assoc. reflexivity.
    + rewrite !omap_app, Cl. reflexivity.
Qed.

Lemma self_pair_violation n ty seen x m :
  pair_violation n default_outputOverInput ty seen x x = Some m ->
  m <> msg_device_mismatch /\ (ssize_range (numel x) -> m <> msg_output_numel).
Proof.
  unfold pair_violation, default_outputOverInput.
  rewrite Z.mul_1_r, Z.eqb_refl.
  destruct (negb (dense_on_device x) || negb (dense_on_device x));
    [ intros [= <-]; split; [ discriminate | intros _; discriminate ] | ].
  destruct (negb (bool_decide (scalarType x = ty /\ scalarType x = ty)));
    [ intros [= <-]; split; [ discriminate | intros _; discriminate ] | ].
  destruct (Z.eqb_spec (numel x) n) as [<- | _]; cbn [negb];
    [ | intros [= <-]; split; [ discriminate | intros _; discriminate ] ].
  destruct (Z.eqb_spec (numel x) (to_ssize_t (numel x))) as [_ | Hne]; cbn [negb].
  - destruct (negb (is_contiguous x && is_contiguous x));
      [ intros [= <-]; split; [ discriminate | intros _; discriminate ] | ].
    destruct (bool_decide (get_device x ∈ seen));
      [ intros [= <-]; split; [ discriminate | intros _; discriminate ] | ].
    discriminate.
  - intros [= <-]. split; [ discriminate | ].
    intros Hr. now rewrite to_ssize_t_id in Hne.
Qed.

Lemma self_first_pair_violation n ty (l : list Tensor) :
  forall seen m,
    first_pair_violation n default_outputOverInput ty seen (combine l l) = Some m ->
    m <> msg_device_mismatch /\
    (Forall (fun t => ssize_range (numel t)) l -> m <> msg_output_numel).
Proof.
  induction l as [ | x l IH ]; intros seen m; simpl; [ discriminate | ].
  destruct (pair_violation n default_outputOverInput ty seen x x) as [m' | ] eqn:E.
  - intros [= <-]. apply self_pair_violation in E as [E1 E2].
    split; [ exact E1 | ]. intros [Hx _]%Forall_cons. auto.
  - intros H. apply IH in H as [H1 H2].
    split; [ exact H1 | ]. intros [_ Hl]%Forall_cons. auto.
Qed.

Lemma self_check_errors self (tensors : list Tensor) :
  tensorCheckHelper self tensors tensors default_outputOverInput
  <> Throw (runtime_error msg_device_mismatch) /\
  (Forall (fun t => ssize_range (numel t)) tensors ->
   tensorCheckHelper self tensors tensors default_outputOverInput
   <> Throw (runtime_error msg_output_numel)).
Proof.
  rewrite tensorCheckHelper_refines. unfold first_violation.
  rewrite Nat.eqb_refl. cbn [negb].
  destruct tensors as [ | x l ];
    [ split; [ discriminate | intros _; discriminate ] | ].
  destruct (Z.ltb _ _); [ split; [ discriminate | intros _; discriminate ] | ].
  destruct (first_pair_violation _ _ _ _ _) as [m | ] eqn:E;
    [ | split; [ discriminate | intros _; discriminate ] ].
  apply self_first_pair_violation in E as [E1 E2].
  split; [ intros [= ->]; now apply E1 | ].
  intros Hr [= ->]. now apply E2.
Qed.

(** The common shape of a successful collective: everything around the
    loop of primitive calls logs no collective call. *)
Ltac collective_success E loop_lemma view_lemma :=
  pose proof (fun a (H : collective a = false) => H) as NC;
  apply bind_Ok in E as (? & ? & [_ ->]%deref_Ok & E);
  apply bind_Ok in E as (? & ? & [_ ->]%lift_Ok & E);
  let Hcomm := fresh "Hcomm" in
  apply bind_Ok in E as (? & ? & Hcomm & E);
  apply (calls_run _ view_lemma _ _ _ _ (getNCCLComm_grows _ _ NC _ _ _)) in Hcomm;
  apply bind_Ok in E as (? & ? & [_ ->]%deref_Ok & E);
  match type of E with
  | context [subscript (ncclEvents_ ?o) ?k] =>
      destruct (subscript (ncclEvents_ o) k) as [? ?];
      destruct (subscript (ncclStreams_ o) k) as [? ?]
  end;
  let Hassign := fresh "Hassign" in
  apply bind_Ok in E as (? & ? & Hassign & E);
  injection Hassign as _ <-;
  let Hsync := fresh "Hsync" in
  apply bind_Ok in E as (? & ? & Hsync & E);
  apply (calls_run _ view_lemma _ _ _ _ (syncStreams_grows _ _ NC _ _ _ _)) in Hsync;
  let Hwork := fresh "Hwork" in
  apply bind_Ok in E as (? & ? & Hwork & E);
  apply (calls_run _ view_lemma _ _ _ _ (WorkNCCL_ctor_grows _ _ NC _)) in Hwork;
  let Hlock := fresh "Hlock" in
  apply bind_Ok in E as (? & ? & Hlock & E);
  injection Hlock as _ <-;
  apply finally_Ok in E as (? & E & <-);
  let Hstart := fresh "Hstart" in
  apply bind_Ok in E as (? & ? & Hstart & E);
  injection Hstart as _ <-;
  apply bind_Ok in E as (? & ? & [_ ->]%C10D_NCCL_CHECK_Ok & E);
  let Hloop := fresh "Hloop" in
  apply bind_Ok in E as (? & ? & Hloop & E);
  apply loop_lemma in Hloop;
  let Hend := fresh "Hend" in
  apply bind_Ok in E as (? & ? & Hend & E);
  injection Hend as _ <-;
  apply bind_Ok in E as (? & ? & [_ ->]%C10D_NCCL_CHECK_Ok & E);
  let Hrec := fresh "Hrec" in
  apply bind_Ok in E as (? & ? & Hrec & E);
  apply (calls_run _ view_lemma _ _ _ _ (record_events_grows _ _ NC _ _ _)) in Hrec;
  injection E as _ <-;
  let C := fresh "C" in
  pose proof (calls_trans _ _ _ _ _ _ Hcomm Hsync) as C;
  apply (calls_trans _ _ _ _ _ _ C) in Hwork; clear C;
  match type of Hwork with
  | calls ?view _ _ ?sw =>
      match type of Hloop with
      | calls _ _ ?sl ?sl' =>
          assert (C : calls view [] sw sl)
            by (apply (calls_two _ view_lemma (Lock cudaFreeMutex) NcclGroupStart);
                reflexivity);
          apply (calls_trans _ _ _ _ _ _ Hwork) in C;
          apply (calls_trans _ _ _ _ _ _ C) in Hloop; clear C;
          match type of Hrec with
          | calls _ _ ?sr ?sr' =>
              assert (C : calls view [] sl' sr)
                by (apply (calls_one _ view_lemma NcclGroupEnd); reflexivity);
              apply (calls_trans _ _ _ _ _ _ Hloop) in C;
              apply (calls_trans _ _ _ _ _ _ C) in Hrec; clear C;
              match goal with
              | |- calls _ _ _ ?sf =>
                  assert (C : calls view [] sr' sf)
                    by (apply (calls_one _ view_lemma (Unlock cudaFreeMutex));
                        reflexivity);
                  apply (calls_trans _ _ _ _ _ _ Hrec) in C;
                  simpl in C; rewrite !app_nil_r in C; exact C
              end
          end
      end
  end.

Lemma allreduce_success_calls env this tensors opts s work s' :
  allreduce env this tensors opts s = (Ok work, s') ->
  calls allreduce_call
    (map (fun t => (data_ptr t, data_ptr t, to_size_t (numel t))) tensors) s s'.
Proof.
  intros E. unfold allreduce in E.
  collective_success E allreduce_loop_calls allreduce_call_collective.
Qed.

(** C10: [allreduce] works in place.  It validates the tensor sequence
    against itself with ratio 1 (a validation error is the error of the
    call, and the device-pairing and output-size checks cannot be the ones
    that fail); every all-reduce call it logs reads and writes the buffer
    of one of the tensors; and when it succeeds it has issued exactly one
    call per tensor, in order, with that tensor's pointer as source and
    as destination. *)
Theorem allreduce_in_place
    (env : Env) (this : nat) (self : ProcessGroupNCCL)
    (tensors : list Tensor) (opts : AllreduceOptions) (s : Sys) :
  objects s !! this = Some self ->
  (forall e,
      tensorCheckHelper self tensors tensors 1 = Throw e ->
      allreduce env this tensors opts s = (Throw e, s)) /\
  tensorCheckHelper self tensors tensors 1
  <> Throw (runtime_error msg_device_mismatch) /\
  (Forall (fun t => ssize_range (numel t)) tensors ->
   tensorCheckHelper self tensors tensors 1
   <> Throw (runtime_error msg_output_numel)) /\
  grows (in_place tensors) s (snd (allreduce env this tensors opts s)) /\
  (forall work,
      fst (allreduce env this tensors opts s) = Ok work ->
      calls allreduce_call
        (map (fun t => (data_ptr t, data_ptr t, to_size_t (numel t))) tensors)
        s (snd (allreduce env this tensors opts s))).
Proof.
  intros Hobj.
  split.
  { intros e He. unfold allreduce, bind at 1, deref. rewrite Hobj.
    unfold bind at 1, lift. unfold default_outputOverInput. now rewrite He. }
  destruct (self_check_errors self tensors) as [H1 H2].
  split; [ exact H1 | ]. split; [ exact H2 | ].
  split.
  - apply allreduce_grows.
    + intros a Ha. destruct a; try discriminate Ha; exact I.
    + intros t dtype comm stream Ht. simpl. eauto.
  - intros work Hw.
    destruct (allreduce env this tensors opts s) as [r s'] eqn:E.
    simpl in Hw. subst r. now apply allreduce_success_calls in E.
Qed.

Lemma allreduce_in_place_witness :
  calls allreduce_call [(4096, 4096, 4); (8192, 8192, 4)] sample_sys
    (snd (allreduce env_ready 0 [sample_tensor 0; sample_tensor 1]
            {| reduceOp := SUM |} sample_sys)).
Proof.
  assert (Hobj : objects sample_sys !! 0%nat = Some sample_root_group)
    by (vm_compute; reflexivity).
  destruct (allreduce_in_place env_ready 0%nat sample_root_group
              [sample_tensor 0; sample_tensor 1] {| reduceOp := SUM |} sample_sys
              Hobj) as (_ & _ & _ & _ & H).
  eapply H. vm_compute. reflexivity.
Defined.

(** *** Participant ranks *)

Lemma NCCLComm_create_Ok env numRanks rank ncclID s c s' :
  NCCLComm_create env numRanks rank ncclID s = (Ok c, s') ->
  comm_rank c = rank /\ comm_numRanks c = numRanks /\ comm_uniqueId c = ncclID.
Proof.
  unfold NCCLComm_create.
  intros (? & ? & _ & E)%bind_Ok.
  apply bind_Ok in E as (? & ? & _ & E).
  apply bind_Ok in E as (? & ? & _ & E).
  injection E as <- _. auto.
Qed.

Lemma created_communicators env numRanks (rank : nat -> Z) ncclID devices :
  forall i s created s',
    for_each
      (fun i device =>
         let* _ := setDevice env device in
         let* comm := NCCLComm_create env numRanks (rank i) ncclID in
         let* stream := CUDAStream_create env in
         let* event := CUDAEvent_create env in
         ret (comm, stream, event))
      i devices s = (Ok created, s') ->
    map (fun t => (comm_rank (fst (fst t)), comm_numRanks (fst (fst t)))) created
    = map (fun k => (rank k, numRanks)) (seq i (length devices)).
Proof.
  induction devices as [ | d devices IH ]; intros i s created s'; simpl.
  - now intros [= <- _].
  - intros (y & s1 & Hbody & Hrest)%bind_Ok.
    apply bind_Ok in Hrest as (ys & s2 & Hrest & Hret).
    injection Hret as <- _. simpl.
    rewrite (IH _ _ _ _ Hrest). f_equal.
    apply bind_Ok in Hbody as (? & ? & _ & Hbody).
    apply bind_Ok in Hbody as (c & ? & Hc & Hbody).
    apply bind_Ok in Hbody as (? & ? & _ & Hbody).
    apply bind_Ok in Hbody as (? & ? & _ & Hbody).
    injection Hbody as <- _. simpl.
    apply NCCLComm_create_Ok in Hc as (-> & -> & _). reflexivity.
Qed.

Lemma getNCCLComm_miss env this self key devices s comms s' :
  objects s !! this = Some self ->
  devNCCLCommMap_ self !! key = None ->
  getNCCLComm env this key devices s = (Ok comms, s') ->
  let n := Z.of_nat (length devices) in
  map (fun c => (comm_rank c, comm_numRanks c)) comms
  = map (fun i => (to_int (rank_ self * n + Z.of_nat i), to_int (size_ self * n)))
      (seq 0 (length devices)).
Proof.
  intros Hobj Hmiss E n. unfold getNCCLComm in E.
  apply bind_Ok in E as (self0 & ? & [Hself ->]%deref_Ok & E).
  assert (self0 = self) as -> by congruence.
  destruct (is_empty key); [ discriminate E | ].
  rewrite Hmiss in E.
  apply bind_Ok in E as (id0 & ? & _ & E).
  apply bind_Ok in E as (id & ? & _ & E).
  apply bind_Ok in E as (? & ? & _ & E).
  apply bind_Ok in E as (? & ? & _ & E).
  apply bind_Ok in E as (created & ? & Hloop & E).
  apply bind_Ok in E as (? & ? & _ & E).
  apply bind_Ok in E as (? & ? & _ & E).
  apply (created_communicators env _
           (fun i => to_int (to_size_t (to_size_t (to_size_t (rank_ self) * n)
                                        + Z.of_nat i)))) in Hloop.
  unfold emplace at 1 in E. rewrite Hmiss in E.
  unfold subscript in E. rewrite lookup_insert_eq in E.
  apply bind_Ok in E as (? & ? & _ & E).
  injection E as <- _.
  rewrite map_map. rewrite Hloop.
  apply map_ext. intros i.
  now rewrite participant_rank_wrap, participant_count_wrap.
Qed.

Lemma bcast_loop_roots env root devices streams (ncclComms : list NCCLComm)
    (tensors : list Tensor) :
  forall i s ys s',
    for_each
      (fun i tensor =>
         let* device := idx devices i in
         let* _ := setDevice env device in
         let* ncclStream := idx streams i in
         let* dtype := getNcclDataType (scalarType tensor) in
         let* comm := idx ncclComms i in
         let* rc :=
           nccl_call env
             (NcclBcast (data_ptr tensor) (to_size_t (numel tensor)) dtype
                root comm (getStream ncclStream)) in
         C10D_NCCL_CHECK rc)
      i tensors s = (Ok ys, s') ->
    calls bcast_root (map (fun _ => root) tensors) s s'.
Proof.
  induction tensors as [ | t tensors IH ]; intros i s ys s'; simpl.
  - intros [= _ <-]. exists []. now rewrite app_nil_r.
  - intros (y & s1 & Hbody & Hrest)%bind_Ok.
    apply bind_Ok in Hrest as (ys' & s2 & Hrest & Hret).
    injection Hret as _ <-.
    apply IH in Hrest as (l & El & Cl).
    apply bind_Ok in Hbody as (d & sa & [_ ->]%idx_Ok & Hbody).
    apply bind_Ok in Hbody as (? & sb & Hset%setDevice_Ok & Hbody).
    apply bind_Ok in Hbody as (st & sc & [_ ->]%idx_Ok & Hbody).
    apply bind_Ok in Hbody as (dt & sd & ->%getNcclDataType_Ok & Hbody).
    apply bind_Ok in Hbody as (cm & se & [_ ->]%idx_Ok & Hbody).
    apply bind_Ok in Hbody as (rc & sf & Hcall & [_ ->]%C10D_NCCL_CHECK_Ok).
    injection Hcall as _ <-. simpl in El.
    eexists. split.
    + rewrite El, Hset, <- !app_assoc. reflexivity.
    + rewrite !omap_app, Cl. reflexivity.
Qed.

Lemma broadcast_success_roots env this tensors opts s work s' :
  broadcast env this tensors opts s = (Ok work, s') ->
  calls bcast_root
    (map (fun _ => to_int (rootRank opts * Z.of_nat (length tensors) + rootTensor opts))
       tensors) s s'.
Proof.
  intros E. unfold broadcast in E. rewrite <- root_wrap.
  collective_success E bcast_loop_roots bcast_root_collective.
Qed.

(** *** The functions refine the transition system *)

Lemma Step_to s s1 s2 : Step s s1 -> s1 = s2 -> Step s s2.
Proof. now intros H <-. Qed.

Lemma Sys_eq (s1 s2 : Sys) :
  pgUniqueNCCLIDCnt_ s1 = pgUniqueNCCLIDCnt_ s2 ->
  processGroupCounter_ s1 = processGroupCounter_ s2 ->
  stores s1 = stores s2 ->
  objects s1 = objects s2 ->
  log s1 = log s2 ->
  s1 = s2.
Proof. destruct s1, s2; simpl; now intros -> -> -> -> ->. Qed.

Lemma ctor_steps env store rank size s :
  rtc Step s (snd (ProcessGroupNCCL_ctor env store rank size s)).
Proof.
  eapply rtc_l; [ apply (step_log s LazyInitCUDA); reflexivity | ].
  apply rtc_once.
  eapply Step_to.
  - eapply (step_construct _ (length (log s))
              {| rank_ := rank; size_ := size; store_ := store;
                 thcState_ := {| numDevices := visible_devices env (log s) |};
                 processGroupID_ := _ |});
      reflexivity.
  - apply Sys_eq; simpl; try reflexivity.
    now rewrite <- !app_assoc.
Qed.

Lemma dtor_steps this s :
  rtc Step s (snd (ProcessGroupNCCL_dtor this s)).
Proof.
  unfold ProcessGroupNCCL_dtor, bind at 1, deref.
  destruct (objects s !! this) as [o | ] eqn:Ho; [ | apply rtc_refl ].
  unfold bind at 1, lock, emit. unfold bind at 1, finally.
  destruct (stoull (processGroupID_ o)) as [k | ] eqn:Hk; simpl.
  - apply rtc_once. eapply Step_to; [ apply (step_destroy s this o k Ho Hk) | ].
    apply Sys_eq; simpl; try reflexivity. now rewrite <- !app_assoc.
  - apply rtc_once. eapply Step_to; [ apply (step_lock_only s) | ].
    apply Sys_eq; simpl; try reflexivity. now rewrite <- !app_assoc.
Qed.

Lemma broadcastUniqueNCCLID_run this ncclID s o :
  objects s !! this = Some o ->
  broadcastUniqueNCCLID this ncclID s
  = match stoull (processGroupID_ o) with
    | None =>
        (Throw (invalid_argument "stoull"),
         with_log s (log s ++ [Lock pgTrackingLock_; Unlock pgTrackingLock_]))
    | Some k =>
        if Z.eqb (rank_ o) 0 then
          (Ok ncclID, after_rendezvous o s k (Some (id_bytes ncclID)))
        else
          (match stores s !! (store_ o, rendezvous_key o s k) with
           | None => Blocked
           | Some val =>
               if Nat.eqb (length val) NCCL_UNIQUE_ID_BYTES
               then Ok {| internal := val |}
               else Throw (runtime_error msg_bad_id_length)
           end,
           after_rendezvous o s k None)
    end.
Proof.
  intros Ho.
  unfold broadcastUniqueNCCLID, bind at 1, deref. rewrite Ho.
  destruct (stoull (processGroupID_ o)) as [k | ] eqn:Hk;
    [ destruct (Z.eqb (rank_ o) 0) | ];
    cbv [bind lock unlock emit throw get_sys set_pgUniqueNCCLIDCnt store_set
         store_get ret rendezvous_key after_rendezvous];
    cbn [log stores pgUniqueNCCLIDCnt_ processGroupCounter_ objects
         with_log with_seq with_stores].
  - f_equal. apply Sys_eq; simpl; try reflexivity. now rewrite <- !app_assoc.
  - destruct (stores s !! _) as [v | ].
    + destruct (Nat.eqb (length v) NCCL_UNIQUE_ID_BYTES); cbn [negb];
        (f_equal; apply Sys_eq; simpl; try reflexivity; now rewrite <- !app_assoc).
    + f_equal. apply Sys_eq; simpl; try reflexivity. now rewrite <- !app_assoc.
  - f_equal. apply Sys_eq; simpl; try reflexivity. now rewrite <- !app_assoc.
Qed.

Lemma rendezvous_steps this ncclID s o :
  objects s !! this = Some o ->
  Step s (snd (broadcastUniqueNCCLID this ncclID s)) /\
  objects (snd (broadcastUniqueNCCLID this ncclID s)) = objects s.
Proof.
  intros Ho. rewrite (broadcastUniqueNCCLID_run this ncclID s o Ho).
  destruct (stoull (processGroupID_ o)) as [k | ] eqn:Hk.
  - destruct (Z.eqb (rank_ o) 0); simpl; (split; [ | reflexivity ]).
    + apply (step_rendezvous s this o k (Some (id_bytes ncclID)) Ho Hk).
    + apply (step_rendezvous s this o k None Ho Hk).
  - simpl. split; [ apply step_lock_only | reflexivity ].
Qed.

Lemma emplace_subscript_other {A} (m : gmap string (list A)) key v :
  is_empty key = false -> m !! "" = None ->
  snd (subscript (emplace m key v) key) !! "" = None.
Proof.
  intros Hkey Hm.
  assert (key <> "") by (intros ->; discriminate Hkey).
  unfold subscript, emplace.
  destruct (m !! key) eqn:E; simpl.
  - rewrite E. exact Hm.
  - rewrite lookup_insert_eq. simpl. now rewrite lookup_insert_ne.
Qed.

Section Refines.

Variable env : Env.
Variable this : nat.
Variable fields : Z * Z * nat * THCState * string.

Let known (o : ProcessGroupNCCL) : Prop :=
  ident o = fields /\ devNCCLCommMap_ o !! "" = None.

Lemma alive_log a :
  bookkeeping a = false -> logs_ok (alive this fields) (rtc Step) a.
Proof.
  intros Ha s Hs. split; [ | exact Hs ].
  apply rtc_once. now apply step_log.
Qed.

Lemma alive_plain a :
  plain a = true -> logs_ok (alive this fields) (rtc Step) a.
Proof.
  intros Ha. apply alive_log. unfold plain in Ha.
  destruct (bookkeeping a); [ now rewrite andb_false_r in Ha | reflexivity ].
Qed.

Lemma alive_collective a :
  collective a = true -> logs_ok (alive this fields) (rtc Step) a.
Proof. intros Ha. apply alive_log. now destruct a as [ [] | [] | | | | | | | | | | | | | | | | | | ]. Qed.

Lemma alive_deref : triple (alive this fields) (rtc Step) (deref this) known.
Proof.
  eapply triple_weaken; [ apply triple_deref; intros; apply rtc_refl | ].
  intros o (s & (o' & Ho' & Hid & Hc) & Ho).
  assert (o' = o) as -> by congruence. now split.
Qed.

Lemma with_caches_ident o o' comms streams events :
  ident o = ident o' ->
  with_caches o comms streams events = with_caches o' comms streams events.
Proof.
  unfold ident, with_caches. now intros [= -> -> -> -> ->].
Qed.

Lemma alive_assign self comms streams events :
  known self -> comms !! "" = None ->
  triple (alive this fields) (rtc Step)
    (assign this (with_caches self comms streams events)) any.
Proof.
  intros [Hid _] Hc.
  apply (triple_state (alive this fields) (rtc Step) tt).
  intros s (o & Ho & Hido & _). split.
  - apply rtc_once.
    rewrite (with_caches_ident self o) by congruence.
    now apply step_cache.
  - eexists. split; [ apply lookup_insert_eq | ].
    split; [ | exact Hc ]. rewrite <- Hid. reflexivity.
Qed.

Lemma alive_rendezvous ncclID :
  triple (alive this fields) (rtc Step) (broadcastUniqueNCCLID this ncclID) any.
Proof.
  intros s (o & Ho & Hid & Hc).
  destruct (rendezvous_steps this ncclID s o Ho) as [St Hobj].
  split; [ now apply rtc_once | ].
  split; [ | intros; exact I ].
  exists o. now rewrite Hobj.
Qed.

Lemma allreduce_steps tensors opts s :
  alive this fields s -> rtc Step s (snd (allreduce env this tensors opts s)).
Proof.
  intros Hs.
  refine (proj1 (triple_allreduce (alive this fields) (rtc Step)
                   (fun s => @rtc_refl Sys Step s) (fun s1 s2 s3 => @rtc_trans Sys Step s1 s2 s3)
                   env alive_plain this known (fun m => m !! "" = None)
                   alive_deref _ _ alive_assign alive_rendezvous
                   (fun a => collective a = true) alive_collective
                   tensors opts _ s Hs)).
  - now intros self [_ H].
  - intros m key v. apply emplace_subscript_other.
  - reflexivity.
Qed.

Lemma broadcast_steps tensors opts s :
  alive this fields s -> rtc Step s (snd (broadcast env this tensors opts s)).
Proof.
  intros Hs.
  refine (proj1 (triple_broadcast (alive this fields) (rtc Step)
                   (fun s => @rtc_refl Sys Step s) (fun s1 s2 s3 => @rtc_trans Sys Step s1 s2 s3)
                   env alive_plain this known (fun m => m !! "" = None)
                   alive_deref _ _ alive_assign alive_rendezvous
                   (fun a => collective a = true) alive_collective
                   tensors opts _ s Hs)).
  - now intros self [_ H].
  - intros m key v. apply emplace_subscript_other.
  - reflexivity.
Qed.

End Refines.

Lemma Step_cache_ok s s' : Step s s' -> cache_ok s -> cache_ok s'.
Proof.
  intros St Hs. destruct St; intros t o' Ho'; simpl in *;
    try (now apply (Hs t o' Ho')).
  - destruct (decide (this = t)) as [-> | Hne].
    + rewrite lookup_insert_eq in Ho'. injection Ho' as <-. assumption.
    + rewrite lookup_insert_ne in Ho' by exact Hne. now apply (Hs t o' Ho').
  - destruct (decide (this = t)) as [-> | Hne].
    + rewrite lookup_insert_eq in Ho'. injection Ho' as <-.
      match goal with H : devNCCLCommMap_ _ = ∅ |- _ => rewrite H end.
      apply lookup_empty.
    + rewrite lookup_insert_ne in Ho' by exact Hne. now apply (Hs t o' Ho').
  - apply lookup_delete_Some in Ho' as [_ Ho']. now apply (Hs t o' Ho').
Qed.

Lemma Steps_cache_ok s s' : rtc Step s s' -> cache_ok s -> cache_ok s'.
Proof. induction 1; eauto using Step_cache_ok. Qed.

Lemma step_steps env op s :
  cache_ok s -> rtc Step s (snd (step env op s)).
Proof.
  intros Hs.
  assert (F : forall A (m : M A), snd (forget m s) = snd (m s)).
  { intros A m. unfold forget, bind. now destruct (m s) as [[ | | | ] ?]. }
  destruct op as [store rank size | this | this tensors opts | this tensors opts];
    simpl; rewrite ?F.
  - apply ctor_steps.
  - apply dtor_steps.
  - destruct (objects s !! this) as [o | ] eqn:Ho.
    + apply (allreduce_steps env this (ident o)). exists o. eauto.
    + unfold allreduce, bind, deref. rewrite Ho. apply rtc_refl.
  - destruct (objects s !! this) as [o | ] eqn:Ho.
    + apply (broadcast_steps env this (ident o)). exists o. eauto.
    + unfold broadcast, bind, deref. rewrite Ho. apply rtc_refl.
Qed.

Lemma occur_steps env ev s :
  cache_ok s -> rtc Step s (snd (occur env ev s)).
Proof.
  destruct ev as [op | st key val]; simpl.
  - apply step_steps.
  - intros _. apply rtc_once, step_peer.
Qed.

Lemma run_steps env evs :
  forall s, cache_ok s -> rtc Step s (run env evs s).
Proof.
  induction evs as [ | ev evs IH ]; intros s Hs; simpl; [ apply rtc_refl | ].
  pose proof (occur_steps env ev s Hs) as St.
  pose proof (Steps_cache_ok _ _ St Hs) as Hs'.
  destruct (occur env ev s) as [[[] | e | | ] s1]; simpl in *;
    try exact St; (etransitivity; [ exact St | now apply IH ]).
Qed.

Lemma Sys_init_cache_ok : cache_ok Sys_init.
Proof. intros this o Ho. simpl in Ho. now rewrite lookup_empty in Ho. Qed.

(** *** The communicator cache *)

Lemma run_cache_ok env evs : cache_ok (run env evs Sys_init).
Proof.
  apply (Steps_cache_ok Sys_init); [ | apply Sys_init_cache_ok ].
  apply run_steps, Sys_init_cache_ok.
Qed.

Lemma getNCCLComm_hit env this self key devices comms s :
  objects s !! this = Some self ->
  is_empty key = false ->
  devNCCLCommMap_ self !! key = Some comms ->
  getNCCLComm env this key devices s = (Ok comms, s).
Proof.
  intros Ho Hk Hc. unfold getNCCLComm, bind, deref.
  now rewrite Ho, Hk, Hc.
Qed.

Lemma getNCCLComm_Ok_cached env this key devices s comms s' :
  getNCCLComm env this key devices s = (Ok comms, s') ->
  is_empty key = false /\
  exists self', objects s' !! this = Some self' /\
                devNCCLCommMap_ self' !! key = Some comms.
Proof.
  intros E. unfold getNCCLComm in E.
  apply bind_Ok in E as (self & ? & [Hself ->]%deref_Ok & E).
  destruct (is_empty key); [ discriminate E | ].
  split; [ reflexivity | ].
  destruct (devNCCLCommMap_ self !! key) as [c | ] eqn:Hc.
  - injection E as <- <-. eauto.
  - apply bind_Ok in E as (id0 & ? & _ & E).
    apply bind_Ok in E as (id & ? & _ & E).
    apply bind_Ok in E as (? & ? & _ & E).
    apply bind_Ok in E as (? & ? & _ & E).
    apply bind_Ok in E as (created & ? & _ & E).
    apply bind_Ok in E as (? & ? & _ & E).
    apply bind_Ok in E as (? & sk & _ & E).
    unfold emplace at 1 in E. rewrite Hc in E.
    unfold subscript in E. rewrite lookup_insert_eq in E.
    apply bind_Ok in E as (? & ? & Ha & E).
    injection E as <- <-. injection Ha as _ <-.
    eexists. split; [ apply lookup_insert_eq | ].
    simpl. apply lookup_insert_eq.
Qed.

(** *** The invariants hold in every state of every history *)

Lemma store_key_inj g v g' v' : store_key g v = store_key g' v' -> g = g' /\ v = v'.
Proof.
  unfold store_key. intros H.
  apply split_at_sep in H as [Hg Hv]; try (now apply to_string_chars).
  split; now apply to_string_inj.
Qed.

Lemma store_keys_app l l' : store_keys (l ++ l') = (store_keys l ++ store_keys l')%list.
Proof. apply omap_app. Qed.

Lemma assigned_ids_app l l' :
  assigned_ids (l ++ l') = (assigned_ids l ++ assigned_ids l')%list.
Proof. apply omap_app. Qed.

Lemma held_after_app h l l' :
  held_after h (l ++ l') = held_after (held_after h l) l'.
Proof. apply fold_left_app. Qed.

Lemma guarded_app l l' :
  forall h, guarded h (l ++ l') = guarded h l && guarded (held_after h l) l'.
Proof.
  induction l as [ | a l IH ]; intros h; [ reflexivity | ].
  destruct a as [ [] | [] | | | | | | | | | | | | | | | | | | ];
    simpl; rewrite ?IH; try reflexivity; destruct h; reflexivity.
Qed.

Lemma Inv_init : Inv Sys_init.
Proof.
  split.
  - unfold counter_bounded. simpl. lia.
  - intros this o Ho. simpl in Ho. now rewrite lookup_empty in Ho.
  - intros t1 t2 o1 o2 Ho. simpl in Ho. now rewrite lookup_empty in Ho.
  - intros key Hk. simpl in Hk. now apply elem_of_nil in Hk.
  - simpl. constructor.
  - split; simpl; constructor.
  - split; reflexivity.
Qed.

Lemma Step_log_le s s' : Step s s' -> (length (log s) <= length (log s'))%nat.
Proof.
  intros []; simpl; rewrite ?length_app; simpl; lia.
Qed.

Lemma Steps_no_overflow s s' : rtc Step s s' -> no_overflow s' -> no_overflow s.
Proof.
  unfold no_overflow. induction 1 as [ | s s1 s2 St _ IH ]; [ trivial | ].
  intros H. apply Step_log_le in St. specialize (IH H). lia.
Qed.

Lemma quiet_action a :
  bookkeeping a = false ->
  store_keys [a] = [] /\ assigned_ids [a] = [] /\
  guarded false [a] = true /\ held_after false [a] = false.
Proof.
  destruct a as [ [] | [] | | | | | | | | | | | | | | | | | | ];
    try discriminate; intros _; repeat split.
Qed.

(** A step that leaves the statics, the stores and the identity of the live
    groups alone, and logs nothing the invariant looks at. *)
Lemma Inv_frame s s' l :
  pgUniqueNCCLIDCnt_ s' = pgUniqueNCCLIDCnt_ s ->
  processGroupCounter_ s' = processGroupCounter_ s ->
  (forall t o', objects s' !! t = Some o' ->
                exists o, objects s !! t = Some o /\
                          processGroupID_ o' = processGroupID_ o) ->
  log s' = (log s ++ l)%list ->
  store_keys l = [] -> assigned_ids l = [] ->
  guarded false l = true -> held_after false l = false ->
  Inv s -> Inv s'.
Proof.
  intros Hm Hc Ho Hl Hk Hi Hg Hh [I1 I2 I3 I4 I5 I6 [I7 I8]].
  assert (Hlen : (length (log s) <= length (log s'))%nat)
    by (rewrite Hl, length_app; lia).
  split.
  - unfold counter_bounded in *. rewrite Hc. lia.
  - intros t o' Ht. destruct (Ho t o' Ht) as (o & Ht' & Hid).
    destruct (I2 t o Ht') as (g & Hg1 & Hg2 & v & Hv1 & Hv2).
    exists g. rewrite Hc, Hm, Hid. repeat split; try lia; trivial.
    exists v. split; [ trivial | lia ].
  - intros t1 t2 o1 o2 H1 H2 Hid.
    destruct (Ho t1 o1 H1) as (o1' & H1' & E1).
    destruct (Ho t2 o2 H2) as (o2' & H2' & E2).
    apply (I3 t1 t2 o1' o2' H1' H2'). congruence.
  - intros key Hkey. rewrite Hl, store_keys_app, Hk, app_nil_r in Hkey.
    destruct (I4 key Hkey) as (g & v & -> & Hg1 & Hg2).
    exists g, v. rewrite Hc, Hm. auto.
  - now rewrite Hl, store_keys_app, Hk, app_nil_r.
  - destruct I6 as [S F]. unfold ids_increasing.
    rewrite Hl, assigned_ids_app, Hi, app_nil_r, Hc. now split.
  - split.
    + now rewrite Hl, guarded_app, I7, I8.
    + now rewrite Hl, held_after_app, I8.
Qed.

Lemma live_key s this o k :
  Inv s -> no_overflow s ->
  objects s !! this = Some o -> stoull (processGroupID_ o) = Some k ->
  exists v,
    to_ssize_t k = k /\ 0 <= k <= processGroupCounter_ s /\
    processGroupID_ o = to_string k /\
    pgUniqueNCCLIDCnt_ s !! k = Some v /\ -1 <= v < Z.of_nat (length (log s)).
Proof.
  intros [I1 I2 _ _ _ _ _] Hov Ho Hk.
  destruct (I2 this o Ho) as (g & Hg1 & Hg2 & v & Hv1 & Hv2).
  unfold counter_bounded, no_overflow in *.
  rewrite Hg2, stoull_to_string in Hk by lia. injection Hk as <-.
  exists v. rewrite to_ssize_t_id by (unfold ssize_range; lia). auto.
Qed.

Lemma sorted_snoc (l : list Z) c :
  StronglySorted Z.lt l -> Forall (fun g => g < c) l ->
  StronglySorted Z.lt (l ++ [c]).
Proof.
  induction 1 as [ | x l S IH F ]; intros Hc; simpl.
  - repeat constructor.
  - apply Forall_cons in Hc as [Hx Hc]. constructor; [ now apply IH | ].
    apply Forall_app. split; [ exact F | now repeat constructor ].
Qed.

Lemma Inv_construct s this o :
  let c := to_ssize_t (processGroupCounter_ s + 1) in
  let s' := {| pgUniqueNCCLIDCnt_ := <[c := -1]> (pgUniqueNCCLIDCnt_ s);
               processGroupCounter_ := c;
               stores := stores s;
               objects := <[this := o]> (objects s);
               log := log s ++ [Lock pgTrackingLock_; CounterSet c; SeqSet c (-1);
                                Unlock pgTrackingLock_] |} in
  processGroupID_ o = to_string c ->
  no_overflow s' -> Inv s -> Inv s'.
Proof.
  intros c s' Hid Hov [I1 I2 I3 I4 I5 I6 [I7 I8]].
  unfold no_overflow, counter_bounded in *. simpl in Hov.
  rewrite length_app in Hov. simpl in Hov.
  assert (Hc : c = processGroupCounter_ s + 1)
    by (apply to_ssize_t_id; unfold ssize_range; lia).
  clearbody c. subst c.
  split.
  - unfold counter_bounded. simpl. rewrite length_app. simpl. lia.
  - intros t o' Ht. simpl in *.
    destruct (decide (this = t)) as [-> | Hne].
    + rewrite lookup_insert_eq in Ht. injection Ht as <-.
      exists (processGroupCounter_ s + 1). repeat split; try lia; trivial.
      exists (-1). rewrite lookup_insert_eq, length_app. simpl. split; [ trivial | lia ].
    + rewrite lookup_insert_ne in Ht by exact Hne.
      destruct (I2 t o' Ht) as (g & Hg1 & Hg2 & v & Hv1 & Hv2).
      exists g. repeat split; try lia; trivial.
      exists v. rewrite lookup_insert_ne by lia. rewrite length_app. simpl.
      split; [ trivial | lia ].
  - intros t1 t2 o1 o2 H1 H2 E. simpl in *.
    destruct (decide (t1 = this)) as [-> | N1], (decide (t2 = this)) as [-> | N2];
      trivial.
    + rewrite lookup_insert_eq in H1. injection H1 as <-.
      rewrite lookup_insert_ne in H2 by congruence.
      destruct (I2 t2 o2 H2) as (g & Hg1 & Hg2 & _).
      rewrite Hid, Hg2 in E. apply to_string_inj in E. lia.
    + rewrite lookup_insert_eq in H2. injection H2 as <-.
      rewrite lookup_insert_ne in H1 by congruence.
      destruct (I2 t1 o1 H1) as (g & Hg1 & Hg2 & _).
      rewrite Hid, Hg2 in E. apply to_string_inj in E. lia.
    + rewrite lookup_insert_ne in H1, H2 by congruence. eauto.
  - intros key Hkey. simpl in *.
    rewrite store_keys_app in Hkey. simpl in Hkey. rewrite app_nil_r in Hkey.
    destruct (I4 key Hkey) as (g & v & -> & Hg1 & Hg2).
    exists g, v. repeat split; try lia.
    intros v'. rewrite lookup_insert_ne by lia. apply Hg2.
  - simpl. rewrite store_keys_app. simpl. now rewrite app_nil_r.
  - destruct I6 as [S F]. unfold ids_increasing. simpl.
    rewrite assigned_ids_app. simpl. split.
    + apply sorted_snoc; [ exact S | ].
      eapply Forall_impl; [ exact F | ]. simpl. intros; lia.
    + apply Forall_app. split.
      * eapply Forall_impl; [ exact F | ]. simpl. intros; lia.
      * repeat constructor; lia.
  - split; simpl.
    + now rewrite guarded_app, I7, I8.
    + now rewrite held_after_app, I8.
Qed.

Lemma Inv_destroy s this o k :
  let s' := {| pgUniqueNCCLIDCnt_ := delete (to_ssize_t k) (pgUniqueNCCLIDCnt_ s);
               processGroupCounter_ := processGroupCounter_ s;
               stores := stores s;
               objects := delete this (objects s);
               log := log s ++ [Lock pgTrackingLock_; SeqErase (to_ssize_t k);
                                Unlock pgTrackingLock_] |} in
  objects s !! this = Some o -> stoull (processGroupID_ o) = Some k ->
  no_overflow s' -> Inv s -> Inv s'.
Proof.
  intros s' Ho Hk Hov I.
  assert (Hov0 : no_overflow s).
  { unfold no_overflow in *. simpl in Hov. rewrite length_app in Hov. simpl in Hov. lia. }
  destruct (live_key s this o k I Hov0 Ho Hk) as (v0 & Ek & Hk1 & Hid & Hv0 & Hv0').
  destruct I as [I1 I2 I3 I4 I5 I6 [I7 I8]].
  subst s'. rewrite Ek.
  split.
  - unfold counter_bounded in *. simpl. rewrite length_app. simpl. lia.
  - intros t o' Ht. simpl in *.
    apply lookup_delete_Some in Ht as [Hne Ht].
    destruct (I2 t o' Ht) as (g & Hg1 & Hg2 & v & Hv1 & Hv2).
    exists g. repeat split; try lia; trivial.
    exists v. rewrite length_app. simpl. split; [ | lia ].
    rewrite lookup_delete_ne; [ exact Hv1 | ].
    intros <-. apply Hne. apply (I3 this t o o' Ho Ht). congruence.
  - intros t1 t2 o1 o2 H1 H2 E. simpl in *.
    apply lookup_delete_Some in H1 as [_ H1].
    apply lookup_delete_Some in H2 as [_ H2]. eauto.
  - intros key Hkey. simpl in *.
    rewrite store_keys_app in Hkey. simpl in Hkey. rewrite app_nil_r in Hkey.
    destruct (I4 key Hkey) as (g & v & -> & Hg1 & Hg2).
    exists g, v. repeat split; try lia.
    intros v' [_ Hv']%lookup_delete_Some. now apply Hg2.
  - simpl. rewrite store_keys_app. simpl. now rewrite app_nil_r.
  - destruct I6 as [S F]. unfold ids_increasing. simpl.
    rewrite assigned_ids_app. simpl. rewrite app_nil_r. now split.
  - split; simpl.
    + now rewrite guarded_app, I7, I8.
    + now rewrite held_after_app, I8.
Qed.

Lemma Inv_rendezvous s this o k publish :
  objects s !! this = Some o -> stoull (processGroupID_ o) = Some k ->
  no_overflow (after_rendezvous o s k publish) ->
  Inv s -> Inv (after_rendezvous o s k publish).
Proof.
  intros Ho Hk Hov I.
  assert (Hov0 : no_overflow s).
  { unfold no_overflow in *. simpl in Hov. rewrite length_app in Hov. simpl in Hov. lia. }
  destruct (live_key s this o k I Hov0 Ho Hk) as (v0 & Ek & Hk1 & Hid & Hv0 & Hv0').
  destruct I as [I1 I2 I3 I4 I5 I6 [I7 I8]].
  unfold no_overflow in Hov0.
  assert (Ev : to_ssize_t (default 0 (pgUniqueNCCLIDCnt_ s !! k) + 1) = v0 + 1).
  { rewrite Hv0. simpl. apply to_ssize_t_id. unfold ssize_range. lia. }
  assert (Ekey : rendezvous_key o s k = store_key k (v0 + 1)).
  { unfold rendezvous_key, store_key. now rewrite Ek, Ev, Hid. }
  assert (Ekeys : store_keys (log (after_rendezvous o s k publish))
                  = (store_keys (log s) ++ [store_key k (v0 + 1)])%list).
  { simpl. rewrite store_keys_app. f_equal. rewrite Ekey.
    destruct publish; reflexivity. }
  assert (Eids : assigned_ids (log (after_rendezvous o s k publish))
                 = assigned_ids (log s)).
  { simpl. rewrite assigned_ids_app.
    destruct publish; simpl; now rewrite app_nil_r. }
  assert (Elen : length (log (after_rendezvous o s k publish))
                 = (length (log s) + 4)%nat).
  { simpl. rewrite length_app. reflexivity. }
  assert (Emap : pgUniqueNCCLIDCnt_ (after_rendezvous o s k publish)
                 = <[k := v0 + 1]> (pgUniqueNCCLIDCnt_ s)).
  { simpl. now rewrite Ek, Ev. }
  split.
  - unfold counter_bounded in *. rewrite Elen. simpl. lia.
  - intros t o' Ht. simpl in Ht.
    destruct (I2 t o' Ht) as (g & Hg1 & Hg2 & v & Hv1 & Hv2).
    exists g. repeat split; try (simpl; lia); trivial.
    rewrite Emap, Elen.
    destruct (decide (k = g)) as [<- | Hne].
    + exists (v0 + 1). rewrite lookup_insert_eq. split; [ trivial | lia ].
    + exists v. rewrite lookup_insert_ne by exact Hne. split; [ trivial | lia ].
  - exact I3.
  - intros key Hkey. rewrite Ekeys in Hkey. rewrite Emap.
    apply elem_of_app in Hkey as [Hkey | Hkey%list_elem_of_singleton].
    + destruct (I4 key Hkey) as (g & v & -> & Hg1 & Hg2).
      exists g, v. repeat split; try (simpl; lia).
      intros v'. destruct (decide (k = g)) as [<- | Hne].
      * rewrite lookup_insert_eq. intros [= <-].
        specialize (Hg2 v0 Hv0). lia.
      * rewrite lookup_insert_ne by exact Hne. apply Hg2.
    + subst key. exists k, (v0 + 1). repeat split; try (simpl; lia).
      intros v'. rewrite lookup_insert_eq. intros [= <-]. lia.
  - rewrite Ekeys. apply NoDup_app. repeat split; [ exact I5 | | apply NoDup_singleton ].
    intros key Hkey Hnew%list_elem_of_singleton. subst key.
    destruct (I4 _ Hkey) as (g & v & E & Hg1 & Hg2).
    apply store_key_inj in E as [<- <-].
    specialize (Hg2 v0 Hv0). lia.
  - destruct I6 as [S F]. unfold ids_increasing. rewrite Eids. now split.
  - split; simpl.
    + rewrite guarded_app, I7, I8. now destruct publish.
    + rewrite held_after_app, I8. now destruct publish.
Qed.

Lemma Inv_Step s s' : Step s s' -> no_overflow s' -> Inv s -> Inv s'.
Proof.
  intros St Hov I. destruct St.
  - destruct (quiet_action a H) as (Hk & Hi & Hg & Hh).
    eapply (Inv_frame s _ [a]); eauto.
  - apply (Inv_frame s _ []); simpl; trivial; [ | now rewrite app_nil_r ].
    intros t o' Ht. destruct (decide (this = t)) as [<- | Hne].
    + rewrite lookup_insert_eq in Ht. injection Ht as <-. eauto.
    + rewrite lookup_insert_ne in Ht by exact Hne. eauto.
  - now apply Inv_construct.
  - now apply (Inv_destroy s this o k).
  - apply (Inv_frame s _ [Lock pgTrackingLock_; Unlock pgTrackingLock_]);
      simpl; eauto.
  - now apply (Inv_rendezvous s this o k publish).
  - apply (Inv_frame s _ []); simpl; eauto. now rewrite app_nil_r.
Qed.

Lemma Inv_Steps s s' : rtc Step s s' -> no_overflow s' -> Inv s -> Inv s'.
Proof.
  induction 1 as [ | s s1 s2 St Sts IH ]; [ trivial | ].
  intros Hov I. apply IH; [ exact Hov | ].
  apply (Inv_Step s s1 St); [ | exact I ].
  now apply (Steps_no_overflow s1 s2).
Qed.

Lemma Inv_run env evs :
  no_overflow (run env evs Sys_init) -> Inv (run env evs Sys_init).
Proof.
  intros Hov. apply (Inv_Steps Sys_init); [ | exact Hov | apply Inv_init ].
  apply run_steps, Sys_init_cache_ok.
Qed.

(** *** Rendezvous *)

Lemma id_bytes_length ncclID : length (id_bytes ncclID) = NCCL_UNIQUE_ID_BYTES.
Proof.
  unfold id_bytes. rewrite length_take, length_app, repeat_length. lia.
Qed.

Lemma lookup_repeat {A} (x : A) n :
  forall j, (j < n)%nat -> repeat x n !! j = Some x.
Proof.
  induction n as [ | n IH ]; intros [ | j ] Hj; simpl; try lia;
    [ reflexivity | apply IH; lia ].
Qed.

Lemma id_bytes_lookup ncclID i :
  (i < NCCL_UNIQUE_ID_BYTES)%nat ->
  id_bytes ncclID !! i = Some (nth i (internal ncclID) Byte.x00).
Proof.
  intros Hi. unfold id_bytes.
  rewrite lookup_take_lt by exact Hi.
  destruct (internal ncclID !! i) as [b | ] eqn:Hb.
  - rewrite (lookup_app_l_Some _ _ _ _ Hb). f_equal.
    symmetry. apply nth_lookup_Some with (d := Byte.x00) in Hb. exact Hb.
  - apply lookup_ge_None in Hb.
    rewrite lookup_app_r by exact Hb.
    rewrite nth_overflow by exact Hb.
    apply lookup_repeat. lia.
Qed.

(** C6: in [broadcastUniqueNCCLID], rank 0 sets the token under the store
    key and every other rank gets the same key; the token set is the 128
    bytes of the identifier, byte by byte, and a rank that gets what was
    set retrieves it; a retrieved value whose length is not the token size raises the
    error; the key is "{groupID}_{sequenceNumber}", the sequence number
    being the group's counter after its increment, which happens while the
    tracking lock is held; and in a history of the process, whatever the
    ranks of its groups and whatever the peers publish, no store key is
    ever used twice. *)
Theorem rendezvous_exchange
    (env : Env) (evs : list Event) (this : nat) (ncclID : ncclUniqueId)
    (s : Sys) (o : ProcessGroupNCCL) (k : Z) :
  objects s !! this = Some o ->
  stoull (processGroupID_ o) = Some k ->
  let key := rendezvous_key o s k in
  let seq := to_ssize_t (default 0 (pgUniqueNCCLIDCnt_ s !! to_ssize_t k) + 1) in
  broadcastUniqueNCCLID this ncclID s
  = (if Z.eqb (rank_ o) 0 then Ok ncclID
     else match stores s !! (store_ o, key) with
          | None => Blocked
          | Some val =>
              if Nat.eqb (length val) NCCL_UNIQUE_ID_BYTES
              then Ok {| internal := val |}
              else Throw (runtime_error msg_bad_id_length)
          end,
     after_rendezvous o s k
       (if Z.eqb (rank_ o) 0 then Some (id_bytes ncclID) else None)) /\
  key = processGroupID_ o +:+ ("_" +:+ to_string seq) /\
  (forall publish,
      pgUniqueNCCLIDCnt_ (after_rendezvous o s k publish) !! to_ssize_t k = Some seq /\
      stores (after_rendezvous o s k publish)
      = match publish with
        | Some bytes => <[(store_ o, key) := bytes]> (stores s)
        | None => stores s
        end /\
      exists action,
        log (after_rendezvous o s k publish)
        = (log s ++ [Lock pgTrackingLock_; SeqSet (to_ssize_t k) seq;
                     Unlock pgTrackingLock_; action])%list /\
        action = match publish with
                 | Some bytes => StoreSet (store_ o) key bytes
                 | None => StoreGet (store_ o) key
                 end /\
        guarded false [Lock pgTrackingLock_; SeqSet (to_ssize_t k) seq;
                       Unlock pgTrackingLock_; action] = true) /\
  (length (id_bytes ncclID) = NCCL_UNIQUE_ID_BYTES /\
   (forall i, (i < NCCL_UNIQUE_ID_BYTES)%nat ->
              id_bytes ncclID !! i = Some (nth i (internal ncclID) Byte.x00)) /\
   (rank_ o = 0 ->
    stores (snd (broadcastUniqueNCCLID this ncclID s)) !! (store_ o, key)
    = Some (id_bytes ncclID))) /\
  (rank_ o <> 0 ->
   forall token,
     stores s !! (store_ o, key) = Some (id_bytes token) ->
     broadcastUniqueNCCLID this ncclID s
     = (Ok {| internal := id_bytes token |}, after_rendezvous o s k None)) /\
  (no_overflow (run env evs Sys_init) ->
   NoDup (store_keys (log (run env evs Sys_init))) /\
   guarded false (log (run env evs Sys_init)) = true /\
   forall this' o',
     objects (run env evs Sys_init) !! this' = Some o' ->
     exists g v,
       processGroupID_ o' = to_string g /\
       pgUniqueNCCLIDCnt_ (run env evs Sys_init) !! g = Some v /\
       rendezvous_key o' (run env evs Sys_init) g = store_key g (v + 1) /\
       store_key g (v + 1) ∉ store_keys (log (run env evs Sys_init))).
Proof.
  intros Ho Hk key seq.
  assert (Hrun : broadcastUniqueNCCLID this ncclID s
                 = (if Z.eqb (rank_ o) 0 then Ok ncclID
                    else match stores s !! (store_ o, key) with
                         | None => Blocked
                         | Some val =>
                             if Nat.eqb (length val) NCCL_UNIQUE_ID_BYTES
                             then Ok {| internal := val |}
                             else Throw (runtime_error msg_bad_id_length)
                         end,
                    after_rendezvous o s k
                      (if Z.eqb (rank_ o) 0 then Some (id_bytes ncclID) else None))).
  { rewrite (broadcastUniqueNCCLID_run this ncclID s o Ho), Hk.
    now destruct (Z.eqb (rank_ o) 0). }
  split; [ exact Hrun | ].
  split; [ reflexivity | ].
  split.
  { intros publish. split; [ apply lookup_insert_eq | ].
    split; [ reflexivity | ].
    eexists. split; [ reflexivity | ]. split; [ reflexivity | ].
    now destruct publish. }
  split.
  { split; [ apply id_bytes_length | ].
    split; [ apply id_bytes_lookup | ].
    intros Hr. rewrite Hrun, Hr. simpl. apply lookup_insert_eq. }
  split.
  { intros Hr token Hget. rewrite Hrun.
    apply Z.eqb_neq in Hr. rewrite Hr, Hget, id_bytes_length, Nat.eqb_refl.
    reflexivity. }
  intros Hov. pose proof (Inv_run env evs Hov) as I.
  split; [ apply (inv_fresh _ I) | ].
  split; [ apply (inv_guard _ I) | ].
  intros this' o' Ho'.
  destruct (inv_live _ I this' o' Ho') as (g & Hg1 & Hg2 & v & Hv1 & Hv2).
  pose proof (inv_counter _ I) as Hc. unfold counter_bounded, no_overflow in *.
  exists g, v. repeat split; trivial.
  - unfold rendezvous_key, store_key.
    rewrite (to_ssize_t_id g) by (unfold ssize_range; lia).
    rewrite Hv1, Hg2. simpl.
    now rewrite to_ssize_t_id by (unfold ssize_range; lia).
  - intros Hin.
    destruct (inv_keys _ I _ Hin) as (g' & v' & E & _ & Hle).
    apply store_key_inj in E as [<- <-].
    specialize (Hle v Hv1). lia.
Qed.

Lemma rendezvous_exchange_witness :
  broadcastUniqueNCCLID 0 {| internal := [Byte.x2a] |} sample_sys
  = (Ok {| internal := [Byte.x2a] |},
     after_rendezvous sample_root_group sample_sys 0
       (Some (id_bytes {| internal := [Byte.x2a] |}))) /\
  NoDup (store_keys (log (run env_ready sample_peer_history Sys_init))).
Proof.
  assert (Hobj : objects sample_sys !! 0%nat = Some sample_root_group)
    by (vm_compute; reflexivity).
  destruct (rendezvous_exchange env_ready sample_peer_history 0%nat
              {| internal := [Byte.x2a] |} sample_sys sample_root_group 0
              Hobj eq_refl) as (H1 & _ & _ & _ & _ & H6).
  split; [ exact H1 | ].
  apply H6. vm_compute. reflexivity.
Defined.

(** In the sample history of rank 1 the all-reduce got past the rendezvous:
    it retrieved the token under "0_0", created its communicators with it
    and cached them under the key of devices 0 and 1. *)
Example sample_peer_history_passes :
  let s := run env_ready sample_peer_history Sys_init in
  store_keys (log s) = ["0_0"] /\
  match objects s !! 0%nat with
  | Some self =>
      rank_ self = 1 /\
      (map comm_uniqueId <$> devNCCLCommMap_ self !! "0,1")
      = Some [ {| internal := sample_token |}; {| internal := sample_token |} ]
  | None => False
  end.
Proof. vm_compute. repeat split. Qed.

(** *** Group ids *)

Lemma ctor_run env store rank size s :
  let c := to_ssize_t (processGroupCounter_ s + 1) in
  processGroupCounter_ (snd (ProcessGroupNCCL_ctor env store rank size s)) = c /\
  log (snd (ProcessGroupNCCL_ctor env store rank size s))
  = (log s ++ [LazyInitCUDA; Lock pgTrackingLock_; CounterSet c; SeqSet c (-1);
               Unlock pgTrackingLock_])%list /\
  exists o,
    fst (ProcessGroupNCCL_ctor env store rank size s) = Ok (length (log s)) /\
    objects (snd (ProcessGroupNCCL_ctor env store rank size s)) !! length (log s)
    = Some o /\
    processGroupID_ o = to_string c.
Proof.
  intros c. split; [ reflexivity | ].
  split; [ simpl; now rewrite <- !app_assoc | ].
  eexists. split; [ reflexivity | ].
  split; [ simpl; apply lookup_insert_eq | reflexivity ].
Qed.

Lemma dtor_run this s :
  processGroupCounter_ (snd (ProcessGroupNCCL_dtor this s)) = processGroupCounter_ s /\
  assigned_ids (log (snd (ProcessGroupNCCL_dtor this s))) = assigned_ids (log s).
Proof.
  unfold ProcessGroupNCCL_dtor.
  cbv [bind deref lock unlock emit finally erase_pgUniqueNCCLIDCnt release throw].
  destruct (objects s !! this) as [o | ]; [ | now split ].
  destruct (stoull (processGroupID_ o)) as [k | ];
    cbn [snd fst log processGroupCounter_ with_log with_seq with_objects];
    (split; [ reflexivity | ]);
    rewrite !assigned_ids_app; simpl; now rewrite !app_nil_r.
Qed.

(** C9: the group ids handed out in a process are strictly increasing in
    construction order, in every history of the process: whatever the
    ranks of its groups, whatever its collectives do (return, throw or
    stay blocked in a rendezvous) and whatever the peers publish.  Every
    id handed out so far is at most the counter, and the constructor makes
    the counter one larger and gives its new value to the group, all while
    the tracking lock is held; the destructor leaves the counter as it is
    and hands out nothing; and two live groups never share an id. *)
Theorem group_ids_strictly_increasing
    (env : Env) (evs : list Event) (store : nat) (rank size : Z)
    (this : nat) (s : Sys) :
  no_overflow (run env evs Sys_init) ->
  StronglySorted Z.lt (assigned_ids (log (run env evs Sys_init))) /\
  Forall (fun g => 0 <= g <= processGroupCounter_ (run env evs Sys_init))
    (assigned_ids (log (run env evs Sys_init))) /\
  guarded false (log (run env evs Sys_init)) = true /\
  ids_unique (run env evs Sys_init) /\
  (let c := to_ssize_t (processGroupCounter_ s + 1) in
   processGroupCounter_ (snd (ProcessGroupNCCL_ctor env store rank size s)) = c /\
   log (snd (ProcessGroupNCCL_ctor env store rank size s))
   = (log s ++ [LazyInitCUDA; Lock pgTrackingLock_; CounterSet c; SeqSet c (-1);
                Unlock pgTrackingLock_])%list /\
   exists o,
     fst (ProcessGroupNCCL_ctor env store rank size s) = Ok (length (log s)) /\
     objects (snd (ProcessGroupNCCL_ctor env store rank size s)) !! length (log s)
     = Some o /\
     processGroupID_ o = to_string c) /\
  processGroupCounter_ (snd (ProcessGroupNCCL_dtor this s)) = processGroupCounter_ s /\
  assigned_ids (log (snd (ProcessGroupNCCL_dtor this s))) = assigned_ids (log s).
Proof.
  intros Hov. pose proof (Inv_run env evs Hov) as I.
  split; [ apply (inv_ids _ I) | ].
  split; [ apply (inv_ids _ I) | ].
  split; [ apply (inv_guard _ I) | ].
  split; [ apply (inv_unique _ I) | ].
  split; [ apply ctor_run | apply dtor_run ].
Qed.

Lemma group_ids_strictly_increasing_witness :
  StronglySorted Z.lt (assigned_ids (log (run env_ready sample_lifecycle Sys_init))).
Proof.
  apply (group_ids_strictly_increasing env_ready sample_lifecycle 0%nat 0 2 0%nat
           Sys_init).
  vm_compute. reflexivity.
Defined.

(** The ids the sample process handed out: the all-reduce that stays
    blocked after the first construction does not end the history. *)
Example sample_lifecycle_ids :
  assigned_ids (log (run env_ready sample_lifecycle Sys_init)) = [0; 1; 2].
Proof. vm_compute. reflexivity. Qed.

(** * Further properties of the translation unit *)

(** *** Validation accepts exactly the valid sequences *)

Lemma pair_violation_None_iff input_0 ratio x y :
  pair_violation (numel input_0) ratio (scalarType input_0) [] x y = None
  <-> pair_valid input_0 ratio x y.
Proof.
  unfold pair_violation, pair_valid, dense_on_device.
  destruct (is_cuda x), (is_sparse x), (is_cuda y), (is_sparse y); simpl;
    try (split; [ discriminate | intros H; decompose [and] H; discriminate ]).
  destruct (decide (scalarType x = scalarType input_0)) as [Hx | Hx];
    destruct (decide (scalarType y = scalarType input_0)) as [Hy | Hy];
    try (rewrite (bool_decide_eq_false_2
                    (scalarType x = scalarType input_0 /\
                     scalarType y = scalarType input_0)) by tauto;
         simpl; split; [ discriminate | intros H; decompose [and] H; contradiction ]).
  rewrite (bool_decide_eq_true_2
             (scalarType x = scalarType input_0 /\ scalarType y = scalarType input_0))
    by tauto.
  simpl.
  destruct (Z.eqb_spec (numel x) (numel input_0)) as [Hn | Hn]; simpl;
    [ | split; [ discriminate | intros H; decompose [and] H; contradiction ] ].
  destruct (Z.eqb_spec (numel y) (to_ssize_t (numel input_0 * ratio))) as [Ho | Ho];
    simpl; [ | split; [ discriminate | intros H; decompose [and] H; contradiction ] ].
  destruct (is_contiguous x), (is_contiguous y); simpl;
    try (split; [ discriminate | intros H; decompose [and] H; discriminate ]).
  rewrite ?(bool_decide_eq_false_2 (get_device x ∈ @nil Z)) by apply not_elem_of_nil.
  destruct (Z.eqb_spec (get_device x) (get_device y)) as [Hd | Hd]; simpl.
  - split; [ intros _; repeat split; assumption | reflexivity ].
  - split; [ discriminate | intros H; decompose [and] H; contradiction ].
Qed.

Lemma pair_violation_nil n r ty seen x y :
  pair_violation n r ty seen x y = None -> pair_violation n r ty [] x y = None.
Proof.
  unfold pair_violation.
  repeat (match goal with
          | |- context [if ?c then Some _ else _] =>
              lazymatch c with
              | bool_decide (_ ∈ seen) => fail
              | _ => destruct c eqn:?; try discriminate
              end
          end).
  all: destruct (bool_decide (get_device x ∈ seen)); try discriminate; trivial.
  all: exfalso;
    match goal with
    | H : bool_decide (_ ∈ []) = true |- _ =>
        apply bool_decide_eq_true_1 in H; now apply not_elem_of_nil in H
    end.
Qed.

Lemma first_pair_violation_None_iff n r ty pairs :
  forall seen,
    NoDup seen ->
    first_pair_violation n r ty seen pairs = None
    <-> Forall (fun p => pair_violation n r ty [] (fst p) (snd p) = None) pairs /\
        NoDup (seen ++ map (fun p => get_device (fst p)) pairs).
Proof.
  induction pairs as [ | [x y] pairs IH ]; intros seen Hseen; simpl.
  - rewrite app_nil_r. split; [ intros _; split; [ constructor | exact Hseen ] | reflexivity ].
  - split.
    + intros H.
      pose proof (first_pair_violation_NoDup n r ty ((x, y) :: pairs) seen Hseen H) as Hnd.
      split; [ | exact Hnd ].
      destruct (pair_violation n r ty seen x y) eqn:E; [ discriminate | ].
      constructor; [ now apply (pair_violation_nil n r ty seen) | ].
      apply (IH (seen ++ [get_device x])%list); [ | exact H ].
      apply pair_violation_fresh in E.
      apply NoDup_app. repeat split; trivial.
      * intros z Hz Hz'%list_elem_of_singleton. now subst.
      * apply NoDup_singleton.
    + intros [[Hxy Hall]%Forall_cons Hnd]. simpl in Hxy.
      rewrite (pair_violation_seen _ _ _ seen _ _ Hxy).
      assert (Hfresh : get_device x ∉ seen).
      { apply NoDup_app in Hnd as (_ & Hd & _). intros Hin.
        apply (Hd _ Hin). left. }
      rewrite bool_decide_eq_false_2 by exact Hfresh.
      apply IH.
      * apply NoDup_app. repeat split; trivial.
        -- intros z Hz Hz'%list_elem_of_singleton. now subst.
        -- apply NoDup_singleton.
      * split; [ exact Hall | now rewrite <- app_assoc ].
Qed.

Lemma Forall_combine_Forall2 {A B} (P : A -> B -> Prop) (l : list A) (k : list B) :
  length l = length k ->
  Forall (fun p => P (fst p) (snd p)) (combine l k) <-> Forall2 P l k.
Proof.
  revert k. induction l as [ | x l IH ]; intros [ | y k ]; simpl; try discriminate.
  - intros _. split; constructor.
  - intros [= Hlen]. rewrite Forall_cons, Forall2_cons. simpl.
    now rewrite (IH k Hlen).
Qed.

(** X1: buffer validation succeeds on exactly the sequences that satisfy
    the data-model invariants: equal non-zero lengths within the visible
    devices, every pair dense, accelerator-resident, contiguous, of the
    first input's type and element counts, on one device per pair, and
    pairwise distinct input devices. *)
Theorem tensorCheckHelper_accepts_valid
    (this : ProcessGroupNCCL) (input output : list Tensor) (ratio : Z) :
  tensorCheckHelper this input output ratio = Ok tt
  <-> valid_buffers (to_size_t (numDevices (thcState_ this))) input output ratio.
Proof.
  rewrite tensorCheckHelper_refines. unfold first_violation, valid_buffers.
  destruct (Nat.eqb_spec (length input) (length output)) as [Hlen | Hlen]; cbn [negb].
  2:{ split; [ discriminate | ].
      intros (t0 & _ & _ & H2 & _). apply Forall2_length in H2. contradiction. }
  destruct input as [ | x input ].
  { split; [ discriminate | ]. intros (t0 & H0 & _). discriminate H0. }
  destruct (Z.ltb_spec (to_size_t (numDevices (thcState_ this)))
              (Z.of_nat (length (x :: input)))) as [Hlt | Hge].
  { split; [ discriminate | ]. intros (t0 & _ & Hv & _). lia. }
  destruct (first_pair_violation (numel x) ratio (scalarType x) []
              (combine (x :: input) output)) as [m | ] eqn:E.
  - split; [ discriminate | ].
    intros (t0 & [= <-] & _ & H2 & Hnd).
    assert (first_pair_violation (numel x) ratio (scalarType x) []
              (combine (x :: input) output) = None) as E'; [ | congruence ].
    apply first_pair_violation_None_iff; [ apply NoDup_nil_2 | ].
    split.
    + apply (Forall_combine_Forall2
               (fun i o => pair_violation (numel x) ratio (scalarType x) [] i o = None));
        [ exact Hlen | ].
      eapply Forall2_impl; [ exact H2 | ].
      intros i o. apply pair_violation_None_iff.
    + now rewrite app_nil_l, devices_of_pairs.
  - split; [ intros _ | reflexivity ].
    apply first_pair_violation_None_iff in E as [Hall Hnd]; [ | apply NoDup_nil_2 ].
    exists x. split; [ reflexivity | ]. split; [ lia | ]. split.
    + apply (Forall_combine_Forall2
               (fun i o => pair_violation (numel x) ratio (scalarType x) [] i o = None))
        in Hall; [ | exact Hlen ].
      eapply Forall2_impl; [ exact Hall | ].
      intros i o. apply pair_violation_None_iff.
    + now rewrite app_nil_l, devices_of_pairs in Hnd.
Qed.

(** *** Construction followed by destruction *)

Lemma dtor_closed this s o k :
  objects s !! this = Some o ->
  stoull (processGroupID_ o) = Some k ->
  ProcessGroupNCCL_dtor this s
  = (Ok tt,
     {| pgUniqueNCCLIDCnt_ := delete (to_ssize_t k) (pgUniqueNCCLIDCnt_ s);
        processGroupCounter_ := processGroupCounter_ s;
        stores := stores s;
        objects := delete this (objects s);
        log := log s ++ [Lock pgTrackingLock_; SeqErase (to_ssize_t k);
                         Unlock pgTrackingLock_] |}).
Proof.
  intros Ho Hk. unfold ProcessGroupNCCL_dtor, bind at 1, deref. rewrite Ho, Hk.
  cbv [bind lock unlock emit finally erase_pgUniqueNCCLIDCnt release].
  cbn [log stores pgUniqueNCCLIDCnt_ processGroupCounter_ objects
       with_log with_seq with_objects].
  f_equal. apply Sys_eq; simpl; try reflexivity. now rewrite <- !app_assoc.
Qed.

(** X2: destroying a group right after constructing it undoes the
    constructor's entry in the sequence registry and removes the object,
    while the group counter keeps its new value: the id is spent. *)
Theorem construct_then_destroy
    (env : Env) (store : nat) (rank size : Z) (s : Sys) :
  -1 <= processGroupCounter_ s < 2 ^ 63 - 1 ->
  pgUniqueNCCLIDCnt_ s !! (processGroupCounter_ s + 1) = None ->
  let this := length (log s) in
  let s1 := snd (ProcessGroupNCCL_ctor env store rank size s) in
  let s2 := snd (ProcessGroupNCCL_dtor this s1) in
  fst (ProcessGroupNCCL_ctor env store rank size s) = Ok this /\
  fst (ProcessGroupNCCL_dtor this s1) = Ok tt /\
  pgUniqueNCCLIDCnt_ s2 = pgUniqueNCCLIDCnt_ s /\
  processGroupCounter_ s2 = processGroupCounter_ s + 1 /\
  objects s2 = delete this (objects s) /\
  stores s2 = stores s.
Proof.
  intros Hc Hfree this s1 s2.
  assert (Ec : to_ssize_t (processGroupCounter_ s + 1) = processGroupCounter_ s + 1)
    by (apply to_ssize_t_id; unfold ssize_range; lia).
  split; [ reflexivity | ].
  assert (Hobj : exists o, objects s1 !! this = Some o /\
                           processGroupID_ o = to_string (processGroupCounter_ s + 1)).
  { eexists. split; [ apply lookup_insert_eq | ]. simpl. now rewrite Ec. }
  destruct Hobj as (o & Ho & Hid).
  assert (Hk : stoull (processGroupID_ o) = Some (processGroupCounter_ s + 1))
    by (rewrite Hid; apply stoull_to_string; lia).
  subst s2. rewrite (dtor_closed this s1 o _ Ho Hk). simpl.
  rewrite !Ec.
  split; [ reflexivity | ].
  split; [ now apply delete_insert_id | ].
  split; [ reflexivity | ].
  split; [ apply delete_insert_eq | reflexivity ].
Qed.

Lemma construct_then_destroy_witness :
  pgUniqueNCCLIDCnt_
    (snd (ProcessGroupNCCL_dtor 0
            (snd (ProcessGroupNCCL_ctor env_ready 0 0 2 Sys_init))))
  = pgUniqueNCCLIDCnt_ Sys_init.
Proof.
  apply (construct_then_destroy env_ready 0%nat 0 2 Sys_init);
    [ simpl; lia | reflexivity ].
Defined.

(** *** The token a peer retrieves *)

(** X3: when the rank-0 process and a peer are at the same sequence number
    of the same group and share the store, the peer's rendezvous returns
    exactly the bytes rank 0 published; the length check cannot fail on
    them. *)
Theorem peer_retrieves_published_token
    (this0 this1 : nat) (o0 o1 : ProcessGroupNCCL) (s0 s1 : Sys) (k : Z)
    (ncclID scratch : ncclUniqueId) :
  objects s0 !! this0 = Some o0 ->
  objects s1 !! this1 = Some o1 ->
  rank_ o0 = 0 -> rank_ o1 <> 0 ->
  processGroupID_ o1 = processGroupID_ o0 ->
  store_ o1 = store_ o0 ->
  stoull (processGroupID_ o0) = Some k ->
  pgUniqueNCCLIDCnt_ s1 !! to_ssize_t k = pgUniqueNCCLIDCnt_ s0 !! to_ssize_t k ->
  stores s1 = stores (snd (broadcastUniqueNCCLID this0 ncclID s0)) ->
  fst (broadcastUniqueNCCLID this1 scratch s1) = Ok {| internal := id_bytes ncclID |}.
Proof.
  intros H0 H1 Hr0 Hr1 Hid Hst Hk Hcnt Hstores.
  rewrite (broadcastUniqueNCCLID_run this0 ncclID s0 o0 H0), Hk, Hr0 in Hstores.
  simpl in Hstores.
  rewrite (broadcastUniqueNCCLID_run this1 scratch s1 o1 H1), Hid, Hk.
  destruct (Z.eqb_spec (rank_ o1) 0) as [E | _]; [ contradiction | ].
  simpl.
  assert (Ekey : rendezvous_key o1 s1 k = rendezvous_key o0 s0 k).
  { unfold rendezvous_key. now rewrite Hid, Hcnt. }
  rewrite Ekey, Hst, Hstores, lookup_insert_eq, id_bytes_length, Nat.eqb_refl.
  reflexivity.
Qed.

Lemma peer_retrieves_published_token_witness :
  fst (broadcastUniqueNCCLID 0 {| internal := [] |} sample_peer_sys)
  = Ok {| internal := id_bytes {| internal := [Byte.x2a] |} |}.
Proof.
  assert (H0 : objects sample_sys !! 0%nat = Some sample_root_group)
    by (vm_compute; reflexivity).
  assert (H1 : objects sample_peer_sys !! 0%nat = Some sample_group)
    by (vm_compute; reflexivity).
  apply (peer_retrieves_published_token 0%nat 0%nat sample_root_group sample_group
           sample_sys sample_peer_sys 0 {| internal := [Byte.x2a] |}
           {| internal := [] |} H0 H1);
    try reflexivity.
  discriminate.
Defined.

(** *** What [synchronize] and [wait] do to the process *)

Lemma with_log_nil s : with_log s (log s ++ []) = s.
Proof. apply Sys_eq; simpl; try reflexivity. apply app_nil_r. Qed.

Lemma with_log_app s l l' :
  with_log (with_log s (log s ++ l)) (log (with_log s (log s ++ l)) ++ l')
  = with_log s (log s ++ (l ++ l')).
Proof. apply Sys_eq; simpl; try reflexivity. now rewrite app_assoc. Qed.

Lemma synchronize_body env this i d s r s' :
  (let* _ := setDevice env d in
   let* cudaEvent := idx (cudaEvents_ this) i in
   let* rc := cuda_call env (StreamWaitEvent (ThcStream d) (getEvent cudaEvent)) in
   C10D_CUDA_CHECK rc) s = (r, s') ->
  exists l,
    s' = with_log s (log s ++ l) /\ Forall enqueue_only l /\ r <> Blocked /\
    (r = Undefined -> cudaEvents_ this !! i = None) /\
    (r = Ok tt ->
     exists e, cudaEvents_ this !! i = Some e /\
               l = [SetDevice d; StreamWaitEvent (ThcStream d) (getEvent e)]).
Proof.
  unfold bind, setDevice, cuda_call, C10D_CUDA_CHECK, idx, bind, ret, throw, undefined.
  destruct (is_cudaSuccess (cuda_status env (log s) (SetDevice d))).
  2:{ intros [= <- <-]. exists [SetDevice d].
      split; [ reflexivity | ]. split; [ repeat constructor | ].
      repeat split; discriminate. }
  destruct (cudaEvents_ this !! i) as [e | ].
  2:{ intros [= <- <-]. exists [SetDevice d].
      split; [ reflexivity | ]. split; [ repeat constructor | ].
      repeat split; try discriminate. }
  cbn [log with_log].
  match goal with
  | |- context [is_cudaSuccess ?c] => destruct (is_cudaSuccess c)
  end; intros [= <- <-];
    exists [SetDevice d; StreamWaitEvent (ThcStream d) (getEvent e)];
    (split; [ apply Sys_eq; simpl; try reflexivity; now rewrite <- app_assoc | ]);
    (split; [ repeat constructor | ]); (split; [ discriminate | ]);
    (split; [ discriminate | ]).
  - intros _. now exists e.
  - discriminate.
Qed.

Lemma synchronize_loop env this rest :
  forall i s r s',
    for_each
      (fun i device =>
         let* _ := setDevice env device in
         let* cudaEvent := idx (cudaEvents_ this) i in
         let* rc := cuda_call env (StreamWaitEvent (ThcStream device)
                                     (getEvent cudaEvent)) in
         C10D_CUDA_CHECK rc) i rest s = (r, s') ->
    exists l,
      s' = with_log s (log s ++ l) /\ Forall enqueue_only l /\ r <> Blocked /\
      (r = Undefined -> (length (drop i (cudaEvents_ this)) < length rest)%nat) /\
      (forall ys, r = Ok ys ->
         omap stream_wait l
         = zip_with (fun d e => (ThcStream d, getEvent e)) rest
             (drop i (cudaEvents_ this)) /\
         (length rest <= length (drop i (cudaEvents_ this)))%nat).
Proof.
  induction rest as [ | d rest IH ]; intros i s r s'.
  - intros [= <- <-]. exists []. rewrite with_log_nil.
    split; [ reflexivity | ]. split; [ constructor | ].
    split; [ discriminate | ]. split; [ discriminate | ].
    intros _ _. split; [ reflexivity | simpl; lia ].
  - cbn [for_each]. unfold bind at 1.
    match goal with
    | |- context [match ?m s with _ => _ end] =>
        destruct (m s) as [r1 s1] eqn:E1
    end.
    destruct (synchronize_body env this i d s r1 s1 E1)
      as (l1 & -> & Hl1 & Hb1 & Hu1 & Hok1).
    destruct r1 as [ [] | ex | | ];
      try (intros [= <- <-]; exists l1;
           split; [ reflexivity | ]; split; [ exact Hl1 | ];
           split; [ congruence | ];
           split; [ try discriminate | intros ? [=] ]).
    2:{ intros _. rewrite (drop_ge _ _ (proj1 (lookup_ge_None _ _) (Hu1 eq_refl))).
        simpl. lia. }
    destruct (Hok1 eq_refl) as (e & He & ->).
    unfold bind at 1.
    match goal with
    | |- context [for_each ?b (S i) rest ?s2] =>
        destruct (for_each b (S i) rest s2) as [r2 s3] eqn:E2
    end.
    destruct (IH _ _ _ _ E2) as (l & -> & Hl & Hb & Hu & Hok).
    intros Hres.
    exists ([SetDevice d; StreamWaitEvent (ThcStream d) (getEvent e)] ++ l)%list.
    assert (Hs : s' = with_log s (log s ++ [SetDevice d;
                   StreamWaitEvent (ThcStream d) (getEvent e)] ++ l)%list /\
                 r = match r2 with
                     | Ok ys => Ok (tt :: ys)
                     | Throw ex => Throw ex
                     | Blocked => Blocked
                     | Undefined => Undefined
                     end).
    { destruct r2; cbv [ret] in Hres; inversion Hres;
        (split; [ apply with_log_app | reflexivity ]). }
    destruct Hs as [-> ->]. clear Hres.
    split; [ reflexivity | ].
    split; [ apply Forall_app; now split | ].
    split; [ destruct r2; congruence | ].
    split.
    { intros Hr. destruct r2; try discriminate.
      specialize (Hu eq_refl). rewrite (drop_S _ _ _ He). simpl. lia. }
    intros ys Hys. destruct r2 as [ys2 | | | ]; try discriminate.
    destruct (Hok ys2 eq_refl) as [Hz Hlen].
    rewrite (drop_S _ _ _ He). cbn. rewrite Hz.
    split; [ reflexivity | cbn in Hlen; lia ].
Qed.

(** X4: [synchronize] only enqueues.  Whatever the runtime answers, it
    changes nothing but the log, where it adds only the initialisation,
    device selections and waits on THC streams (no event query, no
    store access), and it never blocks the host.  When it returns, the
    waits are the events of the work, in order, each on the THC stream
    of its device. *)
Theorem synchronize_enqueues (env : Env) (this : WorkNCCL) (s : Sys) :
  exists l,
    snd (synchronize env this s) = with_log s (log s ++ l) /\
    Forall enqueue_only l /\
    fst (synchronize env this s) <> Blocked /\
    (fst (synchronize env this s) = Ok tt ->
     omap stream_wait l
     = zip_with (fun d e => (ThcStream d, getEvent e))
         (devices_ this) (cudaEvents_ this) /\
     (length (devices_ this) <= length (cudaEvents_ this))%nat).
Proof.
  assert (G : exists r s', synchronize env this s = (r, s') /\
              exists l, s' = with_log s (log s ++ l) /\ Forall enqueue_only l /\
                r <> Blocked /\
                (r = Ok tt ->
                 omap stream_wait l
                 = zip_with (fun d e => (ThcStream d, getEvent e))
                     (devices_ this) (cudaEvents_ this) /\
                 (length (devices_ this) <= length (cudaEvents_ this))%nat)).
  { unfold synchronize, lazyInitCUDA.
    unfold bind at 1 2 3. cbn [get_sys emit ret fst snd].
    unfold bind at 1.
    match goal with
    | |- context [for_each ?b 0%nat (devices_ this) ?s1] =>
        destruct (for_each b 0%nat (devices_ this) s1) as [r s2] eqn:E
    end.
    destruct (synchronize_loop _ _ _ _ _ _ _ E) as (l & -> & Hl & Hb & _ & Hok).
    change (with_log s (log s ++ [LazyInitCUDA]))
      with (with_log s (log s ++ [LazyInitCUDA])) in *.
    rewrite with_log_app.
    exists (match r with Ok _ => Ok tt | Throw ex => Throw ex
                    | Blocked => Blocked | Undefined => Undefined end),
           (with_log s (log s ++ [LazyInitCUDA] ++ l)%list).
    split; [ destruct r; reflexivity | ].
    exists ([LazyInitCUDA] ++ l)%list.
    split; [ reflexivity | ].
    split; [ constructor; [ exact I | exact Hl ] | ].
    split; [ destruct r; congruence | ].
    destruct r as [ys | | | ]; try discriminate.
    intros _. destruct (Hok ys eq_refl) as [Hz Hlen].
    cbn. rewrite Hz. split; [ reflexivity | exact Hlen ]. }
  destruct G as (r & s' & E & l & -> & Hl & Hb & Hok).
  rewrite E. exists l. simpl. repeat split; auto; now apply Hok.
Qed.


(** *** A work object has one event per device *)

Lemma for_each_length {A B} (body : nat -> A -> M B) (v : list A) :
  forall i s ys s', for_each body i v s = (Ok ys, s') -> length ys = length v.
Proof.
  induction v as [ | x v IH ]; intros i s ys s' H; simpl in H.
  - now inversion H.
  - apply bind_Ok in H. destruct H as (y & s1 & _ & H).
    apply bind_Ok in H. destruct H as (ys' & s2 & H & E).
    inversion E; subst. simpl. f_equal. exact (IH _ _ _ _ H).
Qed.

Lemma finishedGPUExecution_loop_defined env this rest :
  forall i s,
    (length rest <= length (drop i (cudaEvents_ this)))%nat ->
    fst (finishedGPUExecution_loop env this i rest s) <> Undefined.
Proof.
  induction rest as [ | d rest IH ]; intros i s Hlen; [ discriminate | ].
  destruct (lookup_lt_is_Some_2 (cudaEvents_ this) i) as [e He].
  { rewrite length_drop in Hlen. simpl in Hlen. lia. }
  rewrite (drop_S _ _ _ He) in Hlen. simpl in Hlen.
  cbn [finishedGPUExecution_loop].
  unfold bind, setDevice, cuda_call, C10D_CUDA_CHECK, idx, bind, ret, throw.
  destruct (is_cudaSuccess (cuda_status env (log s) (SetDevice d)));
    [ | discriminate ].
  rewrite He. cbn [log with_log].
  match goal with
  | |- context [is_cudaErrorNotReady ?c] =>
      destruct (is_cudaSuccess c), (is_cudaErrorNotReady c)
  end; cbn [negb andb]; try discriminate;
    apply IH; lia.
Qed.

(** X5: the work object the constructor returns records the devices it
    was given and holds exactly one event per device; so polling it and
    waiting on it never read [cudaEvents_] out of range, whatever the
    runtime answers. *)
Theorem work_has_one_event_per_device
    (env : Env) (devices : list Z) (s s' : Sys) (work : WorkNCCL) :
  WorkNCCL_ctor env devices s = (Ok work, s') ->
  devices_ work = devices /\
  length (cudaEvents_ work) = length devices /\
  forall env' t,
    fst (finishedGPUExecution env' work t) <> Undefined /\
    fst (synchronize env' work t) <> Undefined /\
    fst (wait env' work t) <> Undefined.
Proof.
  unfold WorkNCCL_ctor. intros H.
  apply bind_Ok in H. destruct H as (events & s1 & H & E).
  inversion E; subst. clear E. simpl.
  pose proof (for_each_length _ _ _ _ _ _ H) as Hlen.
  split; [ reflexivity | ]. split; [ exact Hlen | ].
  intros env' t.
  assert (Hs : fst (synchronize env' {| devices_ := devices; cudaEvents_ := events |} t)
               <> Undefined).
  { unfold synchronize, lazyInitCUDA.
    unfold bind at 1 2 3. cbn [get_sys emit ret fst snd devices_ cudaEvents_].
    unfold bind at 1.
    match goal with
    | |- context [for_each ?b 0%nat devices ?s1] =>
        destruct (for_each b 0%nat devices s1) as [r s2] eqn:E
    end.
    destruct (synchronize_loop env' {| devices_ := devices; cudaEvents_ := events |}
                _ _ _ _ _ E) as (l & _ & _ & _ & Hu & _).
    destruct r; simpl; try discriminate.
    specialize (Hu eq_refl). rewrite drop_0 in Hu. simpl in Hu. intros _. lia. }
  split.
  { apply finishedGPUExecution_loop_defined. rewrite drop_0. simpl. lia. }
  split; [ exact Hs | ].
  unfold wait, bind.
  destruct (synchronize env' _ t) as [[ | | | ] s2]; simpl in *; congruence.
Qed.

Lemma work_has_one_event_per_device_witness :
  length (cudaEvents_ {| devices_ := [0; 1];
                         cudaEvents_ := [ {| getEvent := 1 |}; {| getEvent := 3 |} ] |})
  = length [0; 1].
Proof.
  apply (work_has_one_event_per_device env_ready [0; 1] Sys_init
           (snd (WorkNCCL_ctor env_ready [0; 1] Sys_init))
           {| devices_ := [0; 1];
              cudaEvents_ := [ {| getEvent := 1 |}; {| getEvent := 3 |} ] |}).
  reflexivity.
Defined.

(** *** Heap-preserving computations *)

Section Benign.

Variable H : gmap nat ProcessGroupNCCL -> Prop.
Variable Ex : exn -> Prop.
Hypothesis Ex_cuda : forall rc, is_cudaSuccess rc = false -> Ex (cuda_failure rc).
Hypothesis Ex_nccl : forall rc, rc <> ncclSuccess -> Ex (nccl_failure rc).

Local Abbreviation benign := (benign H Ex).

Lemma benign_ret {A} (a : A) (Q : A -> Prop) : Q a -> benign (ret a) Q.
Proof. intros HQ s _. split; [ reflexivity | exact HQ ]. Qed.

Lemma benign_throw {A} e (Q : A -> Prop) : Ex e -> benign (throw e) Q.
Proof. intros He s _. split; [ reflexivity | exact He ]. Qed.

Lemma benign_weaken {A} (m : M A) (Q Q' : A -> Prop) :
  benign m Q -> (forall a, Q a -> Q' a) -> benign m Q'.
Proof.
  intros Hm HQ s Hs. destruct (Hm s Hs) as [Ho Hr]. split; [ exact Ho | ].
  destruct (fst (m s)); auto.
Qed.

Lemma benign_bind {A B} (m : M A) (k : A -> M B) (Q : A -> Prop) (Q' : B -> Prop) :
  benign m Q -> (forall a, Q a -> benign (k a) Q') -> benign (bind m k) Q'.
Proof.
  intros Hm Hk s Hs. destruct (Hm s Hs) as [Ho Hr]. unfold bind.
  destruct (m s) as [[a | e | | ] s1]; simpl in *; auto.
  destruct (Hk a Hr s1) as [Ho' Hr']; [ now rewrite Ho | ].
  split; [ congruence | exact Hr' ].
Qed.

Lemma benign_finally {A} (m : M A) (cleanup : M unit) (Q : A -> Prop) :
  benign m Q -> benign cleanup any -> benign (finally m cleanup) Q.
Proof.
  intros Hm Hc s Hs. destruct (Hm s Hs) as [Ho Hr]. unfold finally.
  destruct (m s) as [r s1]; simpl in *.
  destruct (Hc s1) as [Ho' Hr']; [ now rewrite Ho | ].
  destruct (cleanup s1) as [[[] | e | | ] s2]; simpl in *;
    (split; [ congruence | auto ]).
Qed.

Lemma benign_for_each {A B} (body : nat -> A -> M B) (v : list A) :
  forall i,
    (forall j x, v !! j = Some x -> benign (body (i + j)%nat x) any) ->
    benign (for_each body i v) (fun ys => length ys = length v).
Proof.
  induction v as [ | x v IH ]; intros i Hbody; simpl.
  - now apply benign_ret.
  - eapply benign_bind.
    { specialize (Hbody 0%nat x eq_refl). rewrite Nat.add_0_r in Hbody. exact Hbody. }
    intros y _. eapply benign_bind.
    { apply IH. intros j x' Hj. specialize (Hbody (S j) x' Hj).
      rewrite Nat.add_succ_r in Hbody. exact Hbody. }
    intros ys Hys. apply benign_ret. simpl. now rewrite Hys.
Qed.

Lemma benign_idx {A} (v : list A) i :
  (i < length v)%nat -> benign (idx v i) any.
Proof.
  intros Hi. unfold idx. destruct (lookup_lt_is_Some_2 v i Hi) as [x ->].
  now apply benign_ret.
Qed.

Lemma benign_lift {A} (o : outcome A) :
  match o with
  | Ok _ | Blocked => True
  | Throw e => Ex e
  | Undefined => False
  end ->
  benign (lift o) (fun a => o = Ok a).
Proof. intros Ho s _. split; [ reflexivity | ]. simpl. now destruct o. Qed.

Lemma benign_get_sys : benign get_sys any.
Proof. intros s _. now split. Qed.

Lemma benign_deref this o :
  (forall h, H h -> h !! this = Some o) -> benign (deref this) (eq o).
Proof.
  intros Hl s Hs. unfold deref. rewrite (Hl _ Hs). now split.
Qed.

Lemma benign_emit a : benign (emit a) any.
Proof. intros s _. now split. Qed.

Lemma benign_cuda_call env a : benign (cuda_call env a) any.
Proof. intros s _. now split. Qed.

Lemma benign_nccl_call env a : benign (nccl_call env a) any.
Proof. intros s _. now split. Qed.

Lemma benign_store_set st key val : benign (store_set st key val) any.
Proof. intros s _. now split. Qed.

Lemma benign_store_get st key : benign (store_get st key) any.
Proof.
  intros s _. unfold store_get. now destruct (stores s !! (st, key)).
Qed.

Lemma benign_set_pgUniqueNCCLIDCnt gid v : benign (set_pgUniqueNCCLIDCnt gid v) any.
Proof. intros s _. now split. Qed.

Lemma benign_C10D_CUDA_CHECK rc : benign (C10D_CUDA_CHECK rc) any.
Proof.
  unfold C10D_CUDA_CHECK. destruct (is_cudaSuccess rc) eqn:E.
  - now apply benign_ret.
  - apply benign_throw. now apply Ex_cuda.
Qed.

Lemma benign_C10D_NCCL_CHECK rc : benign (C10D_NCCL_CHECK rc) any.
Proof.
  unfold C10D_NCCL_CHECK. destruct rc.
  - now apply benign_ret.
  - apply benign_throw. now apply Ex_nccl.
Qed.

Ltac quiet :=
  lazymatch goal with
  | |- benign (cuda_call _ _) _ => apply benign_cuda_call
  | |- benign (nccl_call _ _) _ => apply benign_nccl_call
  | |- benign (emit _) _ => apply benign_emit
  | |- benign get_sys _ => apply benign_get_sys
  | |- benign (C10D_CUDA_CHECK _) _ => apply benign_C10D_CUDA_CHECK
  | |- benign (C10D_NCCL_CHECK _) _ => apply benign_C10D_NCCL_CHECK
  | |- benign (store_set _ _ _) _ => apply benign_store_set
  | |- benign (store_get _ _) _ => apply benign_store_get
  | |- benign (set_pgUniqueNCCLIDCnt _ _) _ => apply benign_set_pgUniqueNCCLIDCnt
  | |- benign (ret _) _ => apply benign_ret; exact I
  end.

Ltac quietly :=
  repeat first [ quiet | eapply benign_bind; [ quiet | intros ? ? ] ].

Lemma benign_lock m : benign (lock m) any.
Proof. unfold lock. quietly. Qed.

Lemma benign_unlock m : benign (unlock m) any.
Proof. unfold unlock. quietly. Qed.

Lemma benign_setDevice env d : benign (setDevice env d) any.
Proof. unfold setDevice. quietly. Qed.

Lemma benign_CUDAStream_create env : benign (CUDAStream_create env) any.
Proof. unfold CUDAStream_create. quietly. Qed.

Lemma benign_CUDAEvent_create env : benign (CUDAEvent_create env) any.
Proof. unfold CUDAEvent_create. quietly. Qed.

Lemma benign_NCCLComm_create env n r id : benign (NCCLComm_create env n r id) any.
Proof. unfold NCCLComm_create. quietly. Qed.

Lemma benign_ncclGetUniqueId env : benign (ncclGetUniqueId env) any.
Proof. unfold ncclGetUniqueId. quietly. Qed.

Lemma benign_lazyInitCUDA env : benign (lazyInitCUDA env) any.
Proof. unfold lazyInitCUDA. quietly. Qed.

Lemma benign_syncStreams env thc devices events streams :
  length streams = length devices ->
  length events = length devices ->
  benign (syncStreams env thc devices events streams) any.
Proof.
  intros Hs He. unfold syncStreams.
  eapply benign_bind; [ | intros; now apply benign_ret ].
  apply benign_for_each. intros j d Hj. apply lookup_lt_Some in Hj.
  eapply benign_bind; [ apply benign_setDevice | intros ? ? ].
  eapply benign_bind; [ apply benign_idx; simpl; lia | intros ? ? ].
  eapply benign_bind; [ apply benign_idx; simpl; lia | intros ? ? ].
  quietly.
Qed.

Lemma benign_WorkNCCL_ctor env devices :
  benign (WorkNCCL_ctor env devices)
    (fun work => devices_ work = devices /\
                 length (cudaEvents_ work) = length devices).
Proof.
  unfold WorkNCCL_ctor.
  eapply benign_bind.
  - apply benign_for_each. intros j d _.
    eapply benign_bind; [ apply benign_setDevice | intros ? ? ].
    apply benign_CUDAEvent_create.
  - intros events Hlen. apply benign_ret. simpl. now split.
Qed.

Lemma benign_record_events env (streams : list CUDAStream) (work : WorkNCCL)
    (tensors : list Tensor) :
  length streams = length tensors ->
  length (cudaEvents_ work) = length tensors ->
  benign
    (for_each
       (fun i _ =>
          let* ncclStream := idx streams i in
          let* cudaEvent := idx (cudaEvents_ work) i in
          let* rc :=
            cuda_call env (EventRecord (getEvent cudaEvent) (getStream ncclStream)) in
          C10D_CUDA_CHECK rc)
       0%nat tensors)
    any.
Proof.
  intros Hs He.
  eapply benign_weaken; [ | intros; exact I ].
  apply benign_for_each. intros j t Hj. apply lookup_lt_Some in Hj.
  eapply benign_bind; [ apply benign_idx; simpl; lia | intros ? ? ].
  eapply benign_bind; [ apply benign_idx; simpl; lia | intros ? ? ].
  quietly.
Qed.

Hypothesis Ex_stoull : Ex (invalid_argument "stoull").
Hypothesis Ex_bad_id : Ex (runtime_error msg_bad_id_length).
Hypothesis Ex_unsupported : Ex (runtime_error msg_unsupported_type).

Lemma benign_getNcclDataType t : benign (getNcclDataType t) any.
Proof.
  unfold getNcclDataType. destruct (ncclDataType t).
  - now apply benign_ret.
  - now apply benign_throw.
Qed.

Lemma benign_broadcastUniqueNCCLID this o ncclID :
  (forall h, H h -> h !! this = Some o) ->
  benign (broadcastUniqueNCCLID this ncclID) any.
Proof.
  intros Hl. unfold broadcastUniqueNCCLID.
  eapply benign_bind; [ apply benign_deref; exact Hl | intros self <- ].
  eapply benign_bind; [ apply benign_lock | intros ? ? ].
  destruct (stoull (processGroupID_ o)) as [k | ].
  2:{ eapply benign_bind; [ apply benign_unlock | intros ? ? ].
      now apply benign_throw. }
  eapply benign_bind; [ apply benign_get_sys | intros s0 _ ].
  eapply benign_bind; [ apply benign_set_pgUniqueNCCLIDCnt | intros ? ? ].
  eapply benign_bind; [ apply benign_unlock | intros ? ? ].
  destruct (Z.eqb (rank_ o) 0).
  - quietly.
  - eapply benign_bind; [ apply benign_store_get | intros val _ ].
    destruct (negb _).
    + now apply benign_throw.
    + now apply benign_ret.
Qed.

End Benign.

(** *** Calls that change the objects *)

Lemma hoare_ret {A} h0 Ex (a : A) (Q : A -> gmap nat ProcessGroupNCCL -> Prop) I :
  Q a h0 -> hoare h0 Ex (ret a) Q I.
Proof. intros HQ s <-. exact HQ. Qed.

Lemma hoare_throw {A} h0 Ex e (Q : A -> gmap nat ProcessGroupNCCL -> Prop)
    (I : gmap nat ProcessGroupNCCL -> Prop) :
  Ex e -> I h0 -> hoare h0 Ex (throw e) Q I.
Proof. intros He HI s <-. now split. Qed.

Lemma hoare_bind {A B} h0 Ex (m : M A) (k : A -> M B) Q1 Q I :
  hoare h0 Ex m Q1 I ->
  (forall a h1, Q1 a h1 -> hoare h1 Ex (k a) Q I) ->
  hoare h0 Ex (bind m k) Q I.
Proof.
  intros Hm Hk s Hs. specialize (Hm s Hs). unfold bind.
  destruct (m s) as [[a | e | | ] s1]; simpl in *; auto.
  exact (Hk a _ Hm s1 eq_refl).
Qed.

Lemma hoare_conseq {A} h0 (Ex Ex' : exn -> Prop) (m : M A)
    (Q Q' : A -> gmap nat ProcessGroupNCCL -> Prop)
    (I I' : gmap nat ProcessGroupNCCL -> Prop) :
  hoare h0 Ex m Q I ->
  (forall e, Ex e -> Ex' e) ->
  (forall a h, Q a h -> Q' a h) ->
  (forall h, I h -> I' h) ->
  hoare h0 Ex' m Q' I'.
Proof.
  intros Hm HE HQ HI s Hs. specialize (Hm s Hs).
  destruct (fst (m s)); auto. destruct Hm. auto.
Qed.

Lemma hoare_benign {A} H h0 Ex (m : M A) (Q1 : A -> Prop) Q
    (I : gmap nat ProcessGroupNCCL -> Prop) :
  benign H Ex m Q1 -> H h0 -> I h0 ->
  (forall a, Q1 a -> Q a h0) ->
  hoare h0 Ex m Q I.
Proof.
  intros Hm HH HI HQ s <-. destruct (Hm s HH) as [Ho Hr]. rewrite Ho.
  destruct (fst (m s)); auto.
Qed.

Lemma hoare_benign_bind {A B} H h0 Ex (m : M A) (k : A -> M B) (Q1 : A -> Prop) Q
    (I : gmap nat ProcessGroupNCCL -> Prop) :
  benign H Ex m Q1 -> H h0 -> I h0 ->
  (forall a, Q1 a -> hoare h0 Ex (k a) Q I) ->
  hoare h0 Ex (bind m k) Q I.
Proof.
  intros Hm HH HI Hk.
  eapply hoare_bind.
  - eapply (hoare_benign H h0 Ex m Q1 (fun a h => h = h0 /\ Q1 a)); eauto.
  - intros a h1 [-> Ha]. now apply Hk.
Qed.

Lemma hoare_assign_bind {B} h0 Ex this o (k : unit -> M B) Q
    (I : gmap nat ProcessGroupNCCL -> Prop) :
  hoare (<[this := o]> h0) Ex (k tt) Q I ->
  hoare h0 Ex (bind (assign this o) k) Q I.
Proof.
  intros Hk s <-.
  exact (Hk (with_objects s (<[this := o]> (objects s))) eq_refl).
Qed.

Lemma extends_refl o : extends o o.
Proof. unfold extends. now repeat split. Qed.

Lemma extends_trans o1 o2 o3 : extends o1 o2 -> extends o2 o3 -> extends o1 o3.
Proof.
  unfold extends.
  intros (A1 & A2 & A3 & A4 & A5 & A6 & A7 & A8) (B1 & B2 & B3 & B4 & B5 & B6 & B7 & B8).
  repeat split; try congruence; etrans; eauto.
Qed.

Lemma emplace_subseteq {A} (m : gmap string (list A)) k v : m ⊆ emplace m k v.
Proof.
  unfold emplace. destruct (m !! k) eqn:E; [ reflexivity | ].
  now apply insert_subseteq.
Qed.

Lemma emplace_lookup_ne {A} (m : gmap string (list A)) k k' v :
  k <> k' -> emplace m k v !! k' = m !! k'.
Proof.
  intros Hne. unfold emplace. destruct (m !! k); [ reflexivity | ].
  now apply lookup_insert_ne.
Qed.

Lemma emplace_lookup_fresh {A} (m : gmap string (list A)) k v :
  m !! k = None -> emplace m k v !! k = Some v.
Proof. intros E. unfold emplace. rewrite E. apply lookup_insert_eq. Qed.

Lemma with_caches_same o :
  with_caches o (devNCCLCommMap_ o) (ncclStreams_ o) (ncclEvents_ o) = o.
Proof. now destruct o. Qed.

Lemma aligned_emplace self devices comms streams events :
  aligned self ->
  devNCCLCommMap_ self !! getKeyFromDevices devices = None ->
  length comms = length devices ->
  length streams = length devices ->
  length events = length devices ->
  aligned (with_caches self
             (<[getKeyFromDevices devices := comms]> (devNCCLCommMap_ self))
             (emplace (ncclStreams_ self) (getKeyFromDevices devices) streams)
             (emplace (ncclEvents_ self) (getKeyFromDevices devices) events)).
Proof.
  intros Hal Hc Lc Ls Le key'. simpl.
  destruct (decide (getKeyFromDevices devices = key')) as [<- | Hne].
  - specialize (Hal (getKeyFromDevices devices)). rewrite Hc in Hal.
    destruct (ncclStreams_ self !! getKeyFromDevices devices) eqn:Es;
      [ contradiction | ].
    destruct (ncclEvents_ self !! getKeyFromDevices devices) eqn:Ee;
      [ contradiction | ].
    rewrite lookup_insert_eq, !emplace_lookup_fresh by assumption.
    intros devices' Hk. apply getKeyFromDevices_inj in Hk. now subst.
  - rewrite lookup_insert_ne, !emplace_lookup_ne by assumption.
    exact (Hal key').
Qed.

Lemma getDevicesOfTensors_map tensors :
  getDevicesOfTensors tensors = map get_device tensors.
Proof.
  unfold getDevicesOfTensors.
  assert (G : forall acc,
             fold_left (fun res tensor => (res ++ [get_device tensor])%list) tensors acc
             = (acc ++ map get_device tensors)%list).
  { induction tensors as [ | t ts IH ]; intros acc; simpl.
    - now rewrite app_nil_r.
    - rewrite IH, <- app_assoc. reflexivity. }
  apply (G []).
Qed.

Lemma pair_violation_message n r ty seen x y m :
  pair_violation n r ty seen x y = Some m -> m ∈ validation_messages.
Proof.
  unfold pair_violation, validation_messages.
  repeat match goal with
         | |- context [if ?c then _ else _] => destruct c
         end;
    intros [= <-]; repeat constructor.
Qed.

Lemma first_pair_violation_message n r ty pairs :
  forall seen m,
    first_pair_violation n r ty seen pairs = Some m -> m ∈ validation_messages.
Proof.
  induction pairs as [ | [x y] pairs IH ]; intros seen m; simpl; [ discriminate | ].
  destruct (pair_violation n r ty seen x y) as [m' | ] eqn:E.
  - intros [= <-]. eapply pair_violation_message; eauto.
  - apply IH.
Qed.

Lemma first_violation_message visible input output r m :
  first_violation visible input output r = Some m -> m ∈ validation_messages.
Proof.
  unfold first_violation.
  destruct (negb _); [ intros [= <-]; unfold validation_messages; repeat constructor | ].
  destruct input as [ | input_0 rest ];
    [ intros [= <-]; unfold validation_messages; repeat constructor | ].
  destruct (Z.ltb _ _);
    [ intros [= <-]; unfold validation_messages; repeat constructor | ].
  apply first_pair_violation_message.
Qed.

Lemma validated_nonempty this input output r :
  tensorCheckHelper this input output r = Ok tt -> input <> [].
Proof.
  rewrite tensorCheckHelper_refines. unfold first_violation.
  destruct (negb _); [ discriminate | ].
  destruct input; [ discriminate | discriminate ].
Qed.

Section Hoare.

Variable env : Env.
Variable Ex : exn -> Prop.
Hypothesis Ex_cuda : forall rc, is_cudaSuccess rc = false -> Ex (cuda_failure rc).
Hypothesis Ex_nccl : forall rc, rc <> ncclSuccess -> Ex (nccl_failure rc).
Hypothesis Ex_stoull : Ex (invalid_argument "stoull").
Hypothesis Ex_bad_id : Ex (runtime_error msg_bad_id_length).
Hypothesis Ex_unsupported : Ex (runtime_error msg_unsupported_type).

Ltac quiet_step lem :=
  lazymatch goal with
  | |- hoare ?h _ _ _ _ =>
      eapply (hoare_benign_bind (eq h));
      [ eapply lem; eauto | reflexivity | reflexivity | ]
  end.

(** [getNCCLComm] on a live group: all or nothing. *)
Lemma getNCCLComm_hoare this self key devices h0 :
  h0 !! this = Some self ->
  (is_empty key = true -> Ex (runtime_error msg_no_devices)) ->
  hoare h0 Ex (getNCCLComm env this key devices)
    (fun comms h =>
       exists self',
         h = <[this := self']> h0 /\ extends self self' /\
         devNCCLCommMap_ self' !! key = Some comms /\
         (aligned self -> key = getKeyFromDevices devices -> aligned self'))
    (eq h0).
Proof.
  intros Hlive Hempty. unfold getNCCLComm.
  eapply (hoare_benign_bind (eq h0));
    [ apply benign_deref; intros ? <-; exact Hlive | reflexivity | reflexivity | ].
  intros o <-.
  destruct (is_empty key) eqn:Ek; [ apply hoare_throw; auto | ].
  destruct (devNCCLCommMap_ self !! key) as [c | ] eqn:Ec.
  { apply hoare_ret. exists self.
    split; [ symmetry; now apply insert_id | ].
    split; [ apply extends_refl | ]. split; [ exact Ec | auto ]. }
  eapply (hoare_benign_bind (eq h0) _ _ _ _ any);
    [ | reflexivity | reflexivity | intros ncclID0 _ ].
  { destruct (Z.eqb (rank_ self) 0).
    - eapply benign_bind; [ apply benign_ncclGetUniqueId | intros [rc id] _ ].
      eapply benign_bind; [ apply benign_C10D_NCCL_CHECK; auto | intros ? ? ].
      now apply benign_ret.
    - now apply benign_ret. }
  eapply (hoare_benign_bind (eq h0));
    [ eapply (benign_broadcastUniqueNCCLID _ _ Ex_stoull Ex_bad_id this self);
      intros ? <-; exact Hlive
    | reflexivity | reflexivity | intros ncclID _ ].
  quiet_step benign_nccl_call. intros rc _.
  quiet_step benign_C10D_NCCL_CHECK. intros _ _.
  eapply (hoare_benign_bind (eq h0));
    [ apply benign_for_each | reflexivity | reflexivity | intros created Hlen ].
  { intros j d _.
    eapply benign_bind; [ eapply benign_setDevice; eauto | intros ? ? ].
    eapply benign_bind; [ eapply benign_NCCLComm_create; eauto | intros ? ? ].
    eapply benign_bind; [ eapply benign_CUDAStream_create; eauto | intros ? ? ].
    eapply benign_bind; [ eapply benign_CUDAEvent_create; eauto | intros ? ? ].
    now apply benign_ret. }
  quiet_step benign_nccl_call. intros rc' _.
  quiet_step benign_C10D_NCCL_CHECK. intros _ _.
  unfold emplace at 1. rewrite Ec.
  unfold subscript. rewrite lookup_insert_eq.
  apply hoare_assign_bind. apply hoare_ret.
  eexists. split; [ reflexivity | ].
  split.
  { unfold extends. simpl. repeat split; auto using emplace_subseteq.
    now apply insert_subseteq. }
  split; [ simpl; apply lookup_insert_eq | ].
  intros Hal ->.
  apply aligned_emplace; auto; now rewrite length_map.
Qed.

Hypothesis Ex_validation :
  forall m, m ∈ validation_messages -> Ex (runtime_error m).

Ltac calm :=
  lazymatch goal with
  | |- benign _ _ (bind _ _) _ => eapply benign_bind; [ calm | intros ? ? ]
  | |- benign _ _ (finally _ _) _ => eapply benign_finally
  | |- benign _ _ (idx _ _) _ =>
      apply benign_idx; simpl; rewrite ?length_map; lia
  | |- benign _ _ (setDevice _ _) _ => eapply benign_setDevice; eauto
  | |- benign _ _ (getNcclDataType _) _ => eapply benign_getNcclDataType; eauto
  | |- benign _ _ (cuda_call _ _) _ => apply benign_cuda_call
  | |- benign _ _ (nccl_call _ _) _ => apply benign_nccl_call
  | |- benign _ _ (C10D_CUDA_CHECK _) _ => eapply benign_C10D_CUDA_CHECK; eauto
  | |- benign _ _ (C10D_NCCL_CHECK _) _ => eapply benign_C10D_NCCL_CHECK; eauto
  | |- benign _ _ (lock _) _ => apply benign_lock
  | |- benign _ _ (unlock _) _ => apply benign_unlock
  | |- benign _ _ (ret _) _ => apply benign_ret; exact I
  end.

(** Both collectives are the same sequence up to the primitive they issue
    per tensor; so is the argument. *)
Ltac collective_hoare this self tensors h0 Hlive Hal :=
  let HI0 := fresh "HI0" in
  let Hok := fresh "Hok" in
  let Hne := fresh "Hne" in
  let comms := fresh "comms" in
  let h1 := fresh "h1" in
  let self1 := fresh "self1" in
  let Hext := fresh "Hext" in
  let Hc := fresh "Hc" in
  let Hal1 := fresh "Hal1" in
  let HI1 := fresh "HI1" in
  let Hk := fresh "Hk" in
  let streams := fresh "streams" in
  let events := fresh "events" in
  let Es := fresh "Es" in
  let Ee := fresh "Ee" in
  let Lc := fresh "Lc" in
  let Ls := fresh "Ls" in
  let Le := fresh "Le" in
  let work := fresh "work" in
  let Hw := fresh "Hw" in
  let Hd := fresh "Hd" in
  let Hl := fresh "Hl" in
  let j := fresh "j" in
  let t := fresh "t" in
  let Hj := fresh "Hj" in
  let h := fresh "h" in
  let Hq := fresh "Hq" in
  assert (HI0 : exists self', h0 = <[this := self']> h0 /\
                              extends self self' /\ aligned self')
    by (exists self; split; [ symmetry; apply insert_id; exact Hlive | ];
        split; [ apply extends_refl | exact Hal ]);
  eapply (hoare_benign_bind (eq h0));
    [ apply benign_deref; intros ? <-; exact Hlive
    | reflexivity | exact HI0 | intros ? <- ];
  eapply (hoare_benign_bind (eq h0));
    [ apply benign_lift; rewrite tensorCheckHelper_refines;
      match goal with
      | |- context [first_violation ?v ?i ?o ?r] =>
          let E := fresh "E" in
          destruct (first_violation v i o r) eqn:E; simpl;
          [ apply Ex_validation; eapply first_violation_message; exact E
          | exact Logic.I ]
      end
    | reflexivity | exact HI0 | intros [] Hok ];
  rewrite getDevicesOfTensors_map;
  pose proof (validated_nonempty _ _ _ _ Hok) as Hne;
  eapply hoare_bind;
    [ eapply hoare_conseq;
      [ apply (getNCCLComm_hoare this self _ _ h0 Hlive);
        let Hempty := fresh "Hempty" in
        intros Hempty; destruct tensors as [ | ? ? ]; [ contradiction | ];
        simpl in Hempty; rewrite getKeyFromDevices_nonempty in Hempty;
        discriminate
      | auto | intros comms h Hq; exact Hq | intros h <-; exact HI0 ]
    | ];
  intros comms h1 (self1 & -> & Hext & Hc & Hal1);
  specialize (Hal1 Hal eq_refl);
  assert (HI1 : exists self', <[this := self1]> h0 = <[this := self']> h0 /\
                              extends self self' /\ aligned self')
    by (exists self1; auto);
  eapply (hoare_benign_bind (eq (<[this := self1]> h0)));
    [ apply benign_deref; intros ? <-; apply lookup_insert_eq
    | reflexivity | exact HI1 | intros ? <- ];
  pose proof (Hal1 (getKeyFromDevices (map get_device tensors))) as Hk;
  rewrite Hc in Hk;
  destruct (ncclStreams_ self1 !! getKeyFromDevices (map get_device tensors))
    as [streams | ] eqn:Es; [ | contradiction ];
  destruct (ncclEvents_ self1 !! getKeyFromDevices (map get_device tensors))
    as [events | ] eqn:Ee; [ | contradiction ];
  destruct (Hk _ eq_refl) as (Lc & Ls & Le); rewrite length_map in Lc, Ls, Le;
  unfold subscript; rewrite Es, Ee; rewrite with_caches_same;
  apply hoare_assign_bind; rewrite insert_insert_eq;
  eapply (hoare_benign (eq (<[this := self1]> h0)) _ _ _
            (fun work => devices_ work = map get_device tensors /\
                         length (cudaEvents_ work) = length tensors));
    [ | reflexivity | exact HI1
      | intros work Hw; split;
        [ exists self1; split; [ reflexivity | ]; split; [ exact Hext | ];
          split; [ exact Hal1 | rewrite Hc; eauto ]
        | exact Hw ] ];
  eapply benign_bind;
    [ eapply benign_syncStreams; eauto; now rewrite length_map | intros _ _ ];
  eapply benign_bind; [ eapply benign_WorkNCCL_ctor; eauto | intros work [Hd Hl] ];
  rewrite length_map in Hl;
  eapply benign_bind; [ apply benign_lock | intros _ _ ];
  eapply benign_finally; [ | apply benign_unlock ];
  eapply benign_bind; [ calm | intros ? ? ];
  eapply benign_bind; [ calm | intros ? ? ];
  eapply benign_bind;
    [ apply benign_for_each; intros j t Hj; apply lookup_lt_Some in Hj;
      simpl; repeat calm
    | intros ? ? ];
  eapply benign_bind; [ calm | intros ? ? ];
  eapply benign_bind; [ calm | intros ? ? ];
  eapply benign_bind; [ eapply benign_record_events; eauto | intros ? ? ];
  apply benign_ret; now rewrite <- Hl.

Lemma allreduce_hoare this self tensors opts h0 :
  h0 !! this = Some self ->
  aligned self ->
  hoare h0 Ex (allreduce env this tensors opts)
    (fun work h =>
       (exists self',
          h = <[this := self']> h0 /\ extends self self' /\ aligned self' /\
          is_Some (devNCCLCommMap_ self'
                     !! getKeyFromDevices (map get_device tensors))) /\
       devices_ work = map get_device tensors /\
       length (cudaEvents_ work) = length tensors)
    (fun h => exists self', h = <[this := self']> h0 /\ extends self self' /\ aligned self').
Proof.
  intros Hlive Hal. unfold allreduce.
  collective_hoare this self tensors h0 Hlive Hal.
Qed.

Lemma broadcast_hoare this self tensors opts h0 :
  h0 !! this = Some self ->
  aligned self ->
  hoare h0 Ex (broadcast env this tensors opts)
    (fun work h =>
       (exists self',
          h = <[this := self']> h0 /\ extends self self' /\ aligned self' /\
          is_Some (devNCCLCommMap_ self'
                     !! getKeyFromDevices (map get_device tensors))) /\
       devices_ work = map get_device tensors /\
       length (cudaEvents_ work) = length tensors)
    (fun h => exists self', h = <[this := self']> h0 /\ extends self self' /\ aligned self').
Proof.
  intros Hlive Hal. unfold broadcast.
  collective_hoare this self tensors h0 Hlive Hal.
Qed.

End Hoare.

Lemma collective_error_no_devices : ~ collective_error (runtime_error msg_no_devices).
Proof.
  simpl. unfold validation_messages. intros [Hin | [E | E]]; try discriminate.
  repeat (apply elem_of_cons in Hin as [E | Hin]; [ discriminate | ]).
  now apply elem_of_nil in Hin.
Qed.

Lemma collective_error_validation m :
  m ∈ validation_messages -> collective_error (runtime_error m).
Proof. intros Hm. now left. Qed.

(** X6: on a live group, [getNCCLComm] never has undefined behaviour and
    is all or nothing.  When it does not return, no object has changed:
    no partial cache entry is left behind.  When it returns, the group
    differs only by cache entries that were added, the returned vector is
    what the cache holds under the key, and if the caches were aligned and
    the key is that of the device list, they still are. *)
Theorem getNCCLComm_all_or_nothing
    (env : Env) (this : nat) (self : ProcessGroupNCCL)
    (key : string) (devices : list Z) (s : Sys) :
  objects s !! this = Some self ->
  fst (getNCCLComm env this key devices s) <> Undefined /\
  ((forall comms, fst (getNCCLComm env this key devices s) <> Ok comms) ->
   objects (snd (getNCCLComm env this key devices s)) = objects s) /\
  (forall comms,
     fst (getNCCLComm env this key devices s) = Ok comms ->
     exists self',
       objects (snd (getNCCLComm env this key devices s))
       = <[this := self']> (objects s) /\
       extends self self' /\
       devNCCLCommMap_ self' !! key = Some comms /\
       (aligned self -> key = getKeyFromDevices devices -> aligned self')).
Proof.
  intros Hlive.
  pose proof (getNCCLComm_hoare env (fun _ => True)
                (fun _ _ => I) (fun _ _ => I) I I
                this self key devices (objects s) Hlive (fun _ => I) s eq_refl) as Hh.
  destruct (fst (getNCCLComm env this key devices s)) as [comms | e | | ].
  - split; [ discriminate | ]. split; [ intros Hn; now destruct (Hn comms) | ].
    now intros ? [= <-].
  - destruct Hh as [_ <-]. repeat split; try discriminate; auto.
  - rewrite <- Hh. repeat split; try discriminate; auto.
  - contradiction.
Qed.

Lemma getNCCLComm_all_or_nothing_witness :
  objects (snd (getNCCLComm env_failing_group_end 0 "0,1" [0; 1] sample_sys))
  = objects sample_sys.
Proof.
  apply (getNCCLComm_all_or_nothing env_failing_group_end 0%nat sample_root_group
           "0,1" [0; 1] sample_sys).
  - vm_compute. reflexivity.
  - intros comms. vm_compute. discriminate.
Defined.

Lemma collective_outcome {A} (m : M A) (this : nat) (self : ProcessGroupNCCL)
    (P : ProcessGroupNCCL -> Prop) (Q : A -> Prop) (s : Sys) :
  hoare (objects s) collective_error m
    (fun a h =>
       (exists self', h = <[this := self']> (objects s) /\
                      extends self self' /\ aligned self' /\ P self') /\ Q a)
    (fun h => exists self', h = <[this := self']> (objects s) /\
                            extends self self' /\ aligned self') ->
  fst (m s) <> Undefined /\
  fst (m s) <> Throw (runtime_error msg_no_devices) /\
  (forall e, fst (m s) = Throw e -> collective_error e) /\
  (exists self',
     objects (snd (m s)) = <[this := self']> (objects s) /\
     extends self self' /\ aligned self') /\
  (forall a, fst (m s) = Ok a ->
     Q a /\ exists self', objects (snd (m s)) !! this = Some self' /\ P self').
Proof.
  intros Hh. specialize (Hh s eq_refl).
  destruct (fst (m s)) as [a | e | | ].
  - destruct Hh as [(self' & Hs & He & Ha & HP) HQ].
    split; [ discriminate | ]. split; [ discriminate | ].
    split; [ discriminate | ]. split; [ now exists self' | ].
    intros ? [= <-]. split; [ exact HQ | ].
    exists self'. split; [ rewrite Hs; apply lookup_insert_eq | exact HP ].
  - destruct Hh as [He HI].
    split; [ discriminate | ].
    split; [ intros [= ->]; now apply collective_error_no_devices in He | ].
    split; [ now intros ? [= <-] | ].
    split; [ exact HI | discriminate ].
  - repeat split; try discriminate; auto.
  - contradiction.
Qed.

(** X7: on a live group whose caches are aligned, [allreduce] never has
    undefined behaviour: no vector is indexed out of range.  It throws
    only the errors of the collectives, never the "devices are not known"
    error of [getNCCLComm].  Whatever the outcome, the group differs only
    by added cache entries and its caches are aligned again.  When it
    returns, the work lists the tensors' devices and holds one event per
    tensor, and the group holds communicators under the key of the
    tensors' devices. *)
Theorem allreduce_defined
    (env : Env) (this : nat) (self : ProcessGroupNCCL)
    (tensors : list Tensor) (opts : AllreduceOptions) (s : Sys) :
  objects s !! this = Some self ->
  aligned self ->
  fst (allreduce env this tensors opts s) <> Undefined /\
  fst (allreduce env this tensors opts s) <> Throw (runtime_error msg_no_devices) /\
  (forall e, fst (allreduce env this tensors opts s) = Throw e -> collective_error e) /\
  (exists self',
     objects (snd (allreduce env this tensors opts s)) = <[this := self']> (objects s) /\
     extends self self' /\ aligned self') /\
  (forall work,
     fst (allreduce env this tensors opts s) = Ok work ->
     (devices_ work = map get_device tensors /\
      length (cudaEvents_ work) = length tensors) /\
     exists self',
       objects (snd (allreduce env this tensors opts s)) !! this = Some self' /\
       is_Some (devNCCLCommMap_ self' !! getKeyFromDevices (map get_device tensors))).
Proof.
  intros Hlive Hal.
  apply (collective_outcome (allreduce env this tensors opts) this self
           (fun self' =>
              is_Some (devNCCLCommMap_ self'
                         !! getKeyFromDevices (map get_device tensors)))
           (fun work => devices_ work = map get_device tensors /\
                        length (cudaEvents_ work) = length tensors)).
  exact (allreduce_hoare env collective_error (fun _ Hrc => Hrc) (fun _ Hrc => Hrc)
           eq_refl (or_intror (or_intror eq_refl)) (or_intror (or_introl eq_refl))
           collective_error_validation this self tensors opts (objects s)
           Hlive Hal).
Qed.

Lemma allreduce_defined_witness :
  fst (allreduce env_ready 0 [sample_tensor 0; sample_tensor 1]
         {| reduceOp := SUM |} sample_sys) <> Undefined.
Proof.
  apply (allreduce_defined env_ready 0%nat sample_root_group
           [sample_tensor 0; sample_tensor 1] {| reduceOp := SUM |} sample_sys).
  - vm_compute. reflexivity.
  - intros key. simpl. rewrite !lookup_empty. exact I.
Defined.

(** X8: the same for [broadcast]. *)
Theorem broadcast_defined
    (env : Env) (this : nat) (self : ProcessGroupNCCL)
    (tensors : list Tensor) (opts : BroadcastOptions) (s : Sys) :
  objects s !! this = Some self ->
  aligned self ->
  fst (broadcast env this tensors opts s) <> Undefined /\
  fst (broadcast env this tensors opts s) <> Throw (runtime_error msg_no_devices) /\
  (forall e, fst (broadcast env this tensors opts s) = Throw e -> collective_error e) /\
  (exists self',
     objects (snd (broadcast env this tensors opts s)) = <[this := self']> (objects s) /\
     extends self self' /\ aligned self') /\
  (forall work,
     fst (broadcast env this tensors opts s) = Ok work ->
     (devices_ work = map get_device tensors /\
      length (cudaEvents_ work) = length tensors) /\
     exists self',
       objects (snd (broadcast env this tensors opts s)) !! this = Some self' /\
       is_Some (devNCCLCommMap_ self' !! getKeyFromDevices (map get_device tensors))).
Proof.
  intros Hlive Hal.
  apply (collective_outcome (broadcast env this tensors opts) this self
           (fun self' =>
              is_Some (devNCCLCommMap_ self'
                         !! getKeyFromDevices (map get_device tensors)))
           (fun work => devices_ work = map get_device tensors /\
                        length (cudaEvents_ work) = length tensors)).
  exact (broadcast_hoare env collective_error (fun _ Hrc => Hrc) (fun _ Hrc => Hrc)
           eq_refl (or_intror (or_intror eq_refl)) (or_intror (or_introl eq_refl))
           collective_error_validation this self tensors opts (objects s)
           Hlive Hal).
Qed.

Lemma broadcast_defined_witness :
  fst (broadcast env_ready 0 [sample_tensor 0; sample_tensor 1]
         {| rootRank := 0; rootTensor := 0 |} sample_sys) <> Undefined.
Proof.
  apply (broadcast_defined env_ready 0%nat sample_root_group
           [sample_tensor 0; sample_tensor 1]
           {| rootRank := 0; rootTensor := 0 |} sample_sys).
  - vm_compute. reflexivity.
  - intros key. simpl. rewrite !lookup_empty. exact I.
Defined.

(** *** The caches of every group in every state of every history *)

Lemma all_aligned_empty : all_aligned ∅.
Proof. intros this o Ho. rewrite lookup_empty in Ho. discriminate. Qed.

Lemma all_aligned_insert h this o :
  all_aligned h -> aligned o -> all_aligned (<[this := o]> h).
Proof.
  intros Hh Ho t o'. destruct (decide (t = this)) as [-> | Hne].
  - rewrite lookup_insert_eq. now intros [= <-].
  - rewrite lookup_insert_ne by congruence. apply Hh.
Qed.

Lemma all_aligned_delete h this : all_aligned h -> all_aligned (delete this h).
Proof.
  intros Hh t o Ho. apply lookup_delete_Some in Ho. destruct Ho as [_ Ho].
  exact (Hh t o Ho).
Qed.

Lemma forget_outcome {A} (m : M A) s :
  snd (forget m s) = snd (m s) /\
  (fst (forget m s) = Undefined <-> fst (m s) = Undefined).
Proof.
  unfold forget, bind. destruct (m s) as [[a | e | | ] s1]; simpl;
    (split; [ reflexivity | split; intros; congruence ]).
Qed.

Lemma ctor_outcome env store rank size s :
  fst (ProcessGroupNCCL_ctor env store rank size s) <> Undefined /\
  exists o,
    aligned o /\
    objects (snd (ProcessGroupNCCL_ctor env store rank size s))
    = <[length (log s) := o]> (objects s).
Proof.
  split; [ discriminate | ].
  eexists. split; [ | reflexivity ].
  intros key. simpl. rewrite !lookup_empty. exact I.
Qed.

Lemma collective_on_dead_group {A} (k : ProcessGroupNCCL -> M A) this s :
  objects s !! this = None ->
  bind (deref this) k s = (Undefined, s).
Proof. intros Hn. unfold bind, deref. now rewrite Hn. Qed.

Lemma dtor_malformed this s o :
  objects s !! this = Some o ->
  stoull (processGroupID_ o) = None ->
  ProcessGroupNCCL_dtor this s
  = (Throw (invalid_argument "stoull"),
     with_log s (log s ++ [Lock pgTrackingLock_; Unlock pgTrackingLock_])).
Proof.
  intros Ho Hk. unfold ProcessGroupNCCL_dtor, bind at 1, deref. rewrite Ho, Hk.
  cbv [bind lock unlock emit finally throw release].
  cbn [log stores pgUniqueNCCLIDCnt_ processGroupCounter_ objects with_log].
  f_equal. apply Sys_eq; simpl; try reflexivity. now rewrite <- !app_assoc.
Qed.

Lemma dtor_outcome this s :
  (fst (ProcessGroupNCCL_dtor this s) = Undefined <-> objects s !! this = None) /\
  (objects (snd (ProcessGroupNCCL_dtor this s)) = objects s \/
   objects (snd (ProcessGroupNCCL_dtor this s)) = delete this (objects s)).
Proof.
  destruct (objects s !! this) as [o | ] eqn:Ho.
  2:{ unfold ProcessGroupNCCL_dtor. rewrite (collective_on_dead_group _ _ _ Ho).
      simpl. split; [ tauto | now left ]. }
  destruct (stoull (processGroupID_ o)) as [k | ] eqn:Hk.
  - rewrite (dtor_closed this s o k Ho Hk). simpl.
    split; [ split; discriminate | now right ].
  - rewrite (dtor_malformed this s o Ho Hk). simpl.
    split; [ split; discriminate | now left ].
Qed.

Lemma step_outcome env op s :
  all_aligned (objects s) ->
  all_aligned (objects (snd (step env op s))) /\
  (fst (step env op s) = Undefined <-> dangling op s).
Proof.
  intros Hall.
  assert (Hcoll : forall A (m : M A) this P Q,
             (forall self, objects s !! this = Some self -> aligned self ->
                hoare (objects s) collective_error m
                  (fun a h =>
                     (exists self', h = <[this := self']> (objects s) /\
                                    extends self self' /\ aligned self' /\
                                    P self') /\ Q a)
                  (fun h => exists self', h = <[this := self']> (objects s) /\
                                          extends self self' /\ aligned self')) ->
             (objects s !! this = None -> m s = (Undefined, s)) ->
             all_aligned (objects (snd (m s))) /\
             (fst (m s) = Undefined <-> objects s !! this = None)).
  { intros A m this P Q Hlive Hdead.
    destruct (objects s !! this) as [self | ] eqn:Hs.
    - destruct (collective_outcome m this self P Q s
                  (Hlive self eq_refl (Hall _ _ Hs)))
        as (Hu & _ & _ & (self' & -> & _ & Hal') & _).
      split; [ now apply all_aligned_insert | ].
      split; [ intros; contradiction | discriminate ].
    - rewrite (Hdead eq_refl). simpl. split; [ exact Hall | tauto ]. }
  destruct op as [store rank size | this | this tensors opts | this tensors opts];
    unfold step, dangling; simpl target.
  - destruct (forget_outcome (ProcessGroupNCCL_ctor env store rank size) s) as [-> ->].
    destruct (ctor_outcome env store rank size s) as (Hu & o & Ho & ->).
    split; [ now apply all_aligned_insert | ].
    split; [ intros; contradiction | intros (? & [=] & _) ].
  - destruct (dtor_outcome this s) as [Hu Ho].
    split.
    + destruct Ho as [-> | ->]; [ exact Hall | now apply all_aligned_delete ].
    + rewrite Hu. split; [ intros Hn; now exists this | now intros (? & [= <-] & Hn) ].
  - destruct (forget_outcome (allreduce env this tensors opts) s) as [-> ->].
    destruct (Hcoll _ (allreduce env this tensors opts) this
                (fun self' =>
                   is_Some (devNCCLCommMap_ self'
                              !! getKeyFromDevices (map get_device tensors)))
                (fun work => devices_ work = map get_device tensors /\
                             length (cudaEvents_ work) = length tensors))
      as [Ha Hu].
    + intros self Hlive Hal.
      exact (allreduce_hoare env collective_error (fun _ Hrc => Hrc) (fun _ Hrc => Hrc)
               eq_refl (or_intror (or_intror eq_refl)) (or_intror (or_introl eq_refl))
               collective_error_validation this self tensors opts (objects s)
               Hlive Hal).
    + intros Hn. unfold allreduce. now apply collective_on_dead_group.
    + split; [ exact Ha | ]. rewrite Hu.
      split; [ intros Hn; now exists this | now intros (? & [= <-] & Hn) ].
  - destruct (forget_outcome (broadcast env this tensors opts) s) as [-> ->].
    destruct (Hcoll _ (broadcast env this tensors opts) this
                (fun self' =>
                   is_Some (devNCCLCommMap_ self'
                              !! getKeyFromDevices (map get_device tensors)))
                (fun work => devices_ work = map get_device tensors /\
                             length (cudaEvents_ work) = length tensors))
      as [Ha Hu].
    + intros self Hlive Hal.
      exact (broadcast_hoare env collective_error (fun _ Hrc => Hrc) (fun _ Hrc => Hrc)
               eq_refl (or_intror (or_intror eq_refl)) (or_intror (or_introl eq_refl))
               collective_error_validation this self tensors opts (objects s)
               Hlive Hal).
    + intros Hn. unfold broadcast. now apply collective_on_dead_group.
    + split; [ exact Ha | ]. rewrite Hu.
      split; [ intros Hn; now exists this | now intros (? & [= <-] & Hn) ].
Qed.

Lemma occur_aligned env ev s :
  all_aligned (objects s) -> all_aligned (objects (snd (occur env ev s))).
Proof.
  destruct ev as [op | st key val]; simpl; [ | trivial ].
  intros Hs. now apply step_outcome.
Qed.

Lemma run_aligned env evs :
  forall s, all_aligned (objects s) -> all_aligned (objects (run env evs s)).
Proof.
  induction evs as [ | ev evs IH ]; intros s Hs; simpl; [ exact Hs | ].
  pose proof (occur_aligned env ev s Hs) as Ha.
  destruct (occur env ev s) as [[[] | e | | ] s1]; simpl in *; auto.
Qed.

(** X9: alignment of the caches is kept by every history.  From any state
    in which the three caches of every live group are aligned (they hold
    the same keys and, under the key of a device list, one communicator,
    one stream and one event per device), and so from start-up, every
    sequence of constructions, destructions, collectives and publications
    by peers, whatever the runtime answers and whatever the ranks of the
    groups, ends in such a state. *)
Theorem reachable_caches_aligned (env : Env) (evs : list Event) (s : Sys) :
  all_aligned (objects s) ->
  all_aligned (objects (run env evs s)).
Proof. apply run_aligned. Qed.

Lemma reachable_caches_aligned_witness :
  all_aligned (objects (run env_ready sample_peer_history Sys_init)).
Proof.
  apply (reachable_caches_aligned env_ready sample_peer_history Sys_init).
  intros this o Ho. simpl in Ho. rewrite lookup_empty in Ho. discriminate Ho.
Defined.

(** X10: in every state with aligned caches, and in every state a history
    leads to from one, an operation has undefined behaviour exactly when
    it is applied to a group that is not alive: destroyed, or never
    constructed. *)
Theorem undefined_only_on_dead_groups
    (env : Env) (evs : list Event) (op : Op) (s : Sys) :
  all_aligned (objects s) ->
  fst (step env op (run env evs s)) = Undefined
  <-> dangling op (run env evs s).
Proof.
  intros Hs. apply step_outcome. now apply run_aligned.
Qed.

Lemma undefined_only_on_dead_groups_witness :
  fst (step env_ready (Destroy 1) (run env_ready sample_peer_history Sys_init))
  = Undefined
  <-> dangling (Destroy 1) (run env_ready sample_peer_history Sys_init).
Proof.
  apply (undefined_only_on_dead_groups env_ready sample_peer_history (Destroy 1)
           Sys_init).
  intros this o Ho. simpl in Ho. rewrite lookup_empty in Ho. discriminate Ho.
Defined.

(** *** Automata over the log *)

Lemma accepts_app {St} (delta : St -> Action -> option St) p l1 l2 :
  accepts delta p (l1 ++ l2) = accepts delta p l1 ≫= fun q => accepts delta q l2.
Proof.
  revert p. induction l1 as [ | a l1 IH ]; intros p; simpl; [ reflexivity | ].
  destruct (delta p a); [ apply IH | reflexivity ].
Qed.

Lemma accepts_only ok l :
  accepts (only ok) tt l = Some tt <-> Forall (fun a => ok a = true) l.
Proof.
  induction l as [ | a l IH ]; simpl.
  - split; [ constructor | reflexivity ].
  - unfold only at 1. destruct (ok a) eqn:E.
    + rewrite IH. split; [ now constructor | now inversion 1 ].
    + split; [ discriminate | inversion 1; congruence ].
Qed.

Section Traced.

Context {St : Type}.
Variable delta : St -> Action -> option St.
Variable F : option exn -> St -> Prop.

Local Abbreviation traced := (traced delta F).

Lemma traced_ret {A} p (a : A) : traced p (ret a) p.
Proof. intros s. exists []. simpl. now rewrite app_nil_r. Qed.

Lemma traced_throw {A} p e q : F (Some e) p -> traced p (throw e : M A) q.
Proof.
  intros HF s. exists []. simpl. rewrite app_nil_r. split; [ reflexivity | eauto ].
Qed.

Lemma traced_lift {A} p (o : outcome A) :
  match o with
  | Ok _ => True
  | Throw e => F (Some e) p
  | Blocked | Undefined => F None p
  end ->
  traced p (lift o) p.
Proof.
  intros HF s. exists []. simpl. rewrite app_nil_r. split; [ reflexivity | ].
  destruct o; eauto.
Qed.

Lemma traced_idx {A} p (v : list A) i : F None p -> traced p (idx v i) p.
Proof.
  intros HF s. exists []. unfold idx. destruct (v !! i); simpl;
    rewrite app_nil_r; (split; [ reflexivity | eauto ]).
Qed.

Lemma traced_deref p this : F None p -> traced p (deref this) p.
Proof.
  intros HF s. exists []. unfold deref. destruct (objects s !! this); simpl;
    rewrite app_nil_r; (split; [ reflexivity | eauto ]).
Qed.

Lemma traced_assign p this o : traced p (assign this o) p.
Proof. intros s. exists []. simpl. now rewrite app_nil_r. Qed.

Lemma traced_release p this : traced p (release this) p.
Proof. intros s. exists []. simpl. now rewrite app_nil_r. Qed.

Lemma traced_get_sys p : traced p get_sys p.
Proof. intros s. exists []. simpl. now rewrite app_nil_r. Qed.

Lemma traced_bind {A B} p q r (m : M A) (k : A -> M B) :
  traced p m q -> (forall a, traced q (k a) r) -> traced p (bind m k) r.
Proof.
  intros Hm Hk s. destruct (Hm s) as (l1 & E1 & H1). unfold bind.
  destruct (m s) as [[a | e | | ] s1]; simpl in *; try (exists l1; now split).
  destruct (Hk a s1) as (l2 & E2 & H2).
  exists (l1 ++ l2)%list. split; [ now rewrite E2, E1, app_assoc | ].
  rewrite accepts_app, H1. simpl. exact H2.
Qed.

Lemma traced_for_each {A B} p (body : nat -> A -> M B) (v : list A) :
  (forall i x, traced p (body i x) p) ->
  forall i, traced p (for_each body i v) p.
Proof.
  intros Hbody. induction v as [ | x v IH ]; intros i; simpl.
  - apply traced_ret.
  - eapply traced_bind; [ apply Hbody | intros y ].
    eapply traced_bind; [ apply IH | intros ys ].
    apply traced_ret.
Qed.

Lemma traced_emit p q a : delta p a = Some q -> traced p (emit a) q.
Proof. intros Hs s. exists [a]. simpl. now rewrite Hs. Qed.

Lemma traced_cuda_call env p q a : delta p a = Some q -> traced p (cuda_call env a) q.
Proof. intros Hs s. exists [a]. simpl. now rewrite Hs. Qed.

Lemma traced_nccl_call env p q a : delta p a = Some q -> traced p (nccl_call env a) q.
Proof. intros Hs s. exists [a]. simpl. now rewrite Hs. Qed.

Lemma traced_store_set p q st key val :
  delta p (StoreSet st key val) = Some q -> traced p (store_set st key val) q.
Proof. intros Hs s. exists [StoreSet st key val]. simpl. now rewrite Hs. Qed.

Lemma traced_store_get p st key :
  delta p (StoreGet st key) = Some p -> F None p -> traced p (store_get st key) p.
Proof.
  intros Hs HF s. exists [StoreGet st key]. unfold store_get.
  destruct (stores s !! (st, key)); simpl; rewrite Hs; eauto.
Qed.

Lemma traced_set_pgUniqueNCCLIDCnt p q gid v :
  delta p (SeqSet gid v) = Some q -> traced p (set_pgUniqueNCCLIDCnt gid v) q.
Proof. intros Hs s. exists [SeqSet gid v]. simpl. now rewrite Hs. Qed.

Lemma traced_erase_pgUniqueNCCLIDCnt p q gid :
  delta p (SeqErase gid) = Some q -> traced p (erase_pgUniqueNCCLIDCnt gid) q.
Proof. intros Hs s. exists [SeqErase gid]. simpl. now rewrite Hs. Qed.

Lemma traced_set_processGroupCounter p q v :
  delta p (CounterSet v) = Some q -> traced p (set_processGroupCounter v) q.
Proof. intros Hs s. exists [CounterSet v]. simpl. now rewrite Hs. Qed.

Lemma traced_C10D_CUDA_CHECK p rc :
  F (Some (cuda_failure rc)) p -> traced p (C10D_CUDA_CHECK rc) p.
Proof.
  intros HF. unfold C10D_CUDA_CHECK. destruct (is_cudaSuccess rc).
  - apply traced_ret.
  - now apply traced_throw.
Qed.

Lemma traced_C10D_NCCL_CHECK p rc :
  F (Some (nccl_failure rc)) p -> traced p (C10D_NCCL_CHECK rc) p.
Proof.
  intros HF. unfold C10D_NCCL_CHECK. destruct rc.
  - apply traced_ret.
  - now apply traced_throw.
Qed.

Lemma traced_getNcclDataType p t :
  F (Some (runtime_error msg_unsupported_type)) p -> traced p (getNcclDataType t) p.
Proof.
  intros HF. unfold getNcclDataType. destruct (ncclDataType t).
  - apply traced_ret.
  - now apply traced_throw.
Qed.

(** A cleanup that logs one action and cannot fail. *)
Lemma traced_finally {A} (F' : option exn -> St -> Prop) p q (m : M A) a
    (after : St -> St) :
  c10d.traced delta F' p m q ->
  delta q a = Some (after q) ->
  (forall o r, F' o r -> delta r a = Some (after r) /\ F o (after r)) ->
  traced p (finally m (emit a)) (after q).
Proof.
  intros Hm Hq HF s. destruct (Hm s) as (l & E & Hl). unfold finally.
  destruct (m s) as [r s1]. simpl in *.
  exists (l ++ [a])%list.
  split; [ destruct r; simpl; now rewrite E, app_assoc | ].
  rewrite accepts_app.
  destruct r as [x | e | | ]; simpl.
  - rewrite Hl. simpl. now rewrite Hq.
  - destruct Hl as (r & -> & Hr). destruct (HF _ r Hr) as [Hh HFr].
    simpl. rewrite Hh. eauto.
  - destruct Hl as (r & -> & Hr). destruct (HF _ r Hr) as [Hh HFr].
    simpl. rewrite Hh. eauto.
  - destruct Hl as (r & -> & Hr). destruct (HF _ r Hr) as [Hh HFr].
    simpl. rewrite Hh. eauto.
Qed.

End Traced.

Ltac trace_side :=
  first
    [ eassumption
    | reflexivity
    | now eauto
    | match goal with
      | |- match ?o with _ => _ end => destruct o; first [ exact I | now eauto ]
      end
    | solve [ intros; split; [ reflexivity | vm_compute; first [ exact I | reflexivity ] ] ] ].

(** One step of a trace argument, chosen by the head of the program. *)
Ltac paced :=
  lazymatch goal with
  | |- traced _ _ _ (bind _ _) _ => eapply traced_bind; [ paced | intros ? ]
  | |- traced _ _ _ (ret _) _ => apply traced_ret
  | |- traced _ _ _ (throw _) _ => apply traced_throw; trace_side
  | |- traced _ _ _ (lift _) _ => apply traced_lift; trace_side
  | |- traced _ _ _ (idx _ _) _ => apply traced_idx; trace_side
  | |- traced _ _ _ (deref _) _ => apply traced_deref; trace_side
  | |- traced _ _ _ (assign _ _) _ => apply traced_assign
  | |- traced _ _ _ (release _) _ => apply traced_release
  | |- traced _ _ _ get_sys _ => apply traced_get_sys
  | |- traced _ _ _ (emit _) _ => apply traced_emit; trace_side
  | |- traced _ _ _ (lock _) _ => apply traced_emit; trace_side
  | |- traced _ _ _ (unlock _) _ => apply traced_emit; trace_side
  | |- traced _ _ _ (cuda_call _ _) _ => apply traced_cuda_call; trace_side
  | |- traced _ _ _ (nccl_call _ _) _ => apply traced_nccl_call; trace_side
  | |- traced _ _ _ (store_set _ _ _) _ => apply traced_store_set; trace_side
  | |- traced _ _ _ (store_get _ _) _ => apply traced_store_get; trace_side
  | |- traced _ _ _ (set_pgUniqueNCCLIDCnt _ _) _ =>
      apply traced_set_pgUniqueNCCLIDCnt; trace_side
  | |- traced _ _ _ (erase_pgUniqueNCCLIDCnt _) _ =>
      apply traced_erase_pgUniqueNCCLIDCnt; trace_side
  | |- traced _ _ _ (set_processGroupCounter _) _ =>
      apply traced_set_processGroupCounter; trace_side
  | |- traced _ _ _ (C10D_CUDA_CHECK _) _ => apply traced_C10D_CUDA_CHECK; trace_side
  | |- traced _ _ _ (C10D_NCCL_CHECK _) _ => apply traced_C10D_NCCL_CHECK; trace_side
  | |- traced _ _ _ (getNcclDataType _) _ => apply traced_getNcclDataType; trace_side
  end.

Section Pieces.

Context {St : Type}.
Variable delta : St -> Action -> option St.
Variable F : option exn -> St -> Prop.
Variable env : Env.
Variable p : St.
Hypothesis HF_stuck : F None p.
Hypothesis HF_cuda : forall rc, F (Some (cuda_failure rc)) p.
Hypothesis HF_nccl : forall rc, F (Some (nccl_failure rc)) p.

Local Abbreviation traced := (traced delta F).

Lemma traced_setDevice d :
  delta p (SetDevice d) = Some p -> traced p (setDevice env d) p.
Proof. intros H1. unfold setDevice. repeat paced. Qed.

Lemma traced_CUDAStream_create :
  delta p StreamCreate = Some p -> traced p (CUDAStream_create env) p.
Proof. intros H1. unfold CUDAStream_create. repeat paced. Qed.

Lemma traced_CUDAEvent_create :
  delta p EventCreate = Some p -> traced p (CUDAEvent_create env) p.
Proof. intros H1. unfold CUDAEvent_create. repeat paced. Qed.

Lemma traced_NCCLComm_create n r id :
  delta p (NcclCommCreate n r id) = Some p -> traced p (NCCLComm_create env n r id) p.
Proof. intros H1. unfold NCCLComm_create. repeat paced. Qed.

Lemma traced_ncclGetUniqueId :
  delta p NcclGetUniqueId = Some p -> traced p (ncclGetUniqueId env) p.
Proof. intros H1. unfold ncclGetUniqueId. repeat paced. Qed.

Lemma traced_lazyInitCUDA :
  delta p LazyInitCUDA = Some p -> traced p (lazyInitCUDA env) p.
Proof. intros H1. unfold lazyInitCUDA. repeat paced. Qed.

Lemma traced_broadcastUniqueNCCLID this ncclID :
  F (Some (invalid_argument "stoull")) p ->
  F (Some (runtime_error msg_bad_id_length)) p ->
  delta p (Lock pgTrackingLock_) = Some p ->
  delta p (Unlock pgTrackingLock_) = Some p ->
  (forall gid v, delta p (SeqSet gid v) = Some p) ->
  (forall st key val, delta p (StoreSet st key val) = Some p) ->
  (forall st key, delta p (StoreGet st key) = Some p) ->
  traced p (broadcastUniqueNCCLID this ncclID) p.
Proof.
  intros Hs Hb H1 H2 H3 H4 H5. unfold broadcastUniqueNCCLID.
  eapply traced_bind; [ paced | intros self ].
  eapply traced_bind; [ paced | intros _ ].
  destruct (stoull (processGroupID_ self)); [ | repeat paced ].
  eapply traced_bind; [ paced | intros s0 ].
  eapply traced_bind; [ paced | intros _ ].
  eapply traced_bind; [ paced | intros _ ].
  destruct (Z.eqb (rank_ self) 0); [ repeat paced | ].
  eapply traced_bind; [ paced | intros val ].
  destruct (negb _); paced.
Qed.

Lemma traced_syncStreams thc devices events streams :
  (forall d, delta p (SetDevice d) = Some p) ->
  (forall e d, delta p (EventRecord e (ThcStream d)) = Some p) ->
  (forall st e, delta p (StreamWaitEvent st e) = Some p) ->
  traced p (syncStreams env thc devices events streams) p.
Proof.
  intros H1 H2 H3. unfold syncStreams.
  eapply traced_bind; [ | intros; apply traced_ret ].
  apply traced_for_each. intros i d.
  eapply traced_bind; [ now apply traced_setDevice | intros _ ].
  repeat paced.
Qed.

Lemma traced_WorkNCCL_ctor devices :
  (forall d, delta p (SetDevice d) = Some p) ->
  delta p EventCreate = Some p ->
  traced p (WorkNCCL_ctor env devices) p.
Proof.
  intros H1 H2. unfold WorkNCCL_ctor.
  eapply traced_bind; [ | intros; apply traced_ret ].
  apply traced_for_each. intros i d.
  eapply traced_bind; [ now apply traced_setDevice | intros _ ].
  now apply traced_CUDAEvent_create.
Qed.

Lemma traced_record_events (streams : list CUDAStream) (work : WorkNCCL)
    (tensors : list Tensor) :
  (forall e st, delta p (EventRecord e st) = Some p) ->
  traced p
    (for_each
       (fun i _ =>
          let* ncclStream := idx streams i in
          let* cudaEvent := idx (cudaEvents_ work) i in
          let* rc :=
            cuda_call env (EventRecord (getEvent cudaEvent) (getStream ncclStream)) in
          C10D_CUDA_CHECK rc)
       0%nat tensors)
    p.
Proof. intros H1. apply traced_for_each. intros i t. repeat paced. Qed.

End Pieces.

(** *** The allocator's mutex and the batching bracket *)

Section Protocol.

Variable env : Env.

Local Abbreviation phased := (traced phase_step exit_phase idle).

Lemma validation_exit m :
  m ∈ validation_messages -> exit_phase (Some (runtime_error m)) idle.
Proof.
  unfold validation_messages. intros Hin.
  repeat (apply elem_of_cons in Hin as [-> | Hin];
          [ split; [ reflexivity | vm_compute; exact I ] | ]).
  now apply elem_of_nil in Hin.
Qed.

Lemma phased_getNCCLComm this key devices :
  phased (getNCCLComm env this key devices) idle.
Proof.
  unfold getNCCLComm.
  eapply traced_bind; [ paced | intros self ].
  destruct (is_empty key); [ paced | ].
  destruct (devNCCLCommMap_ self !! key); [ paced | ].
  eapply traced_bind.
  { destruct (Z.eqb (rank_ self) 0); [ | paced ].
    eapply traced_bind; [ apply traced_ncclGetUniqueId; trace_side | intros [rc id] ].
    repeat paced. }
  intros ncclID0.
  eapply traced_bind; [ apply traced_broadcastUniqueNCCLID; trace_side | intros ncclID ].
  eapply traced_bind; [ paced | intros rc ].
  eapply traced_bind; [ paced | intros _ ].
  eapply traced_bind.
  { apply traced_for_each. intros i d.
    eapply traced_bind; [ apply traced_setDevice; trace_side | intros _ ].
    eapply traced_bind; [ apply traced_NCCLComm_create; trace_side | intros comm ].
    eapply traced_bind; [ apply traced_CUDAStream_create; trace_side | intros stream ].
    eapply traced_bind; [ apply traced_CUDAEvent_create; trace_side | intros event ].
    paced. }
  intros created.
  eapply traced_bind; [ paced | intros rc' ].
  eapply traced_bind; [ paced | intros _ ].
  destruct (subscript _ _) as [cached comms'].
  repeat paced.
Qed.

(** Both collectives: everything up to the lock is done with the mutex
    free, the batch with the mutex held. *)
Ltac collective_phased :=
  eapply traced_bind; [ paced | intros ? ];
  eapply traced_bind;
  [ apply traced_lift; rewrite tensorCheckHelper_refines;
    match goal with
    | |- context [first_violation ?v ?i ?o ?r] =>
        let E := fresh "E" in
        destruct (first_violation v i o r) eqn:E; simpl;
        [ apply validation_exit; eapply first_violation_message; exact E
        | exact I ]
    end
  | intros ? ];
  eapply traced_bind; [ apply phased_getNCCLComm | intros ? ];
  eapply traced_bind; [ paced | intros ? ];
  destruct (subscript _ _) as [? ?];
  destruct (subscript _ _) as [? ?];
  eapply traced_bind; [ paced | intros ? ];
  eapply traced_bind; [ apply traced_syncStreams; trace_side | intros ? ];
  eapply traced_bind; [ apply traced_WorkNCCL_ctor; trace_side | intros ? ];
  eapply traced_bind; [ paced | intros ? ];
  apply (traced_finally phase_step exit_phase batch_phase
           {| mutex_held := true; group_open := false |}
           {| mutex_held := true; group_open := false |} _
           (Unlock cudaFreeMutex)
           (fun r => {| mutex_held := false; group_open := group_open r |}));
  [ | reflexivity
    | let r := fresh "r" in let Hr := fresh "Hr" in let Hb := fresh "Hb" in
      intros ? r [Hr Hb]; simpl; rewrite Hr;
      split; [ reflexivity | split; [ reflexivity | exact Hb ] ] ];
  eapply traced_bind; [ paced | intros ? ];
  eapply traced_bind; [ paced | intros ? ];
  eapply traced_bind;
  [ apply traced_for_each; intros ? ?;
    eapply traced_bind; [ paced | intros ? ];
    eapply traced_bind; [ apply traced_setDevice; trace_side | intros ? ];
    repeat paced
  | intros ? ];
  eapply traced_bind; [ paced | intros ? ];
  eapply traced_bind; [ paced | intros ? ];
  eapply traced_bind;
  [ apply traced_record_events;
    first [ trace_side
          | let st := fresh "st" in intros ? st; now destruct st ]
  | intros ? ];
  paced.

Lemma phased_allreduce this tensors opts :
  phased (allreduce env this tensors opts) idle.
Proof. unfold allreduce. collective_phased. Qed.

Lemma phased_broadcast this tensors opts :
  phased (broadcast env this tensors opts) idle.
Proof. unfold broadcast. collective_phased. Qed.

Lemma phased_ctor store rank size :
  phased (ProcessGroupNCCL_ctor env store rank size) idle.
Proof.
  unfold ProcessGroupNCCL_ctor.
  eapply traced_bind; [ paced | intros s0 ].
  eapply traced_bind; [ apply traced_lazyInitCUDA; trace_side | intros thc ].
  repeat paced.
Qed.

Lemma phased_dtor this : phased (ProcessGroupNCCL_dtor this) idle.
Proof.
  unfold ProcessGroupNCCL_dtor.
  eapply traced_bind; [ paced | intros self ].
  eapply traced_bind; [ paced | intros _ ].
  eapply traced_bind; [ | intros _; paced ].
  apply (traced_finally phase_step exit_phase exit_phase
           idle idle _ (Unlock pgTrackingLock_) (fun r => r));
    [ | reflexivity | intros ? r Hr; now split ].
  destruct (stoull (processGroupID_ self)); paced.
Qed.

Lemma phased_step op : phased (step env op) idle.
Proof.
  destruct op; unfold step, forget.
  - eapply traced_bind; [ apply phased_ctor | intros ?; paced ].
  - apply phased_dtor.
  - eapply traced_bind; [ apply phased_allreduce | intros ?; paced ].
  - eapply traced_bind; [ apply phased_broadcast | intros ?; paced ].
Qed.

End Protocol.

(** X11: whatever the runtime answers and however the operation ends, the
    calls that constructing or destroying a group or issuing a collective
    adds to the log respect the order the code relies on.  The allocator's
    mutex is never taken twice; every collective call is issued with the
    mutex held and inside a group bracket; brackets do not nest;
    communicators are created inside a bracket; completion events are
    recorded on NCCL streams only outside a bracket; and the mutex is free
    again when the operation ends, by return or by exception.  When the
    operation returns, the bracket is closed too. *)
Theorem operations_follow_protocol (env : Env) (op : Op) (s : Sys) :
  exists l r,
    log (snd (step env op s)) = (log s ++ l)%list /\
    accepts phase_step idle l = Some r /\
    mutex_held r = false /\
    (forall u, fst (step env op s) = Ok u -> r = idle).
Proof.
  destruct (phased_step env op s) as (l & El & Hl). exists l.
  destruct (fst (step env op s)) as [u | e | | ].
  - exists idle. repeat split; auto.
  - destruct Hl as (r & Hr & Hf & _). exists r. repeat split; auto. discriminate.
  - destruct Hl as (r & Hr & Hf & _). exists r. repeat split; auto. discriminate.
  - destruct Hl as (r & Hr & Hf & _). exists r. repeat split; auto. discriminate.
Qed.

(** X19: where an operation stands when it throws.  The calls it logged
    respect the protocol, the allocator's mutex is free, and the exception
    tells where the group bracket stands.  The unsupported-type error is
    raised inside the batch: the bracket opened by [ncclGroupStart] is
    still open, [ncclGroupEnd] was not called.  The token-length error and
    the group-id error are raised outside every bracket. *)
Theorem error_exit_phase (env : Env) (op : Op) (s : Sys) (e : exn) :
  fst (step env op s) = Throw e ->
  exists l r,
    log (snd (step env op s)) = (log s ++ l)%list /\
    accepts phase_step idle l = Some r /\
    exit_phase (Some e) r /\
    (e = runtime_error msg_unsupported_type ->
     r = {| mutex_held := false; group_open := true |}) /\
    (e = runtime_error msg_bad_id_length \/ e = invalid_argument "stoull" ->
     r = idle).
Proof.
  intros He. destruct (phased_step env op s) as (l & El & Hl).
  rewrite He in Hl. destruct Hl as (r & Hr & Hx).
  exists l, r. split; [ exact El | ]. split; [ exact Hr | ].
  split; [ exact Hx | ].
  destruct Hx as [Hm Hb]. destruct r as [h o]. simpl in Hm. subst h.
  split.
  - intros ->. vm_compute in Hb. now rewrite Hb.
  - intros [-> | ->]; vm_compute in Hb; now rewrite Hb.
Qed.

Lemma error_exit_phase_witness :
  exists l r,
    log (snd (step env_ready (Allreduce 0 [sample_short_tensor] {| reduceOp := SUM |})
                sample_sys))
    = (log sample_sys ++ l)%list /\
    accepts phase_step idle l = Some r /\
    exit_phase (Some (runtime_error msg_unsupported_type)) r /\
    (runtime_error msg_unsupported_type = runtime_error msg_unsupported_type ->
     r = {| mutex_held := false; group_open := true |}) /\
    (runtime_error msg_unsupported_type = runtime_error msg_bad_id_length \/
     runtime_error msg_unsupported_type = invalid_argument "stoull" ->
     r = idle).
Proof.
  apply (error_exit_phase env_ready
           (Allreduce 0 [sample_short_tensor] {| reduceOp := SUM |})
           sample_sys (runtime_error msg_unsupported_type)).
  vm_compute. reflexivity.
Defined.

(** *** Cache entries stay *)

(** What an operation does to the objects. *)
Lemma step_objects env op s :
  all_aligned (objects s) ->
  objects (snd (step env op s)) = objects s \/
  (exists o,
     objects (snd (step env op s)) = <[length (log s) := o]> (objects s) /\
     (length (log s) < length (log (snd (step env op s))))%nat) \/
  (exists this, objects (snd (step env op s)) = delete this (objects s)) \/
  (exists this self self',
     objects s !! this = Some self /\
     objects (snd (step env op s)) = <[this := self']> (objects s) /\
     extends self self').
Proof.
  intros Hall.
  assert (Hcoll : forall A (m : M A) this P Q,
             (forall self, objects s !! this = Some self -> aligned self ->
                hoare (objects s) collective_error m
                  (fun a h =>
                     (exists self', h = <[this := self']> (objects s) /\
                                    extends self self' /\ aligned self' /\
                                    P self') /\ Q a)
                  (fun h => exists self', h = <[this := self']> (objects s) /\
                                          extends self self' /\ aligned self')) ->
             (objects s !! this = None -> m s = (Undefined, s)) ->
             objects (snd (m s)) = objects s \/
             exists self self',
               objects s !! this = Some self /\
               objects (snd (m s)) = <[this := self']> (objects s) /\
               extends self self').
  { intros A m this P Q Hlive Hdead.
    destruct (objects s !! this) as [self | ] eqn:Hs.
    - destruct (collective_outcome m this self P Q s
                  (Hlive self eq_refl (Hall _ _ Hs)))
        as (_ & _ & _ & (self' & Ho & Hext & _) & _).
      right. now exists self, self'.
    - rewrite (Hdead eq_refl). now left. }
  destruct op as [store rank size | this | this tensors opts | this tensors opts];
    unfold step.
  - destruct (forget_outcome (ProcessGroupNCCL_ctor env store rank size) s) as [-> _].
    destruct (ctor_outcome env store rank size s) as (_ & o & _ & Ho).
    right; left. exists o. split; [ exact Ho | ].
    destruct (ctor_run env store rank size s) as (_ & -> & _).
    rewrite length_app. simpl. lia.
  - destruct (dtor_outcome this s) as [_ [E | E]];
      [ now left | right; right; left; now exists this ].
  - destruct (forget_outcome (allreduce env this tensors opts) s) as [-> _].
    destruct (Hcoll _ (allreduce env this tensors opts) this
                (fun self' =>
                   is_Some (devNCCLCommMap_ self'
                              !! getKeyFromDevices (map get_device tensors)))
                (fun work => devices_ work = map get_device tensors /\
                             length (cudaEvents_ work) = length tensors))
      as [E | (self & self' & E)].
    + intros self Hlive Hal.
      exact (allreduce_hoare env collective_error (fun _ Hrc => Hrc) (fun _ Hrc => Hrc)
               eq_refl (or_intror (or_intror eq_refl)) (or_intror (or_introl eq_refl))
               collective_error_validation this self tensors opts (objects s)
               Hlive Hal).
    + intros Hn. unfold allreduce. now apply collective_on_dead_group.
    + now left.
    + right; right; right. now exists this, self, self'.
  - destruct (forget_outcome (broadcast env this tensors opts) s) as [-> _].
    destruct (Hcoll _ (broadcast env this tensors opts) this
                (fun self' =>
                   is_Some (devNCCLCommMap_ self'
                              !! getKeyFromDevices (map get_device tensors)))
                (fun work => devices_ work = map get_device tensors /\
                             length (cudaEvents_ work) = length tensors))
      as [E | (self & self' & E)].
    + intros self Hlive Hal.
      exact (broadcast_hoare env collective_error (fun _ Hrc => Hrc) (fun _ Hrc => Hrc)
               eq_refl (or_intror (or_intror eq_refl)) (or_intror (or_introl eq_refl))
               collective_error_validation this self tensors opts (objects s)
               Hlive Hal).
    + intros Hn. unfold broadcast. now apply collective_on_dead_group.
    + now left.
    + right; right; right. now exists this, self, self'.
Qed.

Lemma step_log_le env op s :
  (length (log s) <= length (log (snd (step env op s))))%nat.
Proof.
  destruct (phased_step env op s) as (l & El & _). rewrite El, length_app. lia.
Qed.

Lemma persists_refl s : persists s s.
Proof.
  split; [ lia | ]. intros this o _ Ho. exists o. split; [ exact Ho | apply extends_refl ].
Qed.

Lemma persists_trans s1 s2 s3 : persists s1 s2 -> persists s2 s3 -> persists s1 s3.
Proof.
  intros [L1 H1] [L2 H2]. split; [ lia | ].
  intros this o3 Ht Ho3.
  destruct (H2 this o3) as (o2 & Ho2 & E2); [ lia | exact Ho3 | ].
  destruct (H1 this o2 Ht Ho2) as (o1 & Ho1 & E1).
  exists o1. split; [ exact Ho1 | now apply (extends_trans o1 o2 o3) ].
Qed.

Lemma step_persists env op s :
  all_aligned (objects s) -> persists s (snd (step env op s)).
Proof.
  intros Hall. split; [ apply step_log_le | ].
  intros t o' Ht Ho'.
  destruct (step_objects env op s Hall)
    as [E | [(o & E & _) | [(this & E) | (this & self & self' & Hs & E & Hext)]]];
    rewrite E in Ho'.
  - exists o'. split; [ exact Ho' | apply extends_refl ].
  - rewrite lookup_insert_ne in Ho' by lia.
    exists o'. split; [ exact Ho' | apply extends_refl ].
  - apply lookup_delete_Some in Ho' as [_ Ho'].
    exists o'. split; [ exact Ho' | apply extends_refl ].
  - destruct (decide (t = this)) as [-> | Hne].
    + rewrite lookup_insert_eq in Ho'. injection Ho' as <-.
      exists self. now split.
    + rewrite lookup_insert_ne in Ho' by congruence.
      exists o'. split; [ exact Ho' | apply extends_refl ].
Qed.

Lemma step_addresses env op s :
  all_aligned (objects s) -> addresses_bounded s ->
  addresses_bounded (snd (step env op s)).
Proof.
  intros Hall Ha t o' Ho'.
  pose proof (step_log_le env op s) as Hle.
  destruct (step_objects env op s Hall)
    as [E | [(o & E & Hlt) | [(this & E) | (this & self & self' & Hs & E & Hext)]]];
    rewrite E in Ho'.
  - specialize (Ha t o' Ho'). lia.
  - destruct (decide (t = length (log s))) as [-> | Hne]; [ exact Hlt | ].
    rewrite lookup_insert_ne in Ho' by congruence. specialize (Ha t o' Ho'). lia.
  - apply lookup_delete_Some in Ho' as [_ Ho']. specialize (Ha t o' Ho'). lia.
  - destruct (decide (t = this)) as [-> | Hne].
    + specialize (Ha this self Hs). lia.
    + rewrite lookup_insert_ne in Ho' by congruence. specialize (Ha t o' Ho'). lia.
Qed.

Lemma run_persists env evs :
  forall s,
    all_aligned (objects s) -> addresses_bounded s ->
    persists s (run env evs s) /\ addresses_bounded (run env evs s).
Proof.
  induction evs as [ | ev evs IH ]; intros s Hs Ha; simpl;
    [ split; [ apply persists_refl | exact Ha ] | ].
  pose proof (occur_aligned env ev s Hs) as Hs1.
  assert (Hp : persists s (snd (occur env ev s)) /\
               addresses_bounded (snd (occur env ev s))).
  { destruct ev as [op | st key val]; simpl.
    - split; [ now apply step_persists | now apply step_addresses ].
    - split; [ apply (persists_refl s) | exact Ha ]. }
  destruct Hp as [Hp Ha1].
  destruct (occur env ev s) as [[[] | e | | ] s1]; simpl in *;
    try (now split);
    (destruct (IH s1 Hs1 Ha1) as [Hp' Ha']; split;
     [ now apply (persists_trans s s1) | exact Ha' ]).
Qed.

(** X20: nothing is ever evicted from the caches.  Through any history
    (constructions, destructions, collectives of any group, publications
    by peers), a group that is still alive has the fields the constructor
    gave it and every cache entry it had, unchanged: the caches only
    grow, until the group is destroyed. *)
Theorem cache_entries_never_evicted
    (env : Env) (evs : list Event) (s : Sys) (this : nat)
    (o o' : ProcessGroupNCCL) :
  all_aligned (objects s) ->
  addresses_bounded s ->
  objects s !! this = Some o ->
  objects (run env evs s) !! this = Some o' ->
  extends o o'.
Proof.
  intros Hal Ha Ho Ho'.
  destruct (run_persists env evs s Hal Ha) as [[_ Hp] _].
  destruct (Hp this o' (Ha this o Ho) Ho') as (o0 & Ho0 & Hext).
  now assert (o0 = o) as -> by congruence.
Qed.

Lemma sample_sys_objects :
  objects sample_sys = <[0%nat := sample_root_group]> ∅.
Proof. reflexivity. Qed.

Lemma sample_sys_aligned :
  all_aligned (objects sample_sys) /\ addresses_bounded sample_sys.
Proof.
  split; intros t o Ho; rewrite sample_sys_objects in Ho;
    (apply lookup_insert_Some in Ho as [[<- <-] | [_ Ho]];
     [ | rewrite lookup_empty in Ho; discriminate Ho ]).
  - intros key. simpl. rewrite !lookup_empty. exact I.
  - vm_compute. lia.
Qed.

Lemma cache_entries_never_evicted_witness :
  let s := run env_ready sample_first_history sample_sys in
  match objects s !! 0%nat,
        objects (run env_ready sample_later_history s) !! 0%nat with
  | Some o, Some o' => extends o o'
  | _, _ => False
  end.
Proof.
  intros s.
  destruct (objects s !! 0%nat) as [o | ] eqn:Ho;
    [ | vm_compute in Ho; discriminate Ho ].
  destruct (objects (run env_ready sample_later_history s) !! 0%nat)
    as [o' | ] eqn:Ho'; [ | vm_compute in Ho'; discriminate Ho' ].
  destruct sample_sys_aligned as [Hal Ha].
  apply (cache_entries_never_evicted env_ready sample_later_history s 0%nat o o').
  - now apply run_aligned.
  - now apply (run_persists env_ready sample_first_history sample_sys).
  - exact Ho.
  - exact Ho'.
Defined.

(** In the sample, the group holds communicators for devices 0 and 1 after
    the first history; after the later history it holds the same ones, and
    communicators for device 1 besides. *)
Example sample_later_history_caches :
  let s := run env_ready sample_first_history sample_sys in
  let s' := run env_ready sample_later_history s in
  match objects s !! 0%nat, objects s' !! 0%nat with
  | Some o, Some o' =>
      is_Some (devNCCLCommMap_ o !! "0,1") /\
      devNCCLCommMap_ o !! "1" = None /\
      devNCCLCommMap_ o' !! "0,1" = devNCCLCommMap_ o !! "0,1" /\
      is_Some (devNCCLCommMap_ o' !! "1")
  | _, _ => False
  end.
Proof. vm_compute. repeat split; eauto. Qed.

(** C2: [getNCCLComm] is idempotent per key.  In any state, a call with a
    key that is in the cache of the group returns the cached entry and
    leaves the whole state as it was: nothing is created, nothing is
    exchanged, nothing is logged.  (The key is not empty: a cached key
    never is, in any state a history of the process leads to, whatever the
    ranks of its groups and whatever the peers publish.)  The entry stays:
    after any further history, as long as the group is alive, a call with
    that key returns this same entry, whatever the runtime and the device
    list passed.  And after any call that returned, the same call again
    returns the same entry and changes nothing. *)
Theorem getNCCLComm_idempotent
    (env : Env) (this : nat) (self : ProcessGroupNCCL)
    (key : string) (devices : list Z) (comms : list NCCLComm) (s : Sys) :
  objects s !! this = Some self ->
  devNCCLCommMap_ self !! key = Some comms ->
  (is_empty key = false ->
   getNCCLComm env this key devices s = (Ok comms, s)) /\
  (forall env0 evs0,
      s = run env0 evs0 Sys_init ->
      is_empty key = false /\ all_aligned (objects s) /\ addresses_bounded s) /\
  (is_empty key = false -> all_aligned (objects s) -> addresses_bounded s ->
   forall env' evs devices',
     is_Some (objects (run env' evs s) !! this) ->
     getNCCLComm env' this key devices' (run env' evs s)
     = (Ok comms, run env' evs s)) /\
  (forall s0 comms0 s1,
      getNCCLComm env this (getKeyFromDevices devices) devices s0 = (Ok comms0, s1) ->
      getNCCLComm env this (getKeyFromDevices devices) devices s1 = (Ok comms0, s1)).
Proof.
  intros Ho Hc.
  split; [ intros Hk; now apply (getNCCLComm_hit env this self) | ].
  split.
  { intros env0 evs0 ->.
    assert (Hinit : addresses_bounded Sys_init).
    { intros t o Ht. simpl in Ht. rewrite lookup_empty in Ht. discriminate Ht. }
    split; [ | split ].
    - pose proof (run_cache_ok env0 evs0 this self Ho) as Hempty.
      destruct key; [ congruence | reflexivity ].
    - apply run_aligned, all_aligned_empty.
    - now apply (run_persists env0 evs0 Sys_init all_aligned_empty). }
  split.
  { intros Hk Hal Ha env' evs devices' [o' Ho'].
    destruct (run_persists env' evs s Hal Ha) as [[_ Hp] _].
    destruct (Hp this o' (Ha this self Ho) Ho') as (o & Ho0 & Hext).
    assert (o = self) as -> by congruence.
    apply (getNCCLComm_hit env' this o'); trivial.
    destruct Hext as (_ & _ & _ & _ & _ & Hsub & _).
    exact (lookup_weaken _ _ _ _ Hc Hsub). }
  intros s0 comms0 s1 E.
  apply getNCCLComm_Ok_cached in E as (Hk & self' & Ho' & Hc').
  now apply (getNCCLComm_hit env this self').
Qed.

(** The witness is a process of rank 1 whose all-reduce retrieved the token
    a peer published: its communicators are cached, and a call with their
    key returns them. *)
Lemma getNCCLComm_idempotent_witness :
  let s := run env_ready sample_peer_history Sys_init in
  match objects s !! 0%nat with
  | Some self =>
      match devNCCLCommMap_ self !! "0,1" with
      | Some comms => getNCCLComm env_ready 0 "0,1" [0; 1] s = (Ok comms, s)
      | None => False
      end
  | None => False
  end.
Proof.
  intros s.
  destruct (objects s !! 0%nat) as [self | ] eqn:Ho;
    [ | vm_compute in Ho; discriminate Ho ].
  destruct (devNCCLCommMap_ self !! "0,1") as [comms | ] eqn:Hc.
  - exact (proj1 (getNCCLComm_idempotent env_ready 0%nat self "0,1" [0; 1] comms s
                    Ho Hc) eq_refl).
  - vm_compute in Ho. injection Ho as <-. vm_compute in Hc. discriminate Hc.
Defined.

(** *** Validation comes first *)

(** X12: when the buffers do not pass validation, both collectives throw
    one of the validation messages and leave the process as it was: no
    runtime call is made, no communicator is created or cached, the
    rendezvous counter is not advanced. *)
Theorem invalid_buffers_rejected_first
    (env : Env) (this : nat) (self : ProcessGroupNCCL)
    (tensors : list Tensor) (s : Sys) :
  objects s !! this = Some self ->
  tensorCheckHelper self tensors tensors default_outputOverInput <> Ok tt ->
  exists m,
    m ∈ validation_messages /\
    (forall opts, allreduce env this tensors opts s = (Throw (runtime_error m), s)) /\
    (forall opts, broadcast env this tensors opts s = (Throw (runtime_error m), s)).
Proof.
  intros Hlive Hbad.
  pose proof (tensorCheckHelper_refines self tensors tensors default_outputOverInput)
    as Href.
  destruct (first_violation _ tensors tensors default_outputOverInput) as [m | ] eqn:E;
    simpl in Href; [ | contradiction ].
  exists m. split; [ eapply first_violation_message; exact E | ].
  split; intros opts.
  - unfold allreduce, bind at 1, deref. rewrite Hlive.
    unfold bind at 1, lift. now rewrite Href.
  - unfold broadcast, bind at 1, deref. rewrite Hlive.
    unfold bind at 1, lift. now rewrite Href.
Qed.

Lemma invalid_buffers_rejected_first_witness :
  exists m,
    m ∈ validation_messages /\
    (forall opts, allreduce env_ready 0 [] opts sample_sys
                  = (Throw (runtime_error m), sample_sys)) /\
    (forall opts, broadcast env_ready 0 [] opts sample_sys
                  = (Throw (runtime_error m), sample_sys)).
Proof.
  apply (invalid_buffers_rejected_first env_ready 0%nat sample_root_group [] sample_sys).
  - vm_compute. reflexivity.
  - vm_compute. discriminate.
Defined.

(** *** A collective on cached communicators *)

Section Cached.

Variable env : Env.

(** What follows [getNCCLComm] in both collectives. *)
Ltac launch_tail :=
  eapply traced_bind; [ paced | intros ? ];
  destruct (subscript _ _) as [? ?];
  destruct (subscript _ _) as [? ?];
  eapply traced_bind; [ paced | intros ? ];
  eapply traced_bind; [ now apply traced_syncStreams | intros ? ];
  eapply traced_bind; [ now apply traced_WorkNCCL_ctor | intros ? ];
  eapply traced_bind; [ paced | intros ? ];
  apply (traced_finally (only launch) (fun _ _ => True) (fun _ _ => True) tt tt _
           (Unlock cudaFreeMutex) (fun r => r));
  [ | reflexivity | intros ? [] _; now split ];
  eapply traced_bind; [ paced | intros ? ];
  eapply traced_bind; [ paced | intros ? ];
  eapply traced_bind;
  [ apply traced_for_each; intros ? ?;
    eapply traced_bind; [ paced | intros ? ];
    eapply traced_bind; [ now apply traced_setDevice | intros ? ];
    repeat paced
  | intros ? ];
  eapply traced_bind; [ paced | intros ? ];
  eapply traced_bind; [ paced | intros ? ];
  eapply traced_bind; [ now apply traced_record_events | intros ? ];
  paced.

Ltac cached_collective Hlive Hhit E :=
  let Hv := fresh "Hv" in
  let T := fresh "T" in
  let l := fresh "l" in
  let El := fresh "El" in
  let Hl := fresh "Hl" in
  unfold bind at 1 in E; unfold deref at 1 in E; rewrite Hlive in E;
  unfold bind at 1, lift in E;
  match type of E with
  | context [tensorCheckHelper ?o ?i ?u ?r] =>
      destruct (tensorCheckHelper o i u r) as [ [] | | | ] eqn:Hv;
      try (injection E as _ <-; exists []; split;
           [ now rewrite app_nil_r | constructor ])
  end;
  rewrite getDevicesOfTensors_map in E;
  unfold bind at 1 in E;
  match type of Hhit with
  | context [getKeyFromDevices (map get_device ?ts)] =>
      let Hne := fresh "Hne" in
      assert (Hne : is_empty (getKeyFromDevices (map get_device ts)) = false)
        by (pose proof (validated_nonempty _ _ _ _ Hv);
            destruct ts; [ contradiction | apply getKeyFromDevices_nonempty ]);
      rewrite (getNCCLComm_hit _ _ _ _ _ _ _ Hlive Hne Hhit) in E
  end;
  match type of E with
  | ?m ?s = _ =>
      assert (T : traced (only launch) (fun _ _ => True) tt m tt) by launch_tail;
      destruct (T s) as (l & El & Hl); rewrite E in El, Hl; simpl in El, Hl;
      exists l; split; [ exact El | ];
      apply accepts_only;
      match type of Hl with
      | match ?r with _ => _ end =>
          destruct r; [ exact Hl | destruct Hl as ([] & Hl & _); exact Hl .. ]
      end
  end.

Lemma allreduce_cached this self tensors opts comms s r s' :
  objects s !! this = Some self ->
  devNCCLCommMap_ self !! getKeyFromDevices (map get_device tensors) = Some comms ->
  allreduce env this tensors opts s = (r, s') ->
  exists l, log s' = (log s ++ l)%list /\ Forall (fun a => launch a = true) l.
Proof.
  intros Hlive Hhit E. unfold allreduce in E.
  cached_collective Hlive Hhit E.
Qed.

Lemma broadcast_cached this self tensors opts comms s r s' :
  objects s !! this = Some self ->
  devNCCLCommMap_ self !! getKeyFromDevices (map get_device tensors) = Some comms ->
  broadcast env this tensors opts s = (r, s') ->
  exists l, log s' = (log s ++ l)%list /\ Forall (fun a => launch a = true) l.
Proof.
  intros Hlive Hhit E. unfold broadcast in E.
  cached_collective Hlive Hhit E.
Qed.

End Cached.

(** X13: once a collective on a device list has returned, the group holds
    communicators for that list, and every later collective of the group
    on tensors of the same devices, all-reduce or broadcast, only launches:
    whatever the runtime answers and however the call ends, it logs no
    store access, no write to the rendezvous counter and no creation of an
    identifier, a communicator or a stream. *)
Theorem communicators_are_reused
    (env : Env) (this : nat) (self : ProcessGroupNCCL)
    (tensors : list Tensor) (s : Sys) (work : WorkNCCL) (s1 : Sys) :
  objects s !! this = Some self ->
  aligned self ->
  (exists opts, allreduce env this tensors opts s = (Ok work, s1)) \/
  (exists opts, broadcast env this tensors opts s = (Ok work, s1)) ->
  forall env' tensors',
    map get_device tensors' = map get_device tensors ->
    (forall opts, exists l,
        log (snd (allreduce env' this tensors' opts s1)) = (log s1 ++ l)%list /\
        Forall (fun a => launch a = true) l) /\
    (forall opts, exists l,
        log (snd (broadcast env' this tensors' opts s1)) = (log s1 ++ l)%list /\
        Forall (fun a => launch a = true) l).
Proof.
  intros Hlive Hal Hfirst env' tensors' Hdev.
  assert (Hc : exists self1 comms,
             objects s1 !! this = Some self1 /\
             devNCCLCommMap_ self1 !! getKeyFromDevices (map get_device tensors')
             = Some comms).
  { rewrite Hdev.
    destruct Hfirst as [[opts E] | [opts E]].
    - pose proof (collective_outcome (allreduce env this tensors opts) this self _ _ s
                    (allreduce_hoare env collective_error
                       (fun _ Hrc => Hrc) (fun _ Hrc => Hrc) eq_refl
                       (or_intror (or_intror eq_refl)) (or_intror (or_introl eq_refl))
                       collective_error_validation this self tensors opts (objects s)
                       Hlive Hal)) as (_ & _ & _ & _ & Hok).
      rewrite E in Hok. simpl in Hok.
      destruct (Hok work eq_refl) as (_ & self1 & Hl1 & [comms Hc]). eauto.
    - pose proof (collective_outcome (broadcast env this tensors opts) this self _ _ s
                    (broadcast_hoare env collective_error
                       (fun _ Hrc => Hrc) (fun _ Hrc => Hrc) eq_refl
                       (or_intror (or_intror eq_refl)) (or_intror (or_introl eq_refl))
                       collective_error_validation this self tensors opts (objects s)
                       Hlive Hal)) as (_ & _ & _ & _ & Hok).
      rewrite E in Hok. simpl in Hok.
      destruct (Hok work eq_refl) as (_ & self1 & Hl1 & [comms Hc]). eauto. }
  destruct Hc as (self1 & comms & Hl1 & Hc).
  split; intros opts.
  - destruct (allreduce env' this tensors' opts s1) as [r s2] eqn:E2.
    exact (allreduce_cached env' this self1 tensors' opts comms s1 r s2 Hl1 Hc E2).
  - destruct (broadcast env' this tensors' opts s1) as [r s2] eqn:E2.
    exact (broadcast_cached env' this self1 tensors' opts comms s1 r s2 Hl1 Hc E2).
Qed.

Lemma communicators_are_reused_witness :
  exists l,
    log (snd (broadcast env_pending 0 [sample_tensor 0; sample_tensor 1]
                {| rootRank := 0; rootTensor := 0 |}
                (snd (allreduce env_ready 0 [sample_tensor 0; sample_tensor 1]
                        {| reduceOp := SUM |} sample_sys))))
    = (log (snd (allreduce env_ready 0 [sample_tensor 0; sample_tensor 1]
                   {| reduceOp := SUM |} sample_sys)) ++ l)%list /\
    Forall (fun a => launch a = true) l.
Proof.
  assert (Hlive : objects sample_sys !! 0%nat = Some sample_root_group)
    by (vm_compute; reflexivity).
  assert (Hal : aligned sample_root_group)
    by (intros key; simpl; rewrite !lookup_empty; exact I).
  let r := eval vm_compute in
    (fst (allreduce env_ready 0 [sample_tensor 0; sample_tensor 1]
            {| reduceOp := SUM |} sample_sys)) in
  match r with
  | Ok ?w =>
      assert (E : allreduce env_ready 0 [sample_tensor 0; sample_tensor 1]
                    {| reduceOp := SUM |} sample_sys
                  = (Ok w, snd (allreduce env_ready 0 [sample_tensor 0; sample_tensor 1]
                                  {| reduceOp := SUM |} sample_sys)))
        by (vm_compute; reflexivity);
      apply (communicators_are_reused env_ready 0%nat sample_root_group
               [sample_tensor 0; sample_tensor 1] sample_sys w _ Hlive Hal
               (or_introl (ex_intro _ {| reduceOp := SUM |} E))
               env_pending [sample_tensor 0; sample_tensor 1] eq_refl)
  end.
Defined.

(** *** The order of stream operations in a collective that returns *)

Lemma calls_refl {X} (view : Action -> option X) s : calls view [] s s.
Proof. exists []. now rewrite app_nil_r. Qed.

Lemma calls_app {X} (view : Action -> option X) l s s' :
  log s' = (log s ++ l)%list -> calls view (omap view l) s s'.
Proof. intros E. now exists l. Qed.

Lemma calls_traced {X A} (view : Action -> option X) ok F (m : M A) s r s' :
  traced (only ok) F tt m tt ->
  (forall a, ok a = true -> view a = None) ->
  m s = (r, s') ->
  calls view [] s s'.
Proof.
  intros T Hok E. destruct (T s) as (l & El & Hl). rewrite E in El, Hl. simpl in *.
  exists l. split; [ exact El | ].
  assert (Hall : Forall (fun a => ok a = true) l).
  { apply accepts_only. destruct r; [ exact Hl | destruct Hl as ([] & Hl & _); exact Hl .. ]. }
  clear - Hall Hok. induction Hall as [ | a l Ha _ IH ]; [ reflexivity | ].
  simpl. now rewrite (Hok a Ha).
Qed.

Lemma cuda_call_Ok env a s rc s' :
  cuda_call env a s = (Ok rc, s') -> log s' = (log s ++ [a])%list.
Proof. now intros [= _ <-]. Qed.

Lemma nccl_call_Ok env a s rc s' :
  nccl_call env a s = (Ok rc, s') -> log s' = (log s ++ [a])%list.
Proof. now intros [= _ <-]. Qed.

Lemma syncStreams_loop_ops env events streams devices :
  forall i s ys s',
    for_each
      (fun i device =>
         let* _ := setDevice env device in
         let* ncclStream := idx streams i in
         let* ncclEvent := idx events i in
         let* rc1 := cuda_call env (EventRecord (getEvent ncclEvent) (ThcStream device)) in
         let* _ := C10D_CUDA_CHECK rc1 in
         let* rc2 :=
           cuda_call env (StreamWaitEvent (getStream ncclStream) (getEvent ncclEvent)) in
         C10D_CUDA_CHECK rc2)
      i devices s = (Ok ys, s') ->
    (length devices <= length (drop i events))%nat /\
    (length devices <= length (drop i streams))%nat /\
    calls stream_op (sync_ops devices (drop i events) (drop i streams)) s s'.
Proof.
  induction devices as [ | d devices IH ]; intros i s ys s'; simpl.
  - intros [= _ <-]. split; [ lia | ]. split; [ lia | ]. apply calls_refl.
  - intros (y & s1 & Hbody & Hrest)%bind_Ok.
    apply bind_Ok in Hrest as (ys' & s2 & Hrest & Hret).
    injection Hret as _ <-.
    apply IH in Hrest as (Le & Ls & Hrest).
    apply bind_Ok in Hbody as (? & sa & Hset%setDevice_Ok & Hbody).
    apply bind_Ok in Hbody as (st & sb & [Hst ->]%idx_Ok & Hbody).
    apply bind_Ok in Hbody as (e & sc & [He ->]%idx_Ok & Hbody).
    apply bind_Ok in Hbody as (rc1 & sd & H1%cuda_call_Ok & Hbody).
    apply bind_Ok in Hbody as (? & se & [_ ->]%C10D_CUDA_CHECK_Ok & Hbody).
    apply bind_Ok in Hbody as (rc2 & sf & H2%cuda_call_Ok & [_ ->]%C10D_CUDA_CHECK_Ok).
    rewrite (drop_S _ _ _ He), (drop_S _ _ _ Hst).
    split; [ simpl; lia | ]. split; [ simpl; lia | ].
    unfold sync_ops. simpl.
    eapply (calls_trans stream_op
              [Records (getEvent e) (ThcStream d); Waits (getStream st) (getEvent e)]);
      [ | exact Hrest ].
    exists [SetDevice d; EventRecord (getEvent e) (ThcStream d);
            StreamWaitEvent (getStream st) (getEvent e)].
    split; [ | reflexivity ].
    rewrite H2, H1, Hset, <- !app_assoc. reflexivity.
Qed.

Lemma collective_loop_ops env devices streams (ncclComms : list NCCLComm)
    (act : Tensor -> ncclDataType_t -> NCCLComm -> CUDAStream -> Action) :
  (forall t dt c st, stream_op (act t dt c st) = Some (Runs (getStream st))) ->
  forall tensors i s ys s',
    for_each
      (fun i tensor =>
         let* device := idx devices i in
         let* _ := setDevice env device in
         let* ncclStream := idx streams i in
         let* dtype := getNcclDataType (scalarType tensor) in
         let* comm := idx ncclComms i in
         let* rc := nccl_call env (act tensor dtype comm ncclStream) in
         C10D_NCCL_CHECK rc)
      i tensors s = (Ok ys, s') ->
    calls stream_op
      (map (fun st => Runs (getStream st)) (take (length tensors) (drop i streams)))
      s s'.
Proof.
  intros Hact. induction tensors as [ | t tensors IH ]; intros i s ys s'; simpl.
  - intros [= _ <-]. apply calls_refl.
  - intros (y & s1 & Hbody & Hrest)%bind_Ok.
    apply bind_Ok in Hrest as (ys' & s2 & Hrest & Hret).
    injection Hret as _ <-.
    apply IH in Hrest.
    apply bind_Ok in Hbody as (d & sa & [_ ->]%idx_Ok & Hbody).
    apply bind_Ok in Hbody as (? & sb & Hset%setDevice_Ok & Hbody).
    apply bind_Ok in Hbody as (st & sc & [Hst ->]%idx_Ok & Hbody).
    apply bind_Ok in Hbody as (dt & sd & ->%getNcclDataType_Ok & Hbody).
    apply bind_Ok in Hbody as (cm & se & [_ ->]%idx_Ok & Hbody).
    apply bind_Ok in Hbody as (rc & sf & Hcall%nccl_call_Ok & [_ ->]%C10D_NCCL_CHECK_Ok).
    rewrite (drop_S _ _ _ Hst). simpl.
    eapply (calls_trans stream_op [Runs (getStream st)]); [ | exact Hrest ].
    exists [SetDevice d; act t dt cm st].
    split; [ rewrite Hcall, Hset, <- !app_assoc; reflexivity | ].
    simpl. now rewrite Hact.
Qed.

Lemma record_events_ops env (streams : list CUDAStream) (work : WorkNCCL)
    (tensors : list Tensor) :
  forall i s ys s',
    for_each
      (fun i (_ : Tensor) =>
         let* ncclStream := idx streams i in
         let* cudaEvent := idx (cudaEvents_ work) i in
         let* rc :=
           cuda_call env (EventRecord (getEvent cudaEvent) (getStream ncclStream)) in
         C10D_CUDA_CHECK rc)
      i tensors s = (Ok ys, s') ->
    calls stream_op
      (zip_with (fun e st => Records (getEvent e) (getStream st))
         (take (length tensors) (drop i (cudaEvents_ work))) (drop i streams))
      s s'.
Proof.
  induction tensors as [ | t tensors IH ]; intros i s ys s'; simpl.
  - intros [= _ <-]. apply calls_refl.
  - intros (y & s1 & Hbody & Hrest)%bind_Ok.
    apply bind_Ok in Hrest as (ys' & s2 & Hrest & Hret).
    injection Hret as _ <-.
    apply IH in Hrest.
    apply bind_Ok in Hbody as (st & sa & [Hst ->]%idx_Ok & Hbody).
    apply bind_Ok in Hbody as (e & sb & [He ->]%idx_Ok & Hbody).
    apply bind_Ok in Hbody as (rc & sc & Hcall%cuda_call_Ok & [_ ->]%C10D_CUDA_CHECK_Ok).
    rewrite (drop_S _ _ _ He), (drop_S _ _ _ Hst). simpl.
    eapply (calls_trans stream_op [Records (getEvent e) (getStream st)]);
      [ | exact Hrest ].
    exists [EventRecord (getEvent e) (getStream st)].
    split; [ exact Hcall | reflexivity ].
Qed.

Lemma subscript_lookup {A} (m : gmap string (list A)) k :
  snd (subscript m k) !! k = Some (fst (subscript m k)).
Proof.
  unfold subscript. destruct (m !! k) eqn:E; simpl;
    [ exact E | apply lookup_insert_eq ].
Qed.

(** Once the communicators are at hand, a collective leaves the objects as
    they are. *)
Lemma launch_keeps_objects env thc devices events streams (ncclComms : list NCCLComm)
    (tensors : list Tensor)
    (act : Tensor -> ncclDataType_t -> NCCLComm -> CUDAStream -> Action)
    (s : Sys) (r : outcome WorkNCCL) (s' : Sys) :
  (let* _ := syncStreams env thc devices events streams in
   let* work := WorkNCCL_ctor env devices in
   let* _ := lock cudaFreeMutex in
   finally
     (let* rc := nccl_call env NcclGroupStart in
      let* _ := C10D_NCCL_CHECK rc in
      let* _ :=
        for_each
          (fun i tensor =>
             let* device := idx devices i in
             let* _ := setDevice env device in
             let* ncclStream := idx streams i in
             let* dtype := getNcclDataType (scalarType tensor) in
             let* comm := idx ncclComms i in
             let* rc := nccl_call env (act tensor dtype comm ncclStream) in
             C10D_NCCL_CHECK rc)
          0%nat tensors in
      let* rc := nccl_call env NcclGroupEnd in
      let* _ := C10D_NCCL_CHECK rc in
      let* _ :=
        for_each
          (fun i _ =>
             let* ncclStream := idx streams i in
             let* cudaEvent := idx (cudaEvents_ work) i in
             let* rc :=
               cuda_call env (EventRecord (getEvent cudaEvent) (getStream ncclStream)) in
             C10D_CUDA_CHECK rc)
          0%nat tensors in
      ret work)
     (unlock cudaFreeMutex)) s = (r, s') ->
  objects s' = objects s.
Proof.
  intros E.
  pose proof (triple_launch (fun s0 => objects s0 = objects s) (fun _ _ => True)
                (fun _ => I) (fun _ _ _ _ _ => I) env
                (fun a _ s0 Hs0 => conj I Hs0)
                thc devices events streams ncclComms tensors act
                (fun _ _ _ _ _ s0 Hs0 => conj I Hs0) s eq_refl) as (_ & H & _).
  rewrite E in H. exact H.
Qed.

Section StreamOrder.

Variable env : Env.

Lemma quiet_getNCCLComm this key devices :
  traced (only stream_free) (fun _ _ => True) tt (getNCCLComm env this key devices) tt.
Proof.
  unfold getNCCLComm.
  eapply traced_bind; [ paced | intros self ].
  destruct (is_empty key); [ paced | ].
  destruct (devNCCLCommMap_ self !! key); [ paced | ].
  eapply traced_bind.
  { destruct (Z.eqb (rank_ self) 0); [ | paced ].
    eapply traced_bind; [ now apply traced_ncclGetUniqueId | intros [rc id] ].
    repeat paced. }
  intros ncclID0.
  eapply traced_bind; [ now apply traced_broadcastUniqueNCCLID | intros ncclID ].
  eapply traced_bind; [ paced | intros rc ].
  eapply traced_bind; [ paced | intros _ ].
  eapply traced_bind.
  { apply traced_for_each. intros i d.
    eapply traced_bind; [ now apply traced_setDevice | intros _ ].
    eapply traced_bind; [ now apply traced_NCCLComm_create | intros comm ].
    eapply traced_bind; [ now apply traced_CUDAStream_create | intros stream ].
    eapply traced_bind; [ now apply traced_CUDAEvent_create | intros event ].
    paced. }
  intros created.
  eapply traced_bind; [ paced | intros rc' ].
  eapply traced_bind; [ paced | intros _ ].
  destruct (subscript _ _) as [cached comms'].
  repeat paced.
Qed.

Lemma stream_free_silent a : stream_free a = true -> stream_op a = None.
Proof. unfold stream_free. now destruct (stream_op a). Qed.

(** A collective that returned, step by step. *)
Ltac stream_order E act :=
  apply bind_Ok in E as (? & ? & [_ ->]%deref_Ok & E);
  apply bind_Ok in E as (? & ? & [_ ->]%lift_Ok & E);
  rewrite getDevicesOfTensors_map in E;
  let Hcomm := fresh "Hcomm" in
  apply bind_Ok in E as (? & ? & Hcomm & E);
  apply (calls_traced stream_op _ _ _ _ _ _ (quiet_getNCCLComm _ _ _)
           stream_free_silent) in Hcomm;
  apply bind_Ok in E as (? & ? & [_ ->]%deref_Ok & E);
  let events := fresh "events" in
  let streams := fresh "streams" in
  let Hevents := fresh "Hevents" in
  let Hstreams := fresh "Hstreams" in
  match type of E with
  | context [subscript (ncclEvents_ ?o) ?k] =>
      pose proof (subscript_lookup (ncclEvents_ o) k) as Hevents;
      pose proof (subscript_lookup (ncclStreams_ o) k) as Hstreams;
      destruct (subscript (ncclEvents_ o) k) as [events ?];
      destruct (subscript (ncclStreams_ o) k) as [streams ?];
      simpl in Hevents, Hstreams
  end;
  let Hassign := fresh "Hassign" in
  apply bind_Ok in E as (? & ? & Hassign & E);
  injection Hassign as _ <-;
  let Hkept := fresh "Hkept" in
  pose proof (launch_keeps_objects _ _ _ _ _ _ _ act _ _ _ E) as Hkept;
  simpl in Hkept;
  let Hsync := fresh "Hsync" in
  let Le := fresh "Le" in
  let Ls := fresh "Ls" in
  apply bind_Ok in E as (? & ? & Hsync & E);
  unfold syncStreams in Hsync;
  apply bind_Ok in Hsync as (? & ? & Hsync & [= _ <-]);
  apply syncStreams_loop_ops in Hsync as (Le & Ls & Hsync);
  rewrite drop_0 in Le; rewrite drop_0 in Ls; rewrite length_map in Le, Ls;
  rewrite !drop_0 in Hsync;
  let Hwork := fresh "Hwork" in
  let Hlen := fresh "Hlen" in
  apply bind_Ok in E as (? & ? & Hwork & E);
  pose proof Hwork as Hlen;
  apply (calls_traced stream_op stream_free (fun _ _ => True)) in Hwork;
  [ | now apply traced_WorkNCCL_ctor | exact stream_free_silent ];
  unfold WorkNCCL_ctor in Hlen;
  apply bind_Ok in Hlen as (? & ? & Hlen & [= <- _]);
  apply for_each_length in Hlen; rewrite length_map in Hlen;
  let Hlock := fresh "Hlock" in
  apply bind_Ok in E as (? & ? & Hlock & E);
  injection Hlock as _ <-;
  apply finally_Ok in E as (? & E & <-);
  let Hstart := fresh "Hstart" in
  apply bind_Ok in E as (? & ? & Hstart%nccl_call_Ok & E);
  apply bind_Ok in E as (? & ? & [_ ->]%C10D_NCCL_CHECK_Ok & E);
  let Hloop := fresh "Hloop" in
  apply bind_Ok in E as (? & ? & Hloop & E);
  apply (collective_loop_ops _ _ _ _ act (fun _ _ _ _ => eq_refl)) in Hloop;
  rewrite drop_0 in Hloop;
  let Hend := fresh "Hend" in
  apply bind_Ok in E as (? & ? & Hend%nccl_call_Ok & E);
  apply bind_Ok in E as (? & ? & [_ ->]%C10D_NCCL_CHECK_Ok & E);
  let Hrec := fresh "Hrec" in
  apply bind_Ok in E as (? & ? & Hrec & E);
  apply record_events_ops in Hrec;
  injection E as <- <-;
  simpl cudaEvents_ in *;
  rewrite !drop_0 in Hrec; rewrite take_ge in Hrec by lia;
  eexists; exists events, streams;
  split; [ simpl in Hkept |- *; rewrite Hkept; apply lookup_insert_eq | ];
  split; [ exact Hevents | ]; split; [ exact Hstreams | ];
  split; [ reflexivity | ];
  split; [ exact Hlen | ]; split; [ exact Le | ]; split; [ exact Ls | ];
  let C := fresh "C" in
  pose proof (calls_trans _ _ _ _ _ _ Hcomm Hsync) as C;
  apply (calls_trans _ _ _ _ _ _ C) in Hwork; clear C;
  match type of Hwork with
  | calls _ _ _ ?sw =>
      match type of Hloop with
      | calls _ _ ?sl ?sl' =>
          assert (C : calls stream_op [] sw sl)
            by (exists [Lock cudaFreeMutex; NcclGroupStart]; split;
                [ rewrite Hstart; simpl; now rewrite <- app_assoc | reflexivity ]);
          apply (calls_trans _ _ _ _ _ _ Hwork) in C;
          apply (calls_trans _ _ _ _ _ _ C) in Hloop; clear C;
          match type of Hrec with
          | calls _ _ ?sr ?sr' =>
              assert (C : calls stream_op [] sl' sr)
                by (exists [NcclGroupEnd]; split; [ exact Hend | reflexivity ]);
              apply (calls_trans _ _ _ _ _ _ Hloop) in C;
              apply (calls_trans _ _ _ _ _ _ C) in Hrec; clear C;
              match goal with
              | |- calls _ _ _ ?sf =>
                  assert (C : calls stream_op [] sr' sf)
                    by (exists [Unlock cudaFreeMutex]; split; reflexivity);
                  apply (calls_trans _ _ _ _ _ _ Hrec) in C;
                  simpl in C; rewrite ?app_nil_r in C;
                  rewrite <- ?app_assoc in C; exact C
              end
          end
      end
  end.

Lemma allreduce_stream_order this tensors opts s work s' :
  allreduce env this tensors opts s = (Ok work, s') ->
  exists self' events streams,
    objects s' !! this = Some self' /\
    ncclEvents_ self' !! getKeyFromDevices (map get_device tensors) = Some events /\
    ncclStreams_ self' !! getKeyFromDevices (map get_device tensors) = Some streams /\
    devices_ work = map get_device tensors /\
    length (cudaEvents_ work) = length tensors /\
    (length tensors <= length events)%nat /\
    (length tensors <= length streams)%nat /\
    calls stream_op
      (sync_ops (map get_device tensors) events streams ++
       map (fun st => Runs (getStream st)) (take (length tensors) streams) ++
       zip_with (fun e st => Records (getEvent e) (getStream st))
         (cudaEvents_ work) streams)
      s s'.
Proof.
  intros E. unfold allreduce in E.
  stream_order E
    (fun (tensor : Tensor) dtype comm (ncclStream : CUDAStream) =>
       NcclAllReduce (data_ptr tensor) (data_ptr tensor)
         (to_size_t (numel tensor)) dtype (ncclOp (reduceOp opts))
         comm (getStream ncclStream)).
Qed.

Lemma broadcast_stream_order this tensors opts s work s' :
  broadcast env this tensors opts s = (Ok work, s') ->
  exists self' events streams,
    objects s' !! this = Some self' /\
    ncclEvents_ self' !! getKeyFromDevices (map get_device tensors) = Some events /\
    ncclStreams_ self' !! getKeyFromDevices (map get_device tensors) = Some streams /\
    devices_ work = map get_device tensors /\
    length (cudaEvents_ work) = length tensors /\
    (length tensors <= length events)%nat /\
    (length tensors <= length streams)%nat /\
    calls stream_op
      (sync_ops (map get_device tensors) events streams ++
       map (fun st => Runs (getStream st)) (take (length tensors) streams) ++
       zip_with (fun e st => Records (getEvent e) (getStream st))
         (cudaEvents_ work) streams)
      s s'.
Proof.
  intros E. unfold broadcast in E.
  stream_order E
    (fun (tensor : Tensor) dtype comm (ncclStream : CUDAStream) =>
       NcclBcast (data_ptr tensor) (to_size_t (numel tensor)) dtype
         (to_int (to_size_t (to_size_t (to_size_t (rootRank opts)
                                        * Z.of_nat (length tensors))
                             + to_size_t (rootTensor opts))))
         comm (getStream ncclStream)).
Qed.


End StreamOrder.

Lemma collective_extends {A} (m : M A) this self self' P Q s :
  hoare (objects s) collective_error m
    (fun a h =>
       (exists self', h = <[this := self']> (objects s) /\
                      extends self self' /\ aligned self' /\ P self') /\ Q a)
    (fun h => exists self', h = <[this := self']> (objects s) /\
                            extends self self' /\ aligned self') ->
  objects (snd (m s)) !! this = Some self' ->
  extends self self'.
Proof.
  intros Hh Ho'.
  destruct (collective_outcome m this self P Q s Hh)
    as (_ & _ & _ & (self'' & Hobj & Hext & _) & _).
  rewrite Hobj, lookup_insert_eq in Ho'. now injection Ho' as <-.
Qed.

(** X14: in a collective that returns, the streams are used in this order
    and in no other way.  First, per device, the event the group caches
    for that device under the key of the tensors' devices (the entry of
    [ncclEvents_]) is recorded on the device's THC stream and the stream
    the group caches for it (the entry of [ncclStreams_]) waits for it;
    then one collective is enqueued on each of these NCCL streams; then
    each event of the returned work is recorded on the corresponding NCCL
    stream.  The two entries are those the group holds when the call has
    returned, and when its caches were aligned before the call, the group
    differs from what it was only by added entries: a cached entry is the
    one used.  The work holds one event per tensor and lists the tensors'
    devices. *)
Theorem collective_stream_order
    (env : Env) (this : nat) (tensors : list Tensor)
    (s : Sys) (work : WorkNCCL) (s' : Sys) :
  (exists opts, allreduce env this tensors opts s = (Ok work, s')) \/
  (exists opts, broadcast env this tensors opts s = (Ok work, s')) ->
  exists self' events streams,
    objects s' !! this = Some self' /\
    ncclEvents_ self' !! getKeyFromDevices (map get_device tensors) = Some events /\
    ncclStreams_ self' !! getKeyFromDevices (map get_device tensors) = Some streams /\
    (forall self, objects s !! this = Some self -> aligned self -> extends self self') /\
    devices_ work = map get_device tensors /\
    length (cudaEvents_ work) = length tensors /\
    (length tensors <= length events)%nat /\
    (length tensors <= length streams)%nat /\
    calls stream_op
      (sync_ops (map get_device tensors) events streams ++
       map (fun st => Runs (getStream st)) (take (length tensors) streams) ++
       zip_with (fun e st => Records (getEvent e) (getStream st))
         (cudaEvents_ work) streams)
      s s'.
Proof.
  intros [[opts E] | [opts E]].
  - destruct (allreduce_stream_order env this tensors opts s work s' E)
      as (self' & events & streams & Ho' & He & Hs & Hrest).
    exists self', events, streams.
    split; [ exact Ho' | ]. split; [ exact He | ]. split; [ exact Hs | ].
    split; [ | exact Hrest ].
    intros self Hlive Hal.
    eapply (collective_extends (allreduce env this tensors opts) this self self').
    + exact (allreduce_hoare env collective_error (fun _ Hrc => Hrc) (fun _ Hrc => Hrc)
               eq_refl (or_intror (or_intror eq_refl)) (or_intror (or_introl eq_refl))
               collective_error_validation this self tensors opts (objects s)
               Hlive Hal).
    + rewrite E. exact Ho'.
  - destruct (broadcast_stream_order env this tensors opts s work s' E)
      as (self' & events & streams & Ho' & He & Hs & Hrest).
    exists self', events, streams.
    split; [ exact Ho' | ]. split; [ exact He | ]. split; [ exact Hs | ].
    split; [ | exact Hrest ].
    intros self Hlive Hal.
    eapply (collective_extends (broadcast env this tensors opts) this self self').
    + exact (broadcast_hoare env collective_error (fun _ Hrc => Hrc) (fun _ Hrc => Hrc)
               eq_refl (or_intror (or_intror eq_refl)) (or_intror (or_introl eq_refl))
               collective_error_validation this self tensors opts (objects s)
               Hlive Hal).
    + rewrite E. exact Ho'.
Qed.

Lemma collective_stream_order_witness :
  exists self' events streams,
    objects (snd sample_collective) !! 0%nat = Some self' /\
    ncclEvents_ self' !! getKeyFromDevices (map get_device sample_tensors)
    = Some events /\
    ncclStreams_ self' !! getKeyFromDevices (map get_device sample_tensors)
    = Some streams /\
    (forall self, objects sample_sys !! 0%nat = Some self -> aligned self ->
                  extends self self') /\
    devices_ (sample_work_of sample_collective) = map get_device sample_tensors /\
    length (cudaEvents_ (sample_work_of sample_collective)) = length sample_tensors /\
    (length sample_tensors <= length events)%nat /\
    (length sample_tensors <= length streams)%nat /\
    calls stream_op
      (sync_ops (map get_device sample_tensors) events streams ++
       map (fun st => Runs (getStream st)) (take (length sample_tensors) streams) ++
       zip_with (fun e st => Records (getEvent e) (getStream st))
         (cudaEvents_ (sample_work_of sample_collective)) streams)
      sample_sys (snd sample_collective).
Proof.
  apply (collective_stream_order env_ready 0%nat sample_tensors sample_sys
           (sample_work_of sample_collective) (snd sample_collective)).
  left. exists {| reduceOp := SUM |}. vm_compute. reflexivity.
Defined.

(** *** A collective leaves the other groups alone *)

Section Frame.

Variable env : Env.
Variable this : nat.
Variable id : string.

Let owned (s : Sys) : Prop :=
  exists o, objects s !! this = Some o /\ processGroupID_ o = id.

Let known (o : ProcessGroupNCCL) : Prop := processGroupID_ o = id.

Lemma undisturbed_refl s : undisturbed this id s s.
Proof. unfold undisturbed. now repeat split. Qed.

Lemma undisturbed_trans s1 s2 s3 :
  undisturbed this id s1 s2 -> undisturbed this id s2 s3 -> undisturbed this id s1 s3.
Proof.
  intros (A1 & A2 & A3 & A4) (B1 & B2 & B3 & B4).
  split; [ congruence | ].
  split; [ intros t Ht; rewrite B2, A2; auto | ].
  split; [ intros g Hg; rewrite B3, A3; auto | ].
  intros st key Hk. rewrite B4, A4; auto.
Qed.

Lemma frame_log a : logs_ok owned (undisturbed this id) a.
Proof.
  intros s Hs. split; [ | exact Hs ].
  unfold undisturbed. simpl. now repeat split.
Qed.

Lemma frame_deref : triple owned (undisturbed this id) (deref this) known.
Proof.
  eapply triple_weaken; [ apply triple_deref; intros; apply undisturbed_refl | ].
  intros o (s & (o' & Ho' & Hid) & Ho). unfold known. congruence.
Qed.

Lemma frame_assign self comms streams events :
  known self ->
  triple owned (undisturbed this id)
    (assign this (with_caches self comms streams events)) any.
Proof.
  intros Hid. apply (triple_state owned (undisturbed this id) tt).
  intros s (o & Ho & Hido). split.
  - unfold undisturbed. simpl. repeat split; auto.
    intros t Ht. now apply lookup_insert_ne.
  - eexists. split; [ apply lookup_insert_eq | exact Hid ].
Qed.

Lemma frame_rendezvous ncclID :
  triple owned (undisturbed this id) (broadcastUniqueNCCLID this ncclID) any.
Proof.
  intros s (o & Ho & Hid).
  rewrite (broadcastUniqueNCCLID_run this ncclID s o Ho), Hid.
  assert (Hafter : forall k publish,
             stoull id = Some k ->
             undisturbed this id s (after_rendezvous o s k publish) /\
             owned (after_rendezvous o s k publish)).
  { intros k publish Hk. split; [ | now exists o ].
    unfold undisturbed. simpl. split; [ reflexivity | ].
    split; [ reflexivity | ].
    split.
    - intros g Hg. apply lookup_insert_ne. intros E. now apply (Hg k Hk).
    - intros st key Hkey. destruct publish; [ | reflexivity ].
      apply lookup_insert_ne. intros [= _ E].
      apply (Hkey (to_ssize_t (default 0 (pgUniqueNCCLIDCnt_ s !! to_ssize_t k) + 1))).
      rewrite <- E. unfold rendezvous_key. now rewrite Hid. }
  destruct (stoull id) as [k | ] eqn:Hk.
  - destruct (Hafter k (Some (id_bytes ncclID)) eq_refl) as [R1 P1].
    destruct (Hafter k None eq_refl) as [R2 P2].
    destruct (Z.eqb (rank_ o) 0); simpl;
      (split; [ assumption | ]); (split; [ assumption | intros; exact I ]).
  - simpl. split; [ unfold undisturbed; simpl; now repeat split | ].
    split; [ now exists o | intros; exact I ].
Qed.

Lemma allreduce_frame tensors opts s :
  owned s -> undisturbed this id s (snd (allreduce env this tensors opts s)).
Proof.
  intros Hs.
  exact (proj1 (triple_allreduce owned (undisturbed this id)
                  undisturbed_refl undisturbed_trans
                  env (fun a _ => frame_log a) this known (fun _ => True)
                  frame_deref (fun _ _ => I) (fun _ _ _ _ _ => I)
                  (fun self comms streams events Hk _ =>
                     frame_assign self comms streams events Hk)
                  frame_rendezvous
                  (fun _ => True) (fun a _ => frame_log a)
                  tensors opts (fun _ _ _ _ _ => I) s Hs)).
Qed.

Lemma broadcast_frame tensors opts s :
  owned s -> undisturbed this id s (snd (broadcast env this tensors opts s)).
Proof.
  intros Hs.
  exact (proj1 (triple_broadcast owned (undisturbed this id)
                  undisturbed_refl undisturbed_trans
                  env (fun a _ => frame_log a) this known (fun _ => True)
                  frame_deref (fun _ _ => I) (fun _ _ _ _ _ => I)
                  (fun self comms streams events Hk _ =>
                     frame_assign self comms streams events Hk)
                  frame_rendezvous
                  (fun _ => True) (fun a _ => frame_log a)
                  tensors opts (fun _ _ _ _ _ => I) s Hs)).
Qed.

End Frame.

(** X15: a collective leaves the rest of the process alone, whatever the
    runtime answers and however the call ends.  The group counter is
    unchanged; every other object is unchanged; the rendezvous sequence
    number of every other group is unchanged; and the store is unchanged
    under every key that is not one of this group's keys, of the form
    [id_n] for the group's id. *)
Theorem collectives_leave_others_alone
    (env : Env) (this : nat) (self : ProcessGroupNCCL)
    (tensors : list Tensor) (s : Sys) :
  objects s !! this = Some self ->
  (forall opts,
      undisturbed this (processGroupID_ self) s
        (snd (allreduce env this tensors opts s))) /\
  (forall opts,
      undisturbed this (processGroupID_ self) s
        (snd (broadcast env this tensors opts s))).
Proof.
  intros Hlive. split; intros opts.
  - apply allreduce_frame. now exists self.
  - apply broadcast_frame. now exists self.
Qed.

Lemma collectives_leave_others_alone_witness :
  undisturbed 0 "0" sample_sys (snd sample_collective).
Proof.
  assert (Hlive : objects sample_sys !! 0%nat = Some sample_root_group)
    by (vm_compute; reflexivity).
  exact (proj1 (collectives_leave_others_alone env_ready 0%nat sample_root_group
                  sample_tensors sample_sys Hlive) {| reduceOp := SUM |}).
Defined.

(** *** What polling does to the process *)

Lemma finishedGPUExecution_loop_trace env this rest :
  forall i s r s',
    finishedGPUExecution_loop env this i rest s = (r, s') ->
    exists l,
      s' = with_log s (log s ++ l) /\ Forall poll_only l /\ r <> Blocked /\
      (r = Ok true ->
       omap event_query l
       = map getEvent (take (length rest) (drop i (cudaEvents_ this))) /\
       (length rest <= length (drop i (cudaEvents_ this)))%nat) /\
      (r = Ok false ->
       exists k, (k < length rest)%nat /\
         omap event_query l = map getEvent (take (S k) (drop i (cudaEvents_ this))) /\
         (k < length (drop i (cudaEvents_ this)))%nat).
Proof.
  induction rest as [ | d rest IH ]; intros i s r s'.
  - intros [= <- <-]. exists []. rewrite with_log_nil.
    split; [ reflexivity | ]. split; [ constructor | ]. split; [ discriminate | ].
    split; [ intros _; split; [ reflexivity | simpl; lia ] | discriminate ].
  - cbn [finishedGPUExecution_loop].
    unfold bind at 1, setDevice, bind at 1, cuda_call at 1, C10D_CUDA_CHECK at 1.
    cbn [fst snd].
    destruct (is_cudaSuccess (cuda_status env (log s) (SetDevice d))).
    2:{ intros [= <- <-]. exists [SetDevice d].
        split; [ reflexivity | ]. split; [ repeat constructor | ].
        repeat split; discriminate. }
    cbn [ret]. unfold bind at 1, idx at 1.
    destruct (cudaEvents_ this !! i) as [e | ] eqn:He.
    2:{ intros [= <- <-]. exists [SetDevice d].
        split; [ reflexivity | ]. split; [ repeat constructor | ].
        repeat split; discriminate. }
    cbn [ret]. unfold bind at 1, cuda_call at 1. cbn [fst snd log with_log].
    set (q := cuda_status env (log s ++ [SetDevice d]) (EventQuery (getEvent e))).
    rewrite (drop_S _ _ _ He).
    assert (Es : forall l',
               with_log (with_log (with_log s (log s ++ [SetDevice d]))
                           ((log s ++ [SetDevice d]) ++ [EventQuery (getEvent e)]))
                 (((log s ++ [SetDevice d]) ++ [EventQuery (getEvent e)]) ++ l')
               = with_log s (log s ++ [SetDevice d; EventQuery (getEvent e)] ++ l')).
    { intros l'. apply Sys_eq; simpl; try reflexivity. now rewrite <- !app_assoc. }
    destruct q as [ | | code ]; cbn [is_cudaSuccess is_cudaErrorNotReady negb andb].
    + unfold bind at 1. cbn [ret].
      intros E. apply IH in E as (l & -> & Hl & Hb & Ht & Hf).
      exists ([SetDevice d; EventQuery (getEvent e)] ++ l)%list.
      split; [ apply Es | ].
      split; [ repeat constructor; exact Hl | ].
      split; [ exact Hb | ].
      split.
      * intros Hr. destruct (Ht Hr) as [Hq Hlen].
        split; [ rewrite omap_app, Hq; reflexivity | simpl; lia ].
      * intros Hr. destruct (Hf Hr) as (k & Hk & Hq & Hlen).
        exists (S k). split; [ simpl; lia | ].
        split; [ rewrite omap_app, Hq; reflexivity | simpl; lia ].
    + unfold bind at 1. cbn [ret].
      intros [= <- <-].
      exists [SetDevice d; EventQuery (getEvent e)].
      split; [ apply Sys_eq; simpl; try reflexivity; now rewrite <- !app_assoc | ].
      split; [ repeat constructor | ]. split; [ discriminate | ].
      split; [ discriminate | ].
      intros _. exists 0%nat. split; [ simpl; lia | ].
      split; [ reflexivity | simpl; lia ].
    + unfold bind at 1, C10D_CUDA_CHECK. cbn [is_cudaSuccess throw].
      intros [= <- <-].
      exists [SetDevice d; EventQuery (getEvent e)].
      split; [ apply Sys_eq; simpl; try reflexivity; now rewrite <- !app_assoc | ].
      split; [ repeat constructor | ].
      repeat split; discriminate.
Qed.

(** X16: [finishedGPUExecution] only polls.  Whatever the runtime answers,
    it changes nothing but the log, where it adds only device selections
    and event queries; it never blocks.  When it returns true it has
    queried every event of the work, in order; when it returns false it
    has stopped at the first event that was not ready, without querying
    the events after it. *)
Theorem finishedGPUExecution_only_polls (env : Env) (this : WorkNCCL) (s : Sys) :
  exists l,
    snd (finishedGPUExecution env this s) = with_log s (log s ++ l) /\
    Forall poll_only l /\
    fst (finishedGPUExecution env this s) <> Blocked /\
    (fst (finishedGPUExecution env this s) = Ok true ->
     omap event_query l
     = map getEvent (take (length (devices_ this)) (cudaEvents_ this)) /\
     (length (devices_ this) <= length (cudaEvents_ this))%nat) /\
    (fst (finishedGPUExecution env this s) = Ok false ->
     exists k, (k < length (devices_ this))%nat /\
       (k < length (cudaEvents_ this))%nat /\
       omap event_query l = map getEvent (take (S k) (cudaEvents_ this))).
Proof.
  unfold finishedGPUExecution.
  destruct (finishedGPUExecution_loop env this 0 (devices_ this) s) as [r s'] eqn:E.
  apply finishedGPUExecution_loop_trace in E as (l & -> & Hl & Hb & Ht & Hf).
  rewrite drop_0 in Ht, Hf.
  exists l. simpl. repeat split; auto; try (now apply Ht).
  intros Hr. destruct (Hf Hr) as (k & Hk & Hq & Hlen). exists k. auto.
Qed.

(** *** The registry holds one entry per live group *)

Section Registry.

Variable env : Env.
Variable this : nat.
Variable g : Z.
Hypothesis g_range : 0 <= g < 2 ^ 63.

Let tracked (s : Sys) : Prop :=
  registry_live s /\ addresses_bounded s /\
  exists o, objects s !! this = Some o /\ processGroupID_ o = to_string g /\
            is_Some (pgUniqueNCCLIDCnt_ s !! g).

Let known (o : ProcessGroupNCCL) : Prop := processGroupID_ o = to_string g.

Let whatever (s s' : Sys) : Prop := True.

Lemma tracked_log a : logs_ok tracked whatever a.
Proof.
  intros s (Hr & Ha & Ho). split; [ exact I | ].
  split; [ exact Hr | ]. split; [ | exact Ho ].
  intros t o Ht. specialize (Ha t o Ht). simpl. rewrite length_app. lia.
Qed.

Lemma tracked_deref : triple tracked whatever (deref this) known.
Proof.
  eapply triple_weaken; [ apply triple_deref; intros; exact I | ].
  intros o (s & (_ & _ & o' & Ho' & Hid & _) & Ho). unfold known. congruence.
Qed.

Lemma tracked_assign self comms streams events :
  known self ->
  triple tracked whatever (assign this (with_caches self comms streams events)) any.
Proof.
  intros Hid. apply (triple_state tracked whatever tt).
  intros s (Hr & Ha & o & Ho & Hido & Hg). split; [ exact I | ].
  split; [ | split ].
  - intros g' Hg'. destruct (Hr g' Hg') as (t & o' & Ht & Hid').
    destruct (decide (t = this)) as [-> | Hne].
    + eexists this, _. split; [ apply lookup_insert_eq | ].
      simpl. assert (o' = o) as -> by congruence. congruence.
    + exists t, o'. split; [ simpl; now rewrite lookup_insert_ne | exact Hid' ].
  - intros t o' Ht. simpl in Ht.
    destruct (decide (t = this)) as [-> | Hne].
    + exact (Ha this o Ho).
    + rewrite lookup_insert_ne in Ht by congruence. exact (Ha t o' Ht).
  - eexists. split; [ apply lookup_insert_eq | ]. split; [ exact Hid | exact Hg ].
Qed.

Lemma tracked_rendezvous ncclID :
  triple tracked whatever (broadcastUniqueNCCLID this ncclID) any.
Proof.
  intros s (Hr & Ha & o & Ho & Hid & Hg).
  rewrite (broadcastUniqueNCCLID_run this ncclID s o Ho), Hid.
  rewrite stoull_to_string by lia.
  assert (Eg : to_ssize_t g = g) by (apply to_ssize_t_id; unfold ssize_range; lia).
  assert (Hafter : forall publish, tracked (after_rendezvous o s g publish)).
  { intros publish. unfold after_rendezvous. rewrite Eg.
    split; [ | split ].
    - intros g' Hg'. simpl in Hg'. apply Hr.
      destruct (decide (g' = g)) as [-> | Hne]; [ exact Hg | ].
      now rewrite lookup_insert_ne in Hg' by congruence.
    - intros t o' Ht. specialize (Ha t o' Ht). simpl. rewrite length_app. lia.
    - exists o. split; [ exact Ho | ]. split; [ exact Hid | ].
      simpl. rewrite lookup_insert_eq. eauto. }
  destruct (Z.eqb (rank_ o) 0); simpl;
    (split; [ exact I | ]); (split; [ apply Hafter | intros; exact I ]).
Qed.

Lemma allreduce_tracked tensors opts s :
  tracked s -> tracked (snd (allreduce env this tensors opts s)).
Proof.
  intros Hs.
  exact (proj1 (proj2
           (triple_allreduce tracked whatever
              (fun _ => I) (fun _ _ _ _ _ => I)
              env (fun a _ => tracked_log a) this known (fun _ => True)
              tracked_deref (fun _ _ => I) (fun _ _ _ _ _ => I)
              (fun self comms streams events Hk _ =>
                 tracked_assign self comms streams events Hk)
              tracked_rendezvous
              (fun _ => True) (fun a _ => tracked_log a)
              tensors opts (fun _ _ _ _ _ => I) s Hs))).
Qed.

Lemma broadcast_tracked tensors opts s :
  tracked s -> tracked (snd (broadcast env this tensors opts s)).
Proof.
  intros Hs.
  exact (proj1 (proj2
           (triple_broadcast tracked whatever
              (fun _ => I) (fun _ _ _ _ _ => I)
              env (fun a _ => tracked_log a) this known (fun _ => True)
              tracked_deref (fun _ _ => I) (fun _ _ _ _ _ => I)
              (fun self comms streams events Hk _ =>
                 tracked_assign self comms streams events Hk)
              tracked_rendezvous
              (fun _ => True) (fun a _ => tracked_log a)
              tensors opts (fun _ _ _ _ _ => I) s Hs))).
Qed.

End Registry.

Lemma collective_registry {A} (m : M A) this s :
  (forall g, 0 <= g < 2 ^ 63 ->
     (registry_live s /\ addresses_bounded s /\
      exists o, objects s !! this = Some o /\ processGroupID_ o = to_string g /\
                is_Some (pgUniqueNCCLIDCnt_ s !! g)) ->
     registry_live (snd (m s)) /\ addresses_bounded (snd (m s)) /\
     exists o, objects (snd (m s)) !! this = Some o /\
               processGroupID_ o = to_string g /\
               is_Some (pgUniqueNCCLIDCnt_ (snd (m s)) !! g)) ->
  (objects s !! this = None -> m s = (Undefined, s)) ->
  Inv s -> no_overflow s ->
  registry_live s -> addresses_bounded s ->
  registry_live (snd (m s)) /\ addresses_bounded (snd (m s)).
Proof.
  intros Hlive Hdead HI Hov Hr Ha.
  destruct (objects s !! this) as [o | ] eqn:Ho.
  - destruct (inv_live s HI this o Ho) as (g & Hg & Hid & v & Hv & _).
    pose proof (inv_counter s HI) as Hc. unfold counter_bounded in Hc.
    unfold no_overflow in Hov.
    destruct (Hlive g) as (Hr' & Ha' & _); [ lia | | now split ].
    split; [ exact Hr | ]. split; [ exact Ha | ].
    exists o. split; [ reflexivity | ]. split; [ exact Hid | eauto ].
  - rewrite (Hdead eq_refl). now split.
Qed.

Lemma ctor_registry env store rank size s :
  registry_live s -> addresses_bounded s ->
  registry_live (snd (ProcessGroupNCCL_ctor env store rank size s)) /\
  addresses_bounded (snd (ProcessGroupNCCL_ctor env store rank size s)).
Proof.
  intros Hr Ha. split.
  - intros g Hg. simpl in Hg.
    destruct (decide (g = to_ssize_t (processGroupCounter_ s + 1))) as [-> | Hne].
    + eexists (length (log s)), _. split; [ apply lookup_insert_eq | reflexivity ].
    + rewrite lookup_insert_ne in Hg by congruence.
      destruct (Hr g Hg) as (t & o & Ht & Hid).
      exists t, o. split; [ | exact Hid ].
      simpl. rewrite lookup_insert_ne; [ exact Ht | ].
      specialize (Ha t o Ht). lia.
  - intros t o Ht. simpl in Ht. simpl. rewrite !length_app. simpl.
    destruct (decide (t = length (log s))) as [-> | Hne]; [ lia | ].
    rewrite lookup_insert_ne in Ht by congruence.
    specialize (Ha t o Ht). lia.
Qed.

Lemma dtor_registry this s :
  Inv s -> no_overflow s ->
  registry_live s -> addresses_bounded s ->
  registry_live (snd (ProcessGroupNCCL_dtor this s)) /\
  addresses_bounded (snd (ProcessGroupNCCL_dtor this s)).
Proof.
  intros HI Hov Hr Ha.
  destruct (objects s !! this) as [o | ] eqn:Ho.
  2:{ unfold ProcessGroupNCCL_dtor. rewrite (collective_on_dead_group _ _ _ Ho).
      now split. }
  destruct (stoull (processGroupID_ o)) as [k | ] eqn:Hk.
  - destruct (live_key s this o k HI Hov Ho Hk) as (v & Ek & _ & Hid & _).
    rewrite (dtor_closed this s o k Ho Hk). simpl. rewrite Ek. split.
    + intros g Hg. simpl in Hg.
      destruct (decide (g = k)) as [-> | Hne].
      { rewrite lookup_delete_eq in Hg. now destruct Hg. }
      rewrite lookup_delete_ne in Hg by congruence.
      destruct (Hr g Hg) as (t & o' & Ht & Hid').
      exists t, o'. split; [ | exact Hid' ].
      simpl. rewrite lookup_delete_ne; [ exact Ht | ].
      intros <-. assert (o' = o) as -> by congruence.
      apply Hne, to_string_inj. congruence.
    + intros t o' Ht. simpl in Ht. apply lookup_delete_Some in Ht as [_ Ht].
      specialize (Ha t o' Ht). simpl. rewrite length_app. lia.
  - rewrite (dtor_malformed this s o Ho Hk). simpl. split; [ exact Hr | ].
    intros t o' Ht. specialize (Ha t o' Ht). simpl. rewrite length_app. lia.
Qed.

Lemma step_registry env op s :
  Inv s -> no_overflow s ->
  registry_live s -> addresses_bounded s ->
  registry_live (snd (step env op s)) /\ addresses_bounded (snd (step env op s)).
Proof.
  intros HI Hov Hr Ha.
  destruct op as [store rank size | this | this tensors opts | this tensors opts];
    unfold step.
  - destruct (forget_outcome (ProcessGroupNCCL_ctor env store rank size) s) as [-> _].
    now apply ctor_registry.
  - now apply dtor_registry.
  - destruct (forget_outcome (allreduce env this tensors opts) s) as [-> _].
    apply (collective_registry _ this); auto.
    + intros g Hg. apply allreduce_tracked. exact Hg.
    + intros Hn. unfold allreduce. now apply collective_on_dead_group.
  - destruct (forget_outcome (broadcast env this tensors opts) s) as [-> _].
    apply (collective_registry _ this); auto.
    + intros g Hg. apply broadcast_tracked. exact Hg.
    + intros Hn. unfold broadcast. now apply collective_on_dead_group.
Qed.

Lemma occur_registry env ev s :
  Inv s -> no_overflow s ->
  registry_live s -> addresses_bounded s ->
  registry_live (snd (occur env ev s)) /\ addresses_bounded (snd (occur env ev s)).
Proof.
  destruct ev as [op | st key val]; simpl.
  - apply step_registry.
  - intros _ _ Hr Ha. now split.
Qed.

Lemma run_registry env evs :
  forall s,
    Inv s -> cache_ok s ->
    registry_live s -> addresses_bounded s ->
    no_overflow (run env evs s) ->
    registry_live (run env evs s) /\ addresses_bounded (run env evs s).
Proof.
  induction evs as [ | ev evs IH ]; intros s HI Hc Hr Ha Hov; simpl in *;
    [ now split | ].
  pose proof (occur_steps env ev s Hc) as St.
  pose proof (Steps_cache_ok _ _ St Hc) as Hc1.
  pose proof (occur_registry env ev s HI) as Hstep.
  destruct (occur env ev s) as [[[] | e | | ] s1]; simpl in *;
    try exact (Hstep (Steps_no_overflow _ _ St Hov) Hr Ha);
    pose proof (Steps_no_overflow _ _ (run_steps env evs s1 Hc1) Hov) as Hov1;
    pose proof (Steps_no_overflow _ _ St Hov1) as Hov0;
    destruct (Hstep Hov0 Hr Ha) as [Hr1 Ha1];
    (apply IH; auto; exact (Inv_Steps _ _ St Hov1 HI)).
Qed.

(** X17: in every state of every history of a process that does not
    exhaust the counters (constructions, destructions, collectives of
    groups of any rank, publications by peers), the sequence registry has
    exactly one entry per live group: the number [g] has an entry exactly
    when some live group has the id [g].  The constructor adds the entry,
    a rendezvous updates it in place, and the destructor removes it and
    nothing else: no entry is leaked and none is lost. *)
Theorem registry_matches_live_groups (env : Env) (evs : list Event) (g : Z) :
  no_overflow (run env evs Sys_init) ->
  is_Some (pgUniqueNCCLIDCnt_ (run env evs Sys_init) !! g)
  <-> exists this o,
        objects (run env evs Sys_init) !! this = Some o /\
        processGroupID_ o = to_string g.
Proof.
  intros Hov.
  pose proof (Inv_run env evs Hov) as HI.
  destruct (run_registry env evs Sys_init Inv_init Sys_init_cache_ok) as [Hr _].
  - intros g' Hg'. simpl in Hg'. rewrite lookup_empty in Hg'. now destruct Hg'.
  - intros t o Ht. simpl in Ht. rewrite lookup_empty in Ht. discriminate.
  - exact Hov.
  - split; [ apply Hr | ].
    intros (this & o & Ho & Hid).
    destruct (inv_live _ HI this o Ho) as (g' & _ & Hid' & v & Hv & _).
    assert (g = g') as -> by (apply to_string_inj; congruence).
    eauto.
Qed.

Lemma registry_matches_live_groups_witness :
  is_Some (pgUniqueNCCLIDCnt_ (run env_ready sample_peer_history Sys_init) !! 0)
  <-> exists this o,
        objects (run env_ready sample_peer_history Sys_init) !! this = Some o /\
        processGroupID_ o = to_string 0.
Proof.
  apply (registry_matches_live_groups env_ready sample_peer_history 0).
  vm_compute. reflexivity.
Defined.

(** In the sample history of rank 1, the rendezvous the all-reduce got
    past moved the group's entry of the registry from -1 to 0. *)
Example sample_peer_history_registry :
  pgUniqueNCCLIDCnt_ (run env_ready sample_peer_history Sys_init) !! 0 = Some 0.
Proof. vm_compute. reflexivity. Qed.

(** *** When a collective returns *)

Section Sure.

Variable H : gmap nat ProcessGroupNCCL -> Prop.

Local Abbreviation sure := (sure H).

Lemma sure_ret {A} (a : A) (Q : A -> Prop) : Q a -> sure (ret a) Q.
Proof. intros HQ s _. exists a. now repeat split. Qed.

Lemma sure_weaken {A} (m : M A) (Q Q' : A -> Prop) :
  sure m Q -> (forall a, Q a -> Q' a) -> sure m Q'.
Proof.
  intros Hm HQ s Hs. destruct (Hm s Hs) as (a & E & Ha & Ho).
  exists a. repeat split; auto.
Qed.

Lemma sure_bind {A B} (m : M A) (k : A -> M B) (Q : A -> Prop) (Q' : B -> Prop) :
  sure m Q -> (forall a, Q a -> sure (k a) Q') -> sure (bind m k) Q'.
Proof.
  intros Hm Hk s Hs. destruct (Hm s Hs) as (a & E & Ha & Ho). unfold bind.
  destruct (m s) as [r s1]. simpl in *. subst r.
  destruct (Hk a Ha s1) as (b & E' & Hb & Ho'); [ now rewrite Ho | ].
  exists b. repeat split; auto. congruence.
Qed.

Lemma sure_finally {A} (m : M A) (cleanup : M unit) (Q : A -> Prop) :
  sure m Q -> sure cleanup any -> sure (finally m cleanup) Q.
Proof.
  intros Hm Hc s Hs. destruct (Hm s Hs) as (a & E & Ha & Ho). unfold finally.
  destruct (m s) as [r s1]. simpl in *. subst r.
  destruct (Hc s1) as ([] & E' & _ & Ho'); [ now rewrite Ho | ].
  destruct (cleanup s1) as [r2 s2]. simpl in *. subst r2. simpl.
  exists a. split; [ reflexivity | ]. split; [ exact Ha | congruence ].
Qed.

Lemma sure_for_each {A B} (body : nat -> A -> M B) (v : list A) :
  forall i,
    (forall j x, v !! j = Some x -> sure (body (i + j)%nat x) any) ->
    sure (for_each body i v) (fun ys => length ys = length v).
Proof.
  induction v as [ | x v IH ]; intros i Hbody; simpl.
  - now apply sure_ret.
  - eapply sure_bind.
    { specialize (Hbody 0%nat x eq_refl). rewrite Nat.add_0_r in Hbody. exact Hbody. }
    intros y _. eapply sure_bind.
    { apply IH. intros j x' Hj. specialize (Hbody (S j) x' Hj).
      rewrite Nat.add_succ_r in Hbody. exact Hbody. }
    intros ys Hys. apply sure_ret. simpl. now rewrite Hys.
Qed.

Lemma sure_idx {A} (v : list A) i : (i < length v)%nat -> sure (idx v i) any.
Proof.
  intros Hi. unfold idx. destruct (lookup_lt_is_Some_2 v i Hi) as [x ->].
  now apply sure_ret.
Qed.

Lemma sure_get_sys : sure get_sys any.
Proof. intros s _. exists s. now repeat split. Qed.

Lemma sure_deref this o :
  (forall h, H h -> h !! this = Some o) -> sure (deref this) (eq o).
Proof.
  intros Hl s Hs. unfold deref. rewrite (Hl _ Hs). exists o. now repeat split.
Qed.

Lemma sure_emit a : sure (emit a) any.
Proof. intros s _. exists tt. now repeat split. Qed.

Lemma sure_store_set st key val : sure (store_set st key val) any.
Proof. intros s _. exists tt. now repeat split. Qed.

Lemma sure_set_pgUniqueNCCLIDCnt gid v : sure (set_pgUniqueNCCLIDCnt gid v) any.
Proof. intros s _. exists tt. now repeat split. Qed.

Lemma sure_getNcclDataType t :
  is_Some (ncclDataType t) -> sure (getNcclDataType t) any.
Proof.
  intros [d Hd]. unfold getNcclDataType. rewrite Hd. now apply sure_ret.
Qed.

Variable env : Env.
Hypothesis env_ok : cooperative env.

Lemma sure_cuda_call a : sure (cuda_call env a) (fun rc => rc = cudaSuccess).
Proof.
  intros s _. eexists. split; [ reflexivity | ].
  split; [ apply env_ok | reflexivity ].
Qed.

Lemma sure_nccl_call a : sure (nccl_call env a) (fun rc => rc = ncclSuccess).
Proof.
  intros s _. eexists. split; [ reflexivity | ].
  split; [ apply env_ok | reflexivity ].
Qed.

Lemma sure_cuda_checked a :
  sure (let* rc := cuda_call env a in C10D_CUDA_CHECK rc) any.
Proof.
  eapply sure_bind; [ apply sure_cuda_call | intros rc -> ].
  now apply sure_ret.
Qed.

Lemma sure_nccl_checked {A} a (k : unit -> M A) Q :
  sure (k tt) Q ->
  sure (let* rc := nccl_call env a in let* u := C10D_NCCL_CHECK rc in k u) Q.
Proof.
  intros Hk.
  eapply sure_bind; [ apply sure_nccl_call | intros rc -> ].
  eapply sure_bind; [ apply (sure_ret tt any); exact I | intros [] _; exact Hk ].
Qed.

Lemma sure_setDevice d : sure (setDevice env d) any.
Proof. apply sure_cuda_checked. Qed.

Lemma sure_CUDAStream_create : sure (CUDAStream_create env) any.
Proof.
  unfold CUDAStream_create.
  eapply sure_bind; [ apply sure_get_sys | intros s0 _ ].
  eapply sure_bind; [ apply sure_cuda_call | intros rc -> ].
  eapply sure_bind; [ apply (sure_ret tt any); exact I | intros _ _ ].
  now apply sure_ret.
Qed.

Lemma sure_CUDAEvent_create : sure (CUDAEvent_create env) any.
Proof.
  unfold CUDAEvent_create.
  eapply sure_bind; [ apply sure_get_sys | intros s0 _ ].
  eapply sure_bind; [ apply sure_cuda_call | intros rc -> ].
  eapply sure_bind; [ apply (sure_ret tt any); exact I | intros _ _ ].
  now apply sure_ret.
Qed.

Lemma sure_NCCLComm_create n r id : sure (NCCLComm_create env n r id) any.
Proof.
  unfold NCCLComm_create.
  eapply sure_bind; [ apply sure_get_sys | intros s0 _ ].
  apply sure_nccl_checked. now apply sure_ret.
Qed.

Lemma sure_syncStreams thc devices events streams :
  length streams = length devices ->
  length events = length devices ->
  sure (syncStreams env thc devices events streams) any.
Proof.
  intros Hs He. unfold syncStreams.
  eapply sure_bind; [ | intros; now apply sure_ret ].
  apply sure_for_each. intros j d Hj. apply lookup_lt_Some in Hj.
  eapply sure_bind; [ apply sure_setDevice | intros _ _ ].
  eapply sure_bind; [ apply sure_idx; simpl; lia | intros st _ ].
  eapply sure_bind; [ apply sure_idx; simpl; lia | intros ev _ ].
  eapply sure_bind; [ apply sure_cuda_call | intros rc -> ].
  eapply sure_bind; [ apply (sure_ret tt any); exact I | intros _ _ ].
  apply sure_cuda_checked.
Qed.

Lemma sure_WorkNCCL_ctor devices :
  sure (WorkNCCL_ctor env devices)
    (fun work => devices_ work = devices /\
                 length (cudaEvents_ work) = length devices).
Proof.
  unfold WorkNCCL_ctor.
  eapply sure_bind.
  - apply sure_for_each. intros j d _.
    eapply sure_bind; [ apply sure_setDevice | intros _ _ ].
    apply sure_CUDAEvent_create.
  - intros events Hlen. apply sure_ret. simpl. now split.
Qed.

Lemma sure_record_events (streams : list CUDAStream) (work : WorkNCCL)
    (tensors : list Tensor) :
  length streams = length tensors ->
  length (cudaEvents_ work) = length tensors ->
  sure
    (for_each
       (fun i _ =>
          let* ncclStream := idx streams i in
          let* cudaEvent := idx (cudaEvents_ work) i in
          let* rc :=
            cuda_call env (EventRecord (getEvent cudaEvent) (getStream ncclStream)) in
          C10D_CUDA_CHECK rc)
       0%nat tensors)
    any.
Proof.
  intros Hs He.
  eapply sure_weaken; [ | intros; exact I ].
  apply sure_for_each. intros j t Hj. apply lookup_lt_Some in Hj.
  eapply sure_bind; [ apply sure_idx; simpl; lia | intros st _ ].
  eapply sure_bind; [ apply sure_idx; simpl; lia | intros ev _ ].
  apply sure_cuda_checked.
Qed.

Lemma sure_broadcastUniqueNCCLID this o ncclID :
  (forall h, H h -> h !! this = Some o) ->
  rank_ o = 0 ->
  is_Some (stoull (processGroupID_ o)) ->
  sure (broadcastUniqueNCCLID this ncclID) any.
Proof.
  intros Hl Hr [k Hk]. unfold broadcastUniqueNCCLID.
  eapply sure_bind; [ apply sure_deref; exact Hl | intros self <- ].
  eapply sure_bind; [ apply sure_emit | intros _ _ ].
  rewrite Hk, Hr. simpl.
  eapply sure_bind; [ apply sure_get_sys | intros s0 _ ].
  eapply sure_bind; [ apply sure_set_pgUniqueNCCLIDCnt | intros _ _ ].
  eapply sure_bind; [ apply sure_emit | intros _ _ ].
  eapply sure_bind; [ apply sure_store_set | intros _ _ ].
  now apply sure_ret.
Qed.

End Sure.

Lemma sure_lift {A} H (a : A) : sure H (lift (Ok a)) (eq a).
Proof. intros s _. exists a. now repeat split. Qed.

Lemma hoare_sure_bind {A B} H h0 Ex (m : M A) (k : A -> M B) (Q1 : A -> Prop) Q
    (I : gmap nat ProcessGroupNCCL -> Prop) :
  sure H m Q1 -> H h0 ->
  (forall a, Q1 a -> hoare h0 Ex (k a) Q I) ->
  hoare h0 Ex (bind m k) Q I.
Proof.
  intros Hm HH Hk s <-. destruct (Hm s HH) as (a & E & Ha & Ho). unfold bind.
  destruct (m s) as [r s1]. simpl in *. subst r. exact (Hk a Ha s1 Ho).
Qed.

Lemma hoare_sure {A} H h0 Ex (m : M A) (Q1 : A -> Prop) Q
    (I : gmap nat ProcessGroupNCCL -> Prop) :
  sure H m Q1 -> H h0 ->
  (forall a, Q1 a -> Q a h0) ->
  hoare h0 Ex m Q I.
Proof.
  intros Hm HH HQ s <-. destruct (Hm s HH) as (a & E & Ha & Ho).
  rewrite E, Ho. now apply HQ.
Qed.

Lemma hoare_both {A} h0 Ex (m : M A) Q Q'
    (I : gmap nat ProcessGroupNCCL -> Prop) :
  hoare h0 nobody m Q' nowhere ->
  hoare h0 Ex m Q I ->
  hoare h0 nobody m Q nowhere.
Proof.
  intros H1 H2 s Hs. specialize (H1 s Hs). specialize (H2 s Hs).
  destruct (fst (m s)); auto.
Qed.

Section Returns.

Variable env : Env.
Hypothesis env_ok : cooperative env.

Lemma sure_nccl_check_only H a :
  sure H (let* rc := nccl_call env a in C10D_NCCL_CHECK rc) any.
Proof.
  eapply sure_bind; [ now apply sure_nccl_call | intros rc -> ].
  now apply sure_ret.
Qed.

Lemma getNCCLComm_returns this self key devices h0 :
  h0 !! this = Some self ->
  is_empty key = false ->
  is_Some (devNCCLCommMap_ self !! key) \/
  (rank_ self = 0 /\ is_Some (stoull (processGroupID_ self))) ->
  hoare h0 nobody (getNCCLComm env this key devices) (fun _ _ => True) nowhere.
Proof.
  intros Hlive Hkey Hcase. unfold getNCCLComm.
  eapply (hoare_sure_bind (eq h0));
    [ apply sure_deref; intros ? <-; exact Hlive | reflexivity | intros o <- ].
  rewrite Hkey.
  destruct (devNCCLCommMap_ self !! key) as [c | ] eqn:Ec; [ now apply hoare_ret | ].
  destruct Hcase as [[? [=]] | [Hr Hid]].
  rewrite Hr. simpl.
  eapply (hoare_sure_bind (eq h0) _ _ _ _ any); [ | reflexivity | intros ncclID0 _ ].
  { unfold ncclGetUniqueId.
    eapply sure_bind; [ eapply sure_bind; [ apply sure_get_sys | intros s0 _ ] | ].
    - eapply sure_bind; [ now apply sure_nccl_call | intros rc -> ].
      apply (sure_ret _ _ (fun p => fst p = ncclSuccess)). reflexivity.
    - intros [rc id] Hrc. simpl in Hrc. subst rc.
      eapply sure_bind; [ apply (sure_ret _ tt any); exact I | intros _ _ ].
      now apply sure_ret. }
  eapply (hoare_sure_bind (eq h0));
    [ apply (sure_broadcastUniqueNCCLID _ this self); auto; intros ? <-; exact Hlive
    | reflexivity | intros ncclID _ ].
  eapply (hoare_sure_bind (eq h0));
    [ now apply sure_nccl_call | reflexivity | intros rc -> ].
  eapply (hoare_sure_bind (eq h0));
    [ apply (sure_ret _ tt any); exact I | reflexivity | intros _ _ ].
  eapply (hoare_sure_bind (eq h0));
    [ apply sure_for_each | reflexivity | intros created _ ].
  { intros j d _.
    eapply sure_bind; [ now apply sure_setDevice | intros _ _ ].
    eapply sure_bind; [ now apply sure_NCCLComm_create | intros comm _ ].
    eapply sure_bind; [ now apply sure_CUDAStream_create | intros stream _ ].
    eapply sure_bind; [ now apply sure_CUDAEvent_create | intros event _ ].
    now apply sure_ret. }
  eapply (hoare_sure_bind (eq h0));
    [ now apply sure_nccl_call | reflexivity | intros rc -> ].
  eapply (hoare_sure_bind (eq h0));
    [ apply (sure_ret _ tt any); exact I | reflexivity | intros _ _ ].
  destruct (subscript _ _) as [cached comms'].
  apply hoare_assign_bind. now apply hoare_ret.
Qed.

(** Both collectives, when nothing can go wrong. *)
Ltac collective_returns this self tensors h0 Hlive Hal Hvalid Hcase Htypes :=
  let Hne := fresh "Hne" in
  let comms := fresh "comms" in
  let h1 := fresh "h1" in
  let self1 := fresh "self1" in
  let Hext := fresh "Hext" in
  let Hc := fresh "Hc" in
  let Hal1 := fresh "Hal1" in
  let Hk := fresh "Hk" in
  let streams := fresh "streams" in
  let events := fresh "events" in
  let Es := fresh "Es" in
  let Ee := fresh "Ee" in
  let Lc := fresh "Lc" in
  let Ls := fresh "Ls" in
  let Le := fresh "Le" in
  let work := fresh "work" in
  let Hd := fresh "Hd" in
  let Hl := fresh "Hl" in
  let j := fresh "j" in
  let t := fresh "t" in
  let Hj := fresh "Hj" in
  let Hin := fresh "Hin" in
  eapply (hoare_sure_bind (eq h0));
    [ apply sure_deref; intros ? <-; exact Hlive | reflexivity | intros ? <- ];
  rewrite Hvalid;
  eapply (hoare_sure_bind (eq h0)); [ apply sure_lift | reflexivity | intros ? <- ];
  rewrite getDevicesOfTensors_map;
  pose proof (validated_nonempty _ _ _ _ Hvalid) as Hne;
  assert (Hkey : is_empty (getKeyFromDevices (map get_device tensors)) = false)
    by (destruct tensors; [ contradiction | apply getKeyFromDevices_nonempty ]);
  eapply hoare_bind;
    [ eapply hoare_both;
      [ apply (getNCCLComm_returns this self _ _ h0 Hlive Hkey Hcase)
      | apply (getNCCLComm_hoare env (fun _ => True)
                 (fun _ _ => I) (fun _ _ => I) I I this self _ _ h0 Hlive
                 (fun _ => I)) ]
    | ];
  intros comms h1 (self1 & -> & Hext & Hc & Hal1);
  specialize (Hal1 Hal eq_refl);
  eapply (hoare_sure_bind (eq (<[this := self1]> h0)));
    [ apply sure_deref; intros ? <-; apply lookup_insert_eq
    | reflexivity | intros ? <- ];
  pose proof (Hal1 (getKeyFromDevices (map get_device tensors))) as Hk;
  rewrite Hc in Hk;
  destruct (ncclStreams_ self1 !! getKeyFromDevices (map get_device tensors))
    as [streams | ] eqn:Es; [ | contradiction ];
  destruct (ncclEvents_ self1 !! getKeyFromDevices (map get_device tensors))
    as [events | ] eqn:Ee; [ | contradiction ];
  destruct (Hk _ eq_refl) as (Lc & Ls & Le); rewrite length_map in Lc, Ls, Le;
  unfold subscript; rewrite Es, Ee; rewrite with_caches_same;
  apply hoare_assign_bind;
  eapply (hoare_sure (fun _ => True) _ _ _ any);
    [ | exact I | intros ? _; exact I ];
  eapply sure_bind;
    [ apply sure_syncStreams; [ exact env_ok | now rewrite length_map .. ]
    | intros _ _ ];
  eapply sure_bind; [ now apply sure_WorkNCCL_ctor | intros work [Hd Hl] ];
  rewrite length_map in Hl;
  eapply sure_bind; [ apply sure_emit | intros _ _ ];
  eapply sure_finally; [ | apply sure_emit ];
  apply sure_nccl_checked; [ exact env_ok | ];
  eapply sure_bind;
    [ apply sure_for_each; intros j t Hj;
      pose proof (list_elem_of_lookup_2 _ _ _ Hj) as Hin;
      apply lookup_lt_Some in Hj; simpl;
      eapply sure_bind; [ apply sure_idx; rewrite length_map; lia | intros ? _ ];
      eapply sure_bind; [ now apply sure_setDevice | intros _ _ ];
      eapply sure_bind; [ apply sure_idx; lia | intros ? _ ];
      eapply sure_bind;
        [ apply sure_getNcclDataType; now apply Htypes | intros ? _ ];
      eapply sure_bind; [ apply sure_idx; lia | intros ? _ ];
      now apply sure_nccl_check_only
    | intros ? _ ];
  apply sure_nccl_checked; [ exact env_ok | ];
  eapply sure_bind; [ now apply sure_record_events | intros ? _ ];
  now apply sure_ret.

Lemma allreduce_returns this self tensors opts h0 :
  h0 !! this = Some self ->
  aligned self ->
  tensorCheckHelper self tensors tensors default_outputOverInput = Ok tt ->
  is_Some (devNCCLCommMap_ self !! getKeyFromDevices (map get_device tensors)) \/
  (rank_ self = 0 /\ is_Some (stoull (processGroupID_ self))) ->
  (forall t, t ∈ tensors -> is_Some (ncclDataType (scalarType t))) ->
  hoare h0 nobody (allreduce env this tensors opts) (fun _ _ => True) nowhere.
Proof.
  intros Hlive Hal Hvalid Hcase Htypes. unfold allreduce.
  collective_returns this self tensors h0 Hlive Hal Hvalid Hcase Htypes.
Qed.

Lemma broadcast_returns this self tensors opts h0 :
  h0 !! this = Some self ->
  aligned self ->
  tensorCheckHelper self tensors tensors default_outputOverInput = Ok tt ->
  is_Some (devNCCLCommMap_ self !! getKeyFromDevices (map get_device tensors)) \/
  (rank_ self = 0 /\ is_Some (stoull (processGroupID_ self))) ->
  (forall t, t ∈ tensors -> is_Some (ncclDataType (scalarType t))) ->
  hoare h0 nobody (broadcast env this tensors opts) (fun _ _ => True) nowhere.
Proof.
  intros Hlive Hal Hvalid Hcase Htypes. unfold broadcast.
  collective_returns this self tensors h0 Hlive Hal Hvalid Hcase Htypes.
Qed.

End Returns.

Lemma hoare_returns {A} (m : M A) s :
  hoare (objects s) nobody m (fun _ _ => True) nowhere ->
  exists a, fst (m s) = Ok a.
Proof.
  intros Hh. specialize (Hh s eq_refl).
  destruct (fst (m s)) as [a | e | | ]; [ eauto | now destruct Hh | easy | easy ].
Qed.

(** X18: a collective returns a work object when nothing stands in its
    way: the runtime answers success to every call, the group is alive
    with aligned caches, the buffers pass validation, their element types
    are supported, and either the group already holds communicators for
    the devices or it is rank 0 of a group with a numeric id, so that the
    rendezvous publishes instead of waiting. *)
Theorem collective_returns_work
    (env : Env) (this : nat) (self : ProcessGroupNCCL)
    (tensors : list Tensor) (s : Sys) :
  cooperative env ->
  objects s !! this = Some self ->
  aligned self ->
  tensorCheckHelper self tensors tensors default_outputOverInput = Ok tt ->
  is_Some (devNCCLCommMap_ self !! getKeyFromDevices (map get_device tensors)) \/
  (rank_ self = 0 /\ is_Some (stoull (processGroupID_ self))) ->
  (forall t, t ∈ tensors -> is_Some (ncclDataType (scalarType t))) ->
  (forall opts, exists work, fst (allreduce env this tensors opts s) = Ok work) /\
  (forall opts, exists work, fst (broadcast env this tensors opts s) = Ok work).
Proof.
  intros Henv Hlive Hal Hvalid Hcase Htypes. split; intros opts.
  - apply hoare_returns. now apply (allreduce_returns env Henv this self).
  - apply hoare_returns. now apply (broadcast_returns env Henv this self).
Qed.

Lemma collective_returns_work_witness :
  exists work,
    fst (broadcast env_ready 0 sample_tensors {| rootRank := 0; rootTensor := 1 |}
           sample_sys) = Ok work.
Proof.
  apply (collective_returns_work env_ready 0%nat sample_root_group sample_tensors
           sample_sys).
  - split; reflexivity.
  - vm_compute. reflexivity.
  - intros key. simpl. rewrite !lookup_empty. exact I.
  - vm_compute. reflexivity.
  - right. split; [ reflexivity | vm_compute; eauto ].
  - intros t Ht. unfold sample_tensors in Ht.
    apply elem_of_cons in Ht as [-> | Ht]; [ vm_compute; eauto | ].
    apply elem_of_cons in Ht as [-> | Ht]; [ vm_compute; eauto | ].
    now apply elem_of_nil in Ht.
Defined.

(** *** Participant ranks and the root of a broadcast *)

(** C7: on a cache miss, the communicator of the i-th of n local devices
    is created with participant rank r * n + i and participant count
    s * n, for a caller of rank r in a group of s ranks; and the creation
    does return them when the runtime answers success and the group is
    rank 0.  [broadcast] gives every primitive call the root
    rootRank * n + rootTensor: it logs no call with another root, and when
    it returns it has issued one call per tensor with that root; it does
    return, with these calls issued, when nothing stands in its way (the
    runtime answers success, the group is alive with aligned caches, the
    buffers are valid and of supported types, and the communicators are
    cached or the group is rank 0).  The products are computed in the
    machine's integers: they are the mathematical values whenever those
    fit an [int]. *)
Theorem participant_ranks_and_root
    (env : Env) (this : nat) (self : ProcessGroupNCCL) (key : string)
    (devices : list Z) (s : Sys)
    (tensors : list Tensor) (opts : BroadcastOptions) (sb : Sys) :
  objects s !! this = Some self ->
  devNCCLCommMap_ self !! key = None ->
  let n := Z.of_nat (length devices) in
  let root := rootRank opts * Z.of_nat (length tensors) + rootTensor opts in
  (forall comms s',
      getNCCLComm env this key devices s = (Ok comms, s') ->
      map (fun c => (comm_rank c, comm_numRanks c)) comms
      = map (fun i => (to_int (rank_ self * n + Z.of_nat i), to_int (size_ self * n)))
          (seq 0 (length devices)) /\
      ((forall i, 0 <= i < n -> int_range (rank_ self * n + i)) ->
       int_range (size_ self * n) ->
       map (fun c => (comm_rank c, comm_numRanks c)) comms
       = map (fun i => (rank_ self * n + Z.of_nat i, size_ self * n))
           (seq 0 (length devices)))) /\
  (cooperative env ->
   is_empty key = false ->
   rank_ self = 0 ->
   is_Some (stoull (processGroupID_ self)) ->
   exists comms,
     fst (getNCCLComm env this key devices s) = Ok comms /\
     length comms = length devices) /\
  grows (rooted_at (to_int root)) sb (snd (broadcast env this tensors opts sb)) /\
  (forall work,
      fst (broadcast env this tensors opts sb) = Ok work ->
      calls bcast_root (map (fun _ => to_int root) tensors)
        sb (snd (broadcast env this tensors opts sb))) /\
  (forall selfb,
      cooperative env ->
      objects sb !! this = Some selfb ->
      aligned selfb ->
      tensorCheckHelper selfb tensors tensors default_outputOverInput = Ok tt ->
      is_Some (devNCCLCommMap_ selfb !! getKeyFromDevices (map get_device tensors)) \/
      (rank_ selfb = 0 /\ is_Some (stoull (processGroupID_ selfb))) ->
      (forall t, t ∈ tensors -> is_Some (ncclDataType (scalarType t))) ->
      exists work,
        fst (broadcast env this tensors opts sb) = Ok work /\
        calls bcast_root (map (fun _ => to_int root) tensors)
          sb (snd (broadcast env this tensors opts sb))) /\
  (int_range root -> to_int root = root).
Proof.
  intros Hobj Hmiss n root.
  assert (Hranks : forall comms s',
             getNCCLComm env this key devices s = (Ok comms, s') ->
             map (fun c => (comm_rank c, comm_numRanks c)) comms
             = map (fun i => (to_int (rank_ self * n + Z.of_nat i),
                              to_int (size_ self * n)))
                 (seq 0 (length devices))).
  { intros comms s' E.
    exact (getNCCLComm_miss env this self key devices s comms s' Hobj Hmiss E). }
  assert (Hcalls : forall work,
             fst (broadcast env this tensors opts sb) = Ok work ->
             calls bcast_root (map (fun _ => to_int root) tensors)
               sb (snd (broadcast env this tensors opts sb))).
  { intros work Hw.
    destruct (broadcast env this tensors opts sb) as [r sb'] eqn:Eb.
    simpl in Hw. subst r. now apply broadcast_success_roots in Eb. }
  split.
  { intros comms s' E. split; [ now apply (Hranks comms s') | ].
    intros Hr Hs. rewrite (Hranks comms s' E). apply map_ext_in. intros i Hi%in_seq.
    rewrite !to_int_id; [ reflexivity | exact Hs | apply Hr; subst n; lia ]. }
  split.
  { intros Henv Hkey Hrank Hid.
    destruct (hoare_returns (getNCCLComm env this key devices) s) as [comms Hc].
    - apply (getNCCLComm_returns env Henv this self); auto.
    - exists comms. split; [ exact Hc | ].
      destruct (getNCCLComm env this key devices s) as [r s'] eqn:E.
      simpl in Hc. subst r.
      pose proof (f_equal (@length _) (Hranks comms s' eq_refl)) as Hlen.
      now rewrite !length_map, length_seq in Hlen. }
  split.
  { apply broadcast_grows.
    - intros a Ha. destruct a; try discriminate Ha; exact I.
    - intros t dtype comm stream _. simpl. apply root_wrap. }
  split; [ exact Hcalls | ].
  split.
  { intros selfb Henv Hlive Hal Hvalid Hcase Htypes.
    destruct (hoare_returns (broadcast env this tensors opts) sb) as [work Hw].
    - now apply (broadcast_returns env Henv this selfb).
    - exists work. split; [ exact Hw | exact (Hcalls work Hw) ]. }
  apply to_int_id.
Qed.

(** The witness: rank 0 of two ranks creates its communicators for devices
    0 and 1 as participants 0 and 1 of 4; and a broadcast over the two
    devices from the first tensor of rank 1 is issued with root 2 on
    both. *)
Lemma participant_ranks_and_root_witness :
  match fst (getNCCLComm env_ready 0 "0,1" [0; 1] sample_sys) with
  | Ok comms => map (fun c => (comm_rank c, comm_numRanks c)) comms = [(0, 4); (1, 4)]
  | _ => False
  end /\
  exists work,
    fst (broadcast env_ready 0 sample_tensors {| rootRank := 1; rootTensor := 0 |}
           sample_sys) = Ok work /\
    calls bcast_root [2; 2] sample_sys
      (snd (broadcast env_ready 0 sample_tensors {| rootRank := 1; rootTensor := 0 |}
              sample_sys)).
Proof.
  assert (Hobj : objects sample_sys !! 0%nat = Some sample_root_group)
    by (vm_compute; reflexivity).
  destruct (participant_ranks_and_root env_ready 0%nat sample_root_group "0,1" [0; 1]
              sample_sys sample_tensors {| rootRank := 1; rootTensor := 0 |}
              sample_sys Hobj eq_refl) as (H & _ & _ & _ & Hb & _).
  split.
  - destruct (getNCCLComm env_ready 0 "0,1" [0; 1] sample_sys)
      as [[comms | e | | ] s'] eqn:E; try (vm_compute in E; discriminate E).
    destruct (H comms s' eq_refl) as [H1 _]. simpl. rewrite H1. reflexivity.
  - apply (Hb sample_root_group).
    + split; reflexivity.
    + exact Hobj.
    + intros key. simpl. rewrite !lookup_empty. exact I.
    + vm_compute. reflexivity.
    + right. split; [ reflexivity | vm_compute; eauto ].
    + intros t Ht. unfold sample_tensors in Ht.
      apply elem_of_cons in Ht as [-> | Ht]; [ vm_compute; eauto | ].
      apply elem_of_cons in Ht as [-> | Ht]; [ vm_compute; eauto | ].
      now apply elem_of_nil in Ht.
Defined.

End c10d_properties.
